(** * DataApp tracking core: candidate merging, detection fusion, track
    association, track validation and trajectory classification.

    The Python sources are embedded shallowly.  Python [float]s (and numpy
    [float64]s) are idealised as real numbers: rounding, infinities and NaN
    are outside the model.  Python [int]s that count things are [nat],
    configuration integers and pixel coordinates are [Z].  Python [set]s of
    indices are [gset nat]; lists are [list], indexed with stdpp's lookup
    and updated with stdpp's insert. *)

From Stdlib Require Import Reals Lra Lia ZArith Sorted.
From stdpp Require Import base option list strings gmap sets sorting.

(** ** Numbers and geometry *)

#[global] Instance Rle_decision (x y : R) : Decision (x <= y)%R := Rle_dec x y.
#[global] Instance Rlt_decision (x y : R) : Decision (x < y)%R := Rlt_dec x y.
#[global] Instance Rge_decision (x y : R) : Decision (x >= y)%R := Rge_dec x y.
#[global] Instance Rgt_decision (x y : R) : Decision (x > y)%R := Rgt_dec x y.
#[global] Instance R_eq_decision : EqDecision R := Req_dec_T.

(** A centroid [(x, y)] and a bounding box [(x, y, w, h)]. *)
Definition point : Type := R * R.
Definition box : Type := Z * Z * Z * Z.

(** [np.sqrt((p[0]-q[0])**2 + (p[1]-q[1])**2)], also what
    [cdist(..., metric='euclidean')] puts at each entry. *)
Definition euclid (p q : point) : R :=
  sqrt ((p.1 - q.1) ^ 2 + (p.2 - q.2) ^ 2).

(** Python's [sum(...)] and the [total += ...] loops: a left fold from 0. *)
Definition Rsum (l : list R) : R := foldl Rplus 0%R l.

(** Distances between consecutive positions,
    [zip(positions[:-1], positions[1:])]. *)
Definition step_distances (ps : list point) : list R :=
  zip_with euclid ps (tail ps).

(** [list.sort(key=...)] on a real key: a stable sort, modelled as insertion
    sort that keeps the input order among equal keys. *)
Fixpoint insert_by {A} (key : A → R) (x : A) (l : list A) : list A :=
  match l with
  | [] => [x]
  | y :: l' =>
      if bool_decide (key x <= key y)%R then x :: y :: l'
      else y :: insert_by key x l'
  end.

Definition sort_by {A} (key : A → R) (l : list A) : list A :=
  foldr (insert_by key) [] l.

(** [enumerate(l)]. *)
Definition enumerate {A} (l : list A) : list (nat * A) := imap pair l.

(** ** robust_tracker_v5.py *)

Module Robust.

(** The strings stored in [candidate_type]; the dataclass default is
    ['unknown'] and its comment also lists ['multi']. *)
Inductive CandidateType := dark_only | bright_only | coupled | multi | unknown.

(** The blob dictionaries [{'centroid': .., 'bbox': .., 'area': ..}]. *)
Record Blob := {
  blob_centroid : point;
  blob_bbox : box;
  blob_area : R
}.

Record OrganismCandidate := {
  frame_idx : nat;
  centroid : point;
  bbox : box;
  total_area : R;
  dark_blobs : list Blob;
  bright_blobs : list Blob;
  candidate_type : CandidateType
}.

Definition component_count (c : OrganismCandidate) : nat :=
  length (dark_blobs c) + length (bright_blobs c).

Record RobustTrack := {
  track_id : nat;
  positions : list point;
  frames : list nat;
  bboxes : list box;
  areas : list R;
  candidate_types : list CandidateType;
  last_seen_frame : nat;
  frames_since_detection : nat;
  is_resting : bool;
  rest_zone_center : option point;
  rest_zone_radius : R;
  is_valid : bool
}.

(** [RobustTrack(track_id=id)] with the dataclass defaults. *)
Definition new_track (id : nat) : RobustTrack :=
  {| track_id := id; positions := []; frames := []; bboxes := [];
     areas := []; candidate_types := []; last_seen_frame := 0;
     frames_since_detection := 0; is_resting := false;
     rest_zone_center := None; rest_zone_radius := 100; is_valid := false |}.

Record RobustTrackingParams := {
  max_distance : R;
  max_skip_frames : Z;
  initial_rest_radius : R;
  max_rest_radius : R;
  rest_expand_rate : R;
  min_track_length : Z;
  min_displacement : R;
  min_speed : R;
  max_speed : R
}.

Definition default_tracking_params : RobustTrackingParams :=
  {| max_distance := 60; max_skip_frames := 90; initial_rest_radius := 100;
     max_rest_radius := 200; rest_expand_rate := 10; min_track_length := 5;
     min_displacement := 10; min_speed := 0.1; max_speed := 30 |}.

Record MergeParams := {
  merge_radius : R;
  min_separation : R
}.

Definition default_merge_params : MergeParams :=
  {| merge_radius := 80; min_separation := 10 |}.

(** *** Track properties and methods *)

Definition track_length (t : RobustTrack) : nat := length (frames t).

Definition last_position (t : RobustTrack) : option point := last (positions t).

(** The [displacement] property: the chained step distances. *)
Definition displacement (t : RobustTrack) : R :=
  if bool_decide (length (positions t) < 2) then 0%R
  else Rsum (step_distances (positions t)).

Definition avg_speed (t : RobustTrack) : R :=
  if bool_decide (length (positions t) < 2) then 0%R
  else (displacement t / INR (length (positions t) - 1))%R.

(** [predicted_position]: [positions[-1]] and [positions[-2]] are read off
    the reversed history. *)
Definition predicted_position (t : RobustTrack) : point :=
  match is_resting t, rest_zone_center t with
  | true, Some c => c
  | _, _ =>
      match rev (positions t) with
      | p1 :: p2 :: _ => (p1.1 + (p1.1 - p2.1), p1.2 + (p1.2 - p2.2))%R
      | [p1] => p1
      | [] => (0, 0)%R
      end
  end.

Definition enter_rest_mode (t : RobustTrack) : RobustTrack :=
  {| track_id := track_id t; positions := positions t; frames := frames t;
     bboxes := bboxes t; areas := areas t;
     candidate_types := candidate_types t;
     last_seen_frame := last_seen_frame t;
     frames_since_detection := frames_since_detection t;
     is_resting := true;
     rest_zone_center :=
       match last (positions t) with
       | Some p => Some p
       | None => rest_zone_center t
       end;
     rest_zone_radius := 100;
     is_valid := is_valid t |}.

Definition expand_rest_zone (t : RobustTrack) (max_radius : R) : RobustTrack :=
  {| track_id := track_id t; positions := positions t; frames := frames t;
     bboxes := bboxes t; areas := areas t;
     candidate_types := candidate_types t;
     last_seen_frame := last_seen_frame t;
     frames_since_detection := frames_since_detection t;
     is_resting := is_resting t;
     rest_zone_center := rest_zone_center t;
     rest_zone_radius := Rmin max_radius (rest_zone_radius t + 10);
     is_valid := is_valid t |}.

Definition update (t : RobustTrack) (candidate : OrganismCandidate)
    (frame : nat) : RobustTrack :=
  {| track_id := track_id t;
     positions := positions t ++ [centroid candidate];
     frames := frames t ++ [frame];
     bboxes := bboxes t ++ [bbox candidate];
     areas := areas t ++ [total_area candidate];
     candidate_types := candidate_types t ++ [candidate_type candidate];
     last_seen_frame := frame;
     frames_since_detection := 0;
     is_resting := false;
     rest_zone_center := None;
     rest_zone_radius := rest_zone_radius t;
     is_valid := is_valid t |}.

(** [track.frames_since_detection += 1]. *)
Definition tick (t : RobustTrack) : RobustTrack :=
  {| track_id := track_id t; positions := positions t; frames := frames t;
     bboxes := bboxes t; areas := areas t;
     candidate_types := candidate_types t;
     last_seen_frame := last_seen_frame t;
     frames_since_detection := S (frames_since_detection t);
     is_resting := is_resting t;
     rest_zone_center := rest_zone_center t;
     rest_zone_radius := rest_zone_radius t;
     is_valid := is_valid t |}.

(** [track.is_valid = v]. *)
Definition set_valid (t : RobustTrack) (v : bool) : RobustTrack :=
  {| track_id := track_id t; positions := positions t; frames := frames t;
     bboxes := bboxes t; areas := areas t;
     candidate_types := candidate_types t;
     last_seen_frame := last_seen_frame t;
     frames_since_detection := frames_since_detection t;
     is_resting := is_resting t;
     rest_zone_center := rest_zone_center t;
     rest_zone_radius := rest_zone_radius t;
     is_valid := v |}.

(** *** merge_blobs_into_candidates *)

(** The pairs [(d_idx, b_idx, distances[d_idx, b_idx])] within the merge
    radius, in the order of the two nested [range] loops. *)
Definition blob_pairs (dark bright : list Blob) (radius : R)
    : list (nat * nat * R) :=
  filter (λ p, p.2 <= radius)%R
    (mjoin (imap (λ d_idx d,
              imap (λ b_idx b,
                (d_idx, b_idx, euclid (blob_centroid d) (blob_centroid b)))
              bright) dark)).

Definition union_box (b1 b2 : box) : box :=
  let '(xa, ya, wa, ha) := b1 in
  let '(xb, yb, wb, hb) := b2 in
  let x1 := Z.min xa xb in
  let y1 := Z.min ya yb in
  let x2 := Z.max (xa + wa) (xb + wb) in
  let y2 := Z.max (ya + ha) (yb + hb) in
  (x1, y1, x2 - x1, y2 - y1)%Z.

(** The body of the greedy loop that builds one ['coupled'] candidate.  The
    two divisions by [total_area] raise [ZeroDivisionError] on Python floats
    when the areas sum to zero: [None]. *)
Definition coupled_candidate (frame : nat) (dark_blob bright_blob : Blob)
    : option OrganismCandidate :=
  let total := (blob_area dark_blob + blob_area bright_blob)%R in
  if decide (total = 0%R) then None
  else
    let cx := (((blob_centroid dark_blob).1 * blob_area dark_blob +
                (blob_centroid bright_blob).1 * blob_area bright_blob) / total)%R in
    let cy := (((blob_centroid dark_blob).2 * blob_area dark_blob +
                (blob_centroid bright_blob).2 * blob_area bright_blob) / total)%R in
    Some {| frame_idx := frame; centroid := (cx, cy);
            bbox := union_box (blob_bbox dark_blob) (blob_bbox bright_blob);
            total_area := total;
            dark_blobs := [dark_blob]; bright_blobs := [bright_blob];
            candidate_type := coupled |}.

Definition dark_only_candidate (frame : nat) (dark_blob : Blob)
    : OrganismCandidate :=
  {| frame_idx := frame; centroid := blob_centroid dark_blob;
     bbox := blob_bbox dark_blob; total_area := blob_area dark_blob;
     dark_blobs := [dark_blob]; bright_blobs := [];
     candidate_type := dark_only |}.

Definition bright_only_candidate (frame : nat) (bright_blob : Blob)
    : OrganismCandidate :=
  {| frame_idx := frame; centroid := blob_centroid bright_blob;
     bbox := blob_bbox bright_blob; total_area := blob_area bright_blob;
     dark_blobs := []; bright_blobs := [bright_blob];
     candidate_type := bright_only |}.

(** The state of the greedy loop: [candidates], [used_dark], [used_bright]. *)
Record MergeState := {
  candidates : list OrganismCandidate;
  used_dark : gset nat;
  used_bright : gset nat
}.

Definition merge_init : MergeState :=
  {| candidates := []; used_dark := ∅; used_bright := ∅ |}.

(** [for d_idx, b_idx, dist in pairs: ...].  A lookup out of range would be
    an [IndexError]; the indices come from [range(len(..))]. *)
Fixpoint couple_pairs (frame : nat) (dark bright : list Blob)
    (pairs : list (nat * nat * R)) (st : MergeState) : option MergeState :=
  match pairs with
  | [] => Some st
  | (d_idx, b_idx, _) :: rest =>
      if decide ((d_idx ∉ used_dark st) ∧ (b_idx ∉ used_bright st)) then
        match dark !! d_idx, bright !! b_idx with
        | Some dark_blob, Some bright_blob =>
            c ← coupled_candidate frame dark_blob bright_blob;
            couple_pairs frame dark bright rest
              {| candidates := candidates st ++ [c];
                 used_dark := {[d_idx]} ∪ used_dark st;
                 used_bright := {[b_idx]} ∪ used_bright st |}
        | _, _ => None
        end
      else couple_pairs frame dark bright rest st
  end.

(** The blobs whose index is not in [used], in input order. *)
Definition unused (used : gset nat) (blobs : list Blob) : list Blob :=
  (filter (λ ib, ib.1 ∉ used) (enumerate blobs)).*2.

Definition merge_blobs_into_candidates (dark bright : list Blob)
    (frame : nat) (params : MergeParams) : option (list OrganismCandidate) :=
  st ← match dark, bright with
       | _ :: _, _ :: _ =>
           couple_pairs frame dark bright
             (sort_by snd (blob_pairs dark bright (merge_radius params)))
             merge_init
       | _, _ => Some merge_init
       end;
  Some (candidates st
        ++ (dark_only_candidate frame <$> unused (used_dark st) dark)
        ++ (bright_only_candidate frame <$> unused (used_bright st) bright)).

(** *** match_candidates_to_tracks *)

(** The block run for a track that got no candidate on this frame (in both
    the no-candidates branch and the unmatched-tracks loop): the counter is
    incremented, and a track still within the skip budget enters or expands
    its rest zone and is appended to [updated_tracks]; [None] when it is not
    appended. *)
Definition age_unmatched (params : RobustTrackingParams) (t : RobustTrack)
    : option RobustTrack :=
  let t := tick t in
  if bool_decide (Z.of_nat (frames_since_detection t) ≤ max_skip_frames params)%Z
  then Some (if is_resting t then expand_rest_zone t (max_rest_radius params)
             else enter_rest_mode t)
  else None.

(** Entry [distances[c_idx, t_idx]] after the rest-zone adjustment: the
    [cdist] entry, halved when the track is resting around a recorded centre
    and the candidate lies within its rest zone.  Each entry is adjusted at
    most once, so the matrix is given pointwise. *)
Definition adjusted_distance (c : OrganismCandidate) (t : RobustTrack) : R :=
  let d := euclid (centroid c) (predicted_position t) in
  match is_resting t, rest_zone_center t with
  | true, Some z =>
      if bool_decide (euclid (centroid c) z <= rest_zone_radius t)%R
      then (d * 0.5)%R else d
  | _, _ => d
  end.

(** The candidate pairs [(c_idx, t_idx, distances[c_idx, t_idx])] within the
    track's cap, in the order of the two nested [range] loops. *)
Definition match_pairs (cands : list OrganismCandidate)
    (tracks : list RobustTrack) (params : RobustTrackingParams)
    : list (nat * nat * R) :=
  mjoin (imap (λ c_idx c,
           omap (λ x, x)
             (imap (λ t_idx t,
                let max_dist :=
                  if is_resting t then rest_zone_radius t
                  else max_distance params in
                let d := adjusted_distance c t in
                if bool_decide (d <= max_dist)%R then Some (c_idx, t_idx, d)
                else None)
              tracks)) cands).

(** The state of the greedy loop: the track objects (mutated in place by
    [update]), [matched_candidates] and [matched_tracks]. *)
Record MatchState := {
  ms_tracks : list RobustTrack;
  matched_candidates : gset nat;
  matched_tracks : gset nat
}.

(** [for c_idx, t_idx, dist in pairs: ...].  Both indices come from
    [range(len(..))], so the two lookups never fail. *)
Fixpoint claim_pairs (frame : nat) (cands : list OrganismCandidate)
    (pairs : list (nat * nat * R)) (st : MatchState) : MatchState :=
  match pairs with
  | [] => st
  | (c_idx, t_idx, _) :: rest =>
      if decide ((c_idx ∉ matched_candidates st) ∧ (t_idx ∉ matched_tracks st))
      then
        match ms_tracks st !! t_idx, cands !! c_idx with
        | Some track, Some candidate =>
            claim_pairs frame cands rest
              {| ms_tracks := <[t_idx := update track candidate frame]> (ms_tracks st);
                 matched_candidates := {[c_idx]} ∪ matched_candidates st;
                 matched_tracks := {[t_idx]} ∪ matched_tracks st |}
        | _, _ => claim_pairs frame cands rest st
        end
      else claim_pairs frame cands rest st
  end.

(** The greedy matching of one frame, from the tracks as they enter it. *)
Definition greedy_match (cands : list OrganismCandidate)
    (tracks : list RobustTrack) (frame : nat) (params : RobustTrackingParams)
    : MatchState :=
  claim_pairs frame cands (sort_by snd (match_pairs cands tracks params))
    {| ms_tracks := tracks; matched_candidates := ∅; matched_tracks := ∅ |}.

Section Association.

(** The order in which CPython iterates over a [set] of integers is an
    implementation detail; [for t_idx in matched_tracks] is modelled with an
    iteration order taken as a parameter. *)
Variable set_iter : gset nat → list nat.

Definition match_candidates_to_tracks (cands : list OrganismCandidate)
    (tracks : list RobustTrack) (frame : nat) (params : RobustTrackingParams)
    : list RobustTrack * list OrganismCandidate :=
  match tracks, cands with
  | [], _ => ([], cands)
  | _ :: _, [] => (omap (age_unmatched params) tracks, [])
  | _ :: _, _ :: _ =>
      let st := greedy_match cands tracks frame params in
      let unmatched_tracks :=
        omap (λ it, if decide (it.1 ∈ matched_tracks st) then None
                    else age_unmatched params it.2)
          (enumerate (ms_tracks st)) in
      let matched := omap (λ t_idx, ms_tracks st !! t_idx)
                       (set_iter (matched_tracks st)) in
      (unmatched_tracks ++ matched,
       (filter (λ ic, ic.1 ∉ matched_candidates st) (enumerate cands)).*2)
  end.

(** *** validate_track *)

Definition validate_track (t : RobustTrack) (params : RobustTrackingParams)
    : bool :=
  if bool_decide (Z.of_nat (track_length t) < min_track_length params)%Z then false
  else if bool_decide (displacement t < min_displacement params)%R then false
  else if bool_decide (avg_speed t < min_speed params)%R then false
  else if bool_decide (avg_speed t > max_speed params)%R then false
  else true.

(** *** process_video_robust

    Video decoding, the blob detectors and rendering are external: the video
    is given as the per-frame detector outputs (dark blobs, bright blobs). *)

Record TrackerState := {
  active_tracks : list RobustTrack;
  next_track_id : nat
}.

(** [for candidate in unmatched: ...] creating the new tracks. *)
Definition spawn_tracks (frame : nat) (st : TrackerState)
    (unmatched : list OrganismCandidate) : TrackerState :=
  foldl (λ st c,
           {| active_tracks :=
                active_tracks st ++ [update (new_track (next_track_id st)) c frame];
              next_track_id := S (next_track_id st) |})
        st unmatched.

(** Association for one frame: matching, then track creation. *)
Definition associate_frame (params : RobustTrackingParams) (st : TrackerState)
    (frame : nat) (cands : list OrganismCandidate) : TrackerState :=
  let '(active, unmatched) :=
    match_candidates_to_tracks cands (active_tracks st) frame params in
  spawn_tracks frame
    {| active_tracks := active; next_track_id := next_track_id st |} unmatched.

(** One iteration of the [while True] loop. *)
Definition process_frame (merge_params : MergeParams)
    (tracking_params : RobustTrackingParams) (st : TrackerState) (frame : nat)
    (blobs : list Blob * list Blob) : option TrackerState :=
  cands ← merge_blobs_into_candidates blobs.1 blobs.2 frame merge_params;
  Some (associate_frame tracking_params st frame cands).

Fixpoint process_frames (merge_params : MergeParams)
    (tracking_params : RobustTrackingParams) (frame : nat)
    (video : list (list Blob * list Blob)) (st : TrackerState)
    : option TrackerState :=
  match video with
  | [] => Some st
  | blobs :: rest =>
      st' ← process_frame merge_params tracking_params st frame blobs;
      process_frames merge_params tracking_params (S frame) rest st'
  end.

(** The validation loop after the video: every track of [active_tracks] gets
    its [is_valid] flag and is appended to [completed_tracks]. *)
Definition complete_tracks (tracking_params : RobustTrackingParams)
    (active : list RobustTrack) : list RobustTrack :=
  (λ t, set_valid t (validate_track t tracking_params)) <$> active.

(** The [completed_tracks] that [process_video_robust] writes out as
    ['tracks']. *)
Definition process_video_robust (video : list (list Blob * list Blob))
    (merge_params : MergeParams) (tracking_params : RobustTrackingParams)
    : option (list RobustTrack) :=
  st ← process_frames merge_params tracking_params 0 video
         {| active_tracks := []; next_track_id := 1 |};
  Some (complete_tracks tracking_params (active_tracks st)).

End Association.

(** *** Summary fields of a track *)

(** The [total_duration] property: last frame minus first frame plus one. *)
Definition total_duration (t : RobustTrack) : Z :=
  match frames t with
  | [] => 0
  | f0 :: _ => Z.of_nat (default f0 (last (frames t))) - Z.of_nat f0 + 1
  end.

(** ['rest_periods'] of the results: the number of consecutive entries of
    [frames] that are more than one frame apart,
    [sum(1 for i in range(1, len(frames)) if frames[i] - frames[i-1] > 1)]. *)
Definition rest_periods (t : RobustTrack) : nat :=
  length (filter (λ gap : Z, (gap > 1)%Z)
            (zip_with (λ f f', (Z.of_nat f' - Z.of_nat f)%Z)
               (frames t) (tail (frames t)))).

#[global] Instance CandidateType_eq_dec : EqDecision CandidateType.
Proof. solve_decision. Defined.

(** ['color_changes'] of the results: the number of consecutive entries of
    [candidate_types] that differ. *)
Definition color_changes (t : RobustTrack) : nat :=
  length (filter (λ ab : CandidateType * CandidateType, ab.1 ≠ ab.2)
            (zip (candidate_types t) (tail (candidate_types t)))).

(** [valid_tracks = [t for t in completed_tracks if t.is_valid]]. *)
Definition valid_tracks (completed : list RobustTrack) : list RobustTrack :=
  filter (λ t, is_valid t = true) completed.

End Robust.

(** ** unified_tracker_v2.py *)

Module Unified.

Inductive DetectionSource :=
  RTDETR_ONLY | MOTION_ONLY | BOTH_FUSED | MOTION_REINFORCED.

#[global] Instance DetectionSource_eq_dec : EqDecision DetectionSource.
Proof. solve_decision. Defined.

Record RTDETRDetection := {
  rt_frame_idx : nat;
  rt_bbox : box;
  rt_centroid : point;
  rt_confidence : R;
  rt_class_name : string
}.

Record UnifiedDetection := {
  frame_idx : nat;
  bbox : box;
  centroid : point;
  area : R;
  rtdetr_conf : R;
  motion_conf : R;
  unified_conf : R;
  source : DetectionSource;
  rtdetr_class : option string;
  motion_type : option Robust.CandidateType
}.

Record UnifiedTrack := {
  track_id : nat;
  positions : list point;
  frames : list nat;
  bboxes : list box;
  sources : list DetectionSource;
  confidences : list R;
  rtdetr_classes : list string;
  frames_since_detection : nat;
  is_resting : bool;
  rest_zone_center : option point;
  rest_zone_radius : R
}.

(** [UnifiedTrack(track_id=id)] with the dataclass defaults. *)
Definition new_track (id : nat) : UnifiedTrack :=
  {| track_id := id; positions := []; frames := []; bboxes := [];
     sources := []; confidences := []; rtdetr_classes := [];
     frames_since_detection := 0; is_resting := false;
     rest_zone_center := None; rest_zone_radius := 100 |}.

Record FusionParams := {
  iou_threshold : R;
  distance_threshold : R;
  rtdetr_weight : R;
  motion_weight : R;
  both_detected_boost : R;
  motion_only_base_conf : R
}.

Definition default_fusion_params : FusionParams :=
  {| iou_threshold := 0.3; distance_threshold := 50; rtdetr_weight := 0.7;
     motion_weight := 0.3; both_detected_boost := 1.2;
     motion_only_base_conf := 0.5 |}.

Record UnifiedTrackingParams := {
  max_distance : R;
  max_frames_without_detection : Z;
  min_track_length : Z;
  min_displacement : R;
  min_speed : R;
  max_speed : R;
  initial_rest_radius : R;
  max_rest_radius : R
}.

Definition default_tracking_params : UnifiedTrackingParams :=
  {| max_distance := 60; max_frames_without_detection := 90;
     min_track_length := 5; min_displacement := 10; min_speed := 0.1;
     max_speed := 50; initial_rest_radius := 100; max_rest_radius := 200 |}.

(** *** Track properties and methods *)

Definition track_length (t : UnifiedTrack) : nat := length (positions t).

(** The [displacement] property: the distance from the first to the last
    position. *)
Definition displacement (t : UnifiedTrack) : R :=
  match positions t with
  | p0 :: _ :: _ => euclid (default p0 (last (positions t))) p0
  | _ => 0%R
  end.

Definition avg_speed (t : UnifiedTrack) : R :=
  if bool_decide (length (positions t) < 2) then 0%R
  else (Rsum (step_distances (positions t)) / INR (length (positions t) - 1))%R.

Definition update (t : UnifiedTrack) (detection : UnifiedDetection)
    : UnifiedTrack :=
  {| track_id := track_id t;
     positions := positions t ++ [centroid detection];
     frames := frames t ++ [frame_idx detection];
     bboxes := bboxes t ++ [bbox detection];
     sources := sources t ++ [source detection];
     confidences := confidences t ++ [unified_conf detection];
     rtdetr_classes :=
       match rtdetr_class detection with
       | Some c => if decide (c = ""%string) then rtdetr_classes t
                   else rtdetr_classes t ++ [c]
       | None => rtdetr_classes t
       end;
     frames_since_detection := 0;
     is_resting := false;
     rest_zone_center := rest_zone_center t;
     rest_zone_radius := rest_zone_radius t |}.

Definition predicted_position (t : UnifiedTrack) : point :=
  match rev (positions t) with
  | p1 :: p2 :: _ => (p1.1 + (p1.1 - p2.1), p1.2 + (p1.2 - p2.2))%R
  | [p1] => p1
  | [] => (0, 0)%R
  end.

(** [enter_rest_mode]: [self.positions[-1]] raises [IndexError] on an empty
    history: [None]. *)
Definition enter_rest_mode (t : UnifiedTrack) (initial_radius : R)
    : option UnifiedTrack :=
  p ← last (positions t);
  Some {| track_id := track_id t; positions := positions t;
          frames := frames t; bboxes := bboxes t; sources := sources t;
          confidences := confidences t; rtdetr_classes := rtdetr_classes t;
          frames_since_detection := frames_since_detection t;
          is_resting := true;
          rest_zone_center := Some p;
          rest_zone_radius := initial_radius |}.

Definition expand_rest_zone (t : UnifiedTrack) (max_radius : R) : UnifiedTrack :=
  {| track_id := track_id t; positions := positions t;
     frames := frames t; bboxes := bboxes t; sources := sources t;
     confidences := confidences t; rtdetr_classes := rtdetr_classes t;
     frames_since_detection := frames_since_detection t;
     is_resting := is_resting t;
     rest_zone_center := rest_zone_center t;
     rest_zone_radius := Rmin (rest_zone_radius t + 2) max_radius |}.

(** *** calculate_iou *)

Definition calculate_iou (bbox1 bbox2 : box) : R :=
  let '(x1, y1, w1, h1) := bbox1 in
  let '(x2, y2, w2, h2) := bbox2 in
  let xi1 := Z.max x1 x2 in
  let yi1 := Z.max y1 y2 in
  let xi2 := Z.min (x1 + w1) (x2 + w2) in
  let yi2 := Z.min (y1 + h1) (y2 + h2) in
  if bool_decide (xi2 ≤ xi1)%Z || bool_decide (yi2 ≤ yi1)%Z then 0%R
  else
    let inter_area := ((xi2 - xi1) * (yi2 - yi1))%Z in
    let union_area := (w1 * h1 + w2 * h2 - inter_area)%Z in
    if bool_decide (union_area > 0)%Z then (IZR inter_area / IZR union_area)%R
    else 0%R.

(** *** fuse_detections *)

(** [iou] and [dist] of the inner loop. *)
Definition pair_iou (det : RTDETRDetection) (m : Robust.OrganismCandidate) : R :=
  calculate_iou (rt_bbox det) (Robust.bbox m).

Definition pair_dist (det : RTDETRDetection) (m : Robust.OrganismCandidate) : R :=
  euclid (rt_centroid det) (Robust.centroid m).

(** The test [iou >= params.iou_threshold or dist <= params.distance_threshold]. *)
Definition eligible (params : FusionParams) (det : RTDETRDetection)
    (m : Robust.OrganismCandidate) : bool :=
  bool_decide (pair_iou det m >= iou_threshold params)%R
  || bool_decide (pair_dist det m <= distance_threshold params)%R.

(** [score = iou * 0.7 + max(0, 1 - dist/params.distance_threshold) * 0.3].
    [dist] is a numpy float, so that dividing it by a [distance_threshold]
    of 0 raises nothing: the quotient is [inf], or [nan] when [dist] is 0
    too, and [max(0, ..)] returns its first argument 0 on [1 - inf] as on
    [nan].  The distance term of the score is 0 in that case. *)
Definition match_score (params : FusionParams) (det : RTDETRDetection)
    (m : Robust.OrganismCandidate) : R :=
  (pair_iou det m * 0.7
   + (if decide (distance_threshold params = 0%R) then 0
      else Rmax 0 (1 - pair_dist det m / distance_threshold params)) * 0.3)%R.

(** One iteration of the inner loop on [(best_match_idx, best_match_score)]. *)
Definition consider (params : FusionParams) (det : RTDETRDetection)
    (used : gset nat) (best : option nat * R)
    (im : nat * Robust.OrganismCandidate) : option nat * R :=
  if decide (im.1 ∈ used) then best
  else if eligible params det im.2 then
    if bool_decide (match_score params det im.2 > best.2)%R
    then (Some im.1, match_score params det im.2)
    else best
  else best.

(** The inner loop, from [best_match_idx = None], [best_match_score = 0]. *)
Definition best_match (params : FusionParams) (det : RTDETRDetection)
    (motion_candidates : list Robust.OrganismCandidate) (used : gset nat)
    : option nat * R :=
  foldl (consider params det used) (None, 0%R) (enumerate motion_candidates).

(** The [motion_conf = 0.7] constant. *)
Definition motion_conf_const : R := 0.7%R.

Definition box_area (b : box) : R := let '(x, y, w, h) := b in IZR (w * h).

Definition fused_detection (frame : nat) (params : FusionParams)
    (det : RTDETRDetection) (motion_cand : Robust.OrganismCandidate)
    : UnifiedDetection :=
  let conf := ((rt_confidence det * rtdetr_weight params
                + motion_conf_const * motion_weight params)
               * both_detected_boost params)%R in
  {| frame_idx := frame; bbox := rt_bbox det; centroid := rt_centroid det;
     area := box_area (rt_bbox det);
     rtdetr_conf := rt_confidence det; motion_conf := motion_conf_const;
     unified_conf := Rmin conf 1;
     source := BOTH_FUSED;
     rtdetr_class := Some (rt_class_name det);
     motion_type := Some (Robust.candidate_type motion_cand) |}.

Definition rtdetr_only_detection (frame : nat) (params : FusionParams)
    (det : RTDETRDetection) : UnifiedDetection :=
  {| frame_idx := frame; bbox := rt_bbox det; centroid := rt_centroid det;
     area := box_area (rt_bbox det);
     rtdetr_conf := rt_confidence det; motion_conf := 0;
     unified_conf := (rt_confidence det * rtdetr_weight params)%R;
     source := RTDETR_ONLY;
     rtdetr_class := Some (rt_class_name det);
     motion_type := None |}.

Definition motion_only_detection (frame : nat) (params : FusionParams)
    (motion_cand : Robust.OrganismCandidate) : UnifiedDetection :=
  {| frame_idx := frame; bbox := Robust.bbox motion_cand;
     centroid := Robust.centroid motion_cand;
     area := Robust.total_area motion_cand;
     rtdetr_conf := 0; motion_conf := motion_conf_const;
     unified_conf := (motion_only_base_conf params * motion_conf_const)%R;
     source := MOTION_ONLY;
     rtdetr_class := None;
     motion_type := Some (Robust.candidate_type motion_cand) |}.

(** The state of the outer loop: [unified] and [used_motion_indices]. *)
Record FuseState := {
  unified : list UnifiedDetection;
  used_motion_indices : gset nat
}.

(** The body of [for rtdetr_det in rtdetr_detections].  The index found by
    the inner loop comes from [enumerate(motion_candidates)], so the lookup
    [motion_candidates[best_match_idx]] never fails. *)
Definition fuse_one (frame : nat) (params : FusionParams)
    (motion_candidates : list Robust.OrganismCandidate)
    (st : FuseState) (det : RTDETRDetection) : FuseState :=
  match (best_match params det motion_candidates (used_motion_indices st)).1 with
  | Some idx =>
      match motion_candidates !! idx with
      | Some motion_cand =>
          {| unified := unified st ++ [fused_detection frame params det motion_cand];
             used_motion_indices := {[idx]} ∪ used_motion_indices st |}
      | None => st
      end
  | None =>
      {| unified := unified st ++ [rtdetr_only_detection frame params det];
         used_motion_indices := used_motion_indices st |}
  end.

(** The outer loop over the appearance detections. *)
Definition fuse_loop (frame : nat) (params : FusionParams)
    (rtdetr_detections : list RTDETRDetection)
    (motion_candidates : list Robust.OrganismCandidate) : FuseState :=
  foldl (fuse_one frame params motion_candidates)
    {| unified := []; used_motion_indices := ∅ |} rtdetr_detections.

(** The motion candidates never consumed, in input order. *)
Definition unconsumed (used : gset nat)
    (motion_candidates : list Robust.OrganismCandidate)
    : list Robust.OrganismCandidate :=
  (filter (λ im, im.1 ∉ used) (enumerate motion_candidates)).*2.

Definition fuse_detections (rtdetr_detections : list RTDETRDetection)
    (motion_candidates : list Robust.OrganismCandidate) (frame : nat)
    (params : FusionParams) : list UnifiedDetection :=
  let st := fuse_loop frame params rtdetr_detections motion_candidates in
  unified st
  ++ (motion_only_detection frame params
        <$> unconsumed (used_motion_indices st) motion_candidates).

(** *** UnifiedTrackerV2.finalize *)

(** The nested tests of [finalize]. *)
Definition passes_validation (params : UnifiedTrackingParams)
    (t : UnifiedTrack) : bool :=
  if bool_decide (Z.of_nat (track_length t) >= min_track_length params)%Z then
    if bool_decide (displacement t >= min_displacement params)%R then
      bool_decide (min_speed params <= avg_speed t)%R
      && bool_decide (avg_speed t <= max_speed params)%R
    else false
  else false.

(** [finalize] on the tracker's [active_tracks] and [completed_tracks]: the
    returned [valid_tracks]. *)
Definition finalize (params : UnifiedTrackingParams)
    (active_tracks completed_tracks : list UnifiedTrack) : list UnifiedTrack :=
  filter (λ t, passes_validation params t = true)
    (active_tracks ++ completed_tracks).

(** *** Track summaries *)

(** [get_track_quality]. *)
Definition get_track_quality (t : UnifiedTrack) : string :=
  let fused_count := length (filter (λ s, s = BOTH_FUSED) (sources t)) in
  let fused_ratio :=
    match sources t with
    | [] => 0%R
    | _ :: _ => (INR fused_count / INR (length (sources t)))%R
    end in
  if bool_decide (fused_ratio > 0.5)%R then "HIGH"
  else if bool_decide (fused_ratio > 0.2)%R
          || bool_decide (BOTH_FUSED ∈ sources t)
  then "MEDIUM"
  else "LOW".

(** The keys of [Counter(classes)], in the order of their first occurrence,
    [seen] being the keys met so far. *)
Fixpoint counter_keys (seen classes : list string) : list string :=
  match classes with
  | [] => []
  | c :: rest =>
      if decide (c ∈ seen) then counter_keys seen rest
      else c :: counter_keys (seen ++ [c]) rest
  end.

(** [most_likely_class]: [Counter(..).most_common(1)[0][0]], the first key
    of the counter, in insertion order, whose count is maximal. *)
Definition most_likely_class (t : UnifiedTrack) : option string :=
  let count c := length (filter (λ c', c' = c) (rtdetr_classes t)) in
  match counter_keys [] (rtdetr_classes t) with
  | [] => None
  | k :: keys =>
      Some (foldl (λ best c, if decide (count best < count c) then c else best)
              k keys)
  end.

(** *** match_detections_to_tracks *)

(** The block run for a track that got no detection: [None] is the
    [IndexError] of [enter_rest_mode] on an empty history, [Some None] a
    track that is not appended to [updated_tracks]. *)
Definition age_unmatched (params : UnifiedTrackingParams) (t : UnifiedTrack)
    : option (option UnifiedTrack) :=
  let t :=
    {| track_id := track_id t; positions := positions t;
       frames := frames t; bboxes := bboxes t; sources := sources t;
       confidences := confidences t; rtdetr_classes := rtdetr_classes t;
       frames_since_detection := S (frames_since_detection t);
       is_resting := is_resting t;
       rest_zone_center := rest_zone_center t;
       rest_zone_radius := rest_zone_radius t |} in
  if bool_decide (Z.of_nat (frames_since_detection t)
                  ≤ max_frames_without_detection params)%Z
  then
    if is_resting t then Some (Some (expand_rest_zone t (max_rest_radius params)))
    else t' ← enter_rest_mode t (initial_rest_radius params); Some (Some t')
  else Some None.

(** The key of [sorted(detections, key=...)]. *)
Definition source_priority (s : DetectionSource) : nat :=
  match s with
  | BOTH_FUSED => 0
  | RTDETR_ONLY => 1
  | MOTION_REINFORCED => 2
  | MOTION_ONLY => 3
  end.

(** Entry [distances[d_idx, t_idx]] after the adjustment for resting
    tracks. *)
Definition adjusted_distance (d : UnifiedDetection) (t : UnifiedTrack) : R :=
  let dist := euclid (centroid d) (predicted_position t) in
  match is_resting t, rest_zone_center t with
  | true, Some z =>
      if bool_decide (euclid (centroid d) z <= rest_zone_radius t)%R
      then (dist * 0.5)%R else dist
  | _, _ => dist
  end.

Definition match_pairs (detections_sorted : list UnifiedDetection)
    (tracks : list UnifiedTrack) (params : UnifiedTrackingParams)
    : list (nat * nat * R) :=
  mjoin (imap (λ d_idx d,
           omap (λ x, x)
             (imap (λ t_idx t,
                let max_dist :=
                  if is_resting t then rest_zone_radius t
                  else max_distance params in
                let dist := adjusted_distance d t in
                if bool_decide (dist <= max_dist)%R
                then Some (d_idx, t_idx, dist) else None)
              tracks)) detections_sorted).

(** The state of the greedy loop: the track objects, [matched_detections]
    and [matched_tracks]. *)
Record MatchState := {
  ms_tracks : list UnifiedTrack;
  matched_detections : gset nat;
  matched_tracks : gset nat
}.

Fixpoint claim_pairs (detections_sorted : list UnifiedDetection)
    (pairs : list (nat * nat * R)) (st : MatchState) : MatchState :=
  match pairs with
  | [] => st
  | (d_idx, t_idx, _) :: rest =>
      if decide ((d_idx ∉ matched_detections st) ∧ (t_idx ∉ matched_tracks st))
      then
        match ms_tracks st !! t_idx, detections_sorted !! d_idx with
        | Some track, Some detection =>
            claim_pairs detections_sorted rest
              {| ms_tracks := <[t_idx := update track detection]> (ms_tracks st);
                 matched_detections := {[d_idx]} ∪ matched_detections st;
                 matched_tracks := {[t_idx]} ∪ matched_tracks st |}
        | _, _ => claim_pairs detections_sorted rest st
        end
      else claim_pairs detections_sorted rest st
  end.

(** [updated_tracks]: the tracks in their order, the unmatched ones aged
    and kept while within the budget. *)
Fixpoint collect_tracks (params : UnifiedTrackingParams)
    (matched : gset nat) (tracks : list (nat * UnifiedTrack))
    : option (list UnifiedTrack) :=
  match tracks with
  | [] => Some []
  | (t_idx, track) :: rest =>
      if decide (t_idx ∈ matched) then
        updated ← collect_tracks params matched rest; Some (track :: updated)
      else
        aged ← age_unmatched params track;
        updated ← collect_tracks params matched rest;
        Some (match aged with
              | Some track' => track' :: updated
              | None => updated
              end)
  end.

(** [None] when a track without history has to enter rest mode
    ([IndexError]). *)
Definition match_detections_to_tracks (detections : list UnifiedDetection)
    (tracks : list UnifiedTrack) (params : UnifiedTrackingParams)
    : option (list UnifiedTrack * list UnifiedDetection) :=
  match tracks, detections with
  | [], _ => Some ([], detections)
  | _ :: _, [] =>
      updated ← collect_tracks params ∅ (enumerate tracks);
      Some (updated, [])
  | _ :: _, _ :: _ =>
      let detections_sorted :=
        sort_by (λ d, INR (source_priority (source d))) detections in
      let st :=
        claim_pairs detections_sorted
          (sort_by snd (match_pairs detections_sorted tracks params))
          {| ms_tracks := tracks; matched_detections := ∅;
             matched_tracks := ∅ |} in
      updated ← collect_tracks params (matched_tracks st)
                  (enumerate (ms_tracks st));
      Some (updated,
            (filter (λ id, id.1 ∉ matched_detections st)
               (enumerate detections_sorted)).*2)
  end.

(** *** UnifiedTrackerV2.process_frame *)

Record TrackerState := {
  active_tracks : list UnifiedTrack;
  completed_tracks : list UnifiedTrack;
  next_track_id : nat
}.

(** The tracker as [__init__] leaves it. *)
Definition initial_tracker : TrackerState :=
  {| active_tracks := []; completed_tracks := []; next_track_id := 1 |}.

(** [for detection in unmatched: ...] creating the new tracks. *)
Definition spawn_tracks (st : TrackerState)
    (unmatched : list UnifiedDetection) : TrackerState :=
  foldl (λ st d,
           {| active_tracks :=
                active_tracks st ++ [update (new_track (next_track_id st)) d];
              completed_tracks := completed_tracks st;
              next_track_id := S (next_track_id st) |})
        st unmatched.

(** [process_frame] on the outputs of the two detectors for the frame
    (the appearance model and the blob detectors followed by the merger are
    external here). *)
Definition process_frame (fusion_params : FusionParams)
    (tracking_params : UnifiedTrackingParams) (st : TrackerState)
    (rtdetr_detections : list RTDETRDetection)
    (motion_candidates : list Robust.OrganismCandidate) (frame : nat)
    : option TrackerState :=
  let unified_detections :=
    fuse_detections rtdetr_detections motion_candidates frame fusion_params in
  matching ← match_detections_to_tracks unified_detections (active_tracks st)
               tracking_params;
  Some (spawn_tracks
          {| active_tracks := matching.1;
             completed_tracks := completed_tracks st;
             next_track_id := next_track_id st |} matching.2).

(** The main loop of [process_unified_v2]: the frames are numbered from
    [frame] on. *)
Fixpoint process_frames (fusion_params : FusionParams)
    (tracking_params : UnifiedTrackingParams) (frame : nat)
    (video : list (list RTDETRDetection * list Robust.OrganismCandidate))
    (st : TrackerState) : option TrackerState :=
  match video with
  | [] => Some st
  | dets :: rest =>
      st' ← process_frame fusion_params tracking_params st dets.1 dets.2 frame;
      process_frames fusion_params tracking_params (S frame) rest st'
  end.

End Unified.

(** ** motion_feature_extractor.py *)

Module Motion.

Inductive TrajectoryType :=
  STATIONARY | LINEAR | MEANDERING | CIRCULAR | DARTING | UNKNOWN.

Record MotionMetrics := {
  total_frames : Z;
  total_distance : R;
  displacement : R;
  mean_speed : R;
  max_speed : R;
  min_speed : R;
  speed_std : R;
  mean_acceleration : R;
  max_acceleration : R;
  acceleration_events : Z;
  mean_direction_change : R;
  max_direction_change : R;
  direction_changes : Z;
  straightness_index : R;
  rest_count : Z;
  total_rest_frames : Z;
  mean_rest_duration : R;
  burst_count : Z;
  mean_burst_speed : R;
  mean_burst_duration : R
}.

(** The five tests of [classify_trajectory], in the order of the source. *)
Definition stationary_rule (m : MotionMetrics) : Prop :=
  (mean_speed m < 1 ∧ total_distance m < 50)%R.

Definition darting_rule (m : MotionMetrics) : Prop :=
  (burst_count m >= 3 ∧ rest_count m >= 2)%Z.

Definition linear_rule (m : MotionMetrics) : Prop :=
  (straightness_index m > 0.7)%R ∧ (direction_changes m < 5)%Z.

Definition circular_rule (m : MotionMetrics) : Prop :=
  (straightness_index m < 0.3 ∧ speed_std m < mean_speed m * 0.5)%R.

Definition meandering_rule (m : MotionMetrics) : Prop :=
  (0.2 < straightness_index m ∧ straightness_index m < 0.7)%R
  ∧ (direction_changes m >= 5)%Z.

#[global] Instance stationary_rule_dec m : Decision (stationary_rule m).
Proof. unfold stationary_rule. apply _. Defined.

#[global] Instance darting_rule_dec m : Decision (darting_rule m).
Proof. unfold darting_rule. apply _. Defined.

#[global] Instance linear_rule_dec m : Decision (linear_rule m).
Proof. unfold linear_rule. apply _. Defined.

#[global] Instance circular_rule_dec m : Decision (circular_rule m).
Proof. unfold circular_rule. apply _. Defined.

#[global] Instance meandering_rule_dec m : Decision (meandering_rule m).
Proof. unfold meandering_rule. apply _. Defined.

Definition classify_trajectory (m : MotionMetrics) : TrajectoryType * R :=
  if decide (stationary_rule m) then (STATIONARY, 0.9%R)
  else if decide (darting_rule m) then (DARTING, 0.8%R)
  else if decide (linear_rule m) then (LINEAR, 0.85%R)
  else if decide (circular_rule m) then (CIRCULAR, 0.7%R)
  else if decide (meandering_rule m) then (MEANDERING, 0.75%R)
  else (UNKNOWN, 0.5%R).

(** *** Organism types and behavioural features *)

(** [OrganismType]; its member [UNKNOWN] is called [UNKNOWN_ORGANISM] here,
    [UNKNOWN] being the member of [TrajectoryType]. *)
Inductive OrganismType :=
  FISH_FAST | FISH_SLOW | CRAB | SNAIL | SHELLFISH | UNKNOWN_ORGANISM.

#[global] Instance TrajectoryType_eq_dec : EqDecision TrajectoryType.
Proof. solve_decision. Defined.

#[global] Instance OrganismType_eq_dec : EqDecision OrganismType.
Proof. solve_decision. Defined.

(** The [.value] of the two enumerations. *)
Definition trajectory_value (t : TrajectoryType) : string :=
  match t with
  | STATIONARY => "stationary"
  | LINEAR => "linear"
  | MEANDERING => "meandering"
  | CIRCULAR => "circular"
  | DARTING => "darting"
  | UNKNOWN => "unknown"
  end.

Definition organism_value (o : OrganismType) : string :=
  match o with
  | FISH_FAST => "fish_fast"
  | FISH_SLOW => "fish_slow"
  | CRAB => "crab"
  | SNAIL => "snail"
  | SHELLFISH => "shellfish"
  | UNKNOWN_ORGANISM => "unknown"
  end.

(** [MotionMetrics()] with the dataclass defaults. *)
Definition default_metrics : MotionMetrics :=
  {| total_frames := 0; total_distance := 0; displacement := 0;
     mean_speed := 0; max_speed := 0; min_speed := 0; speed_std := 0;
     mean_acceleration := 0; max_acceleration := 0; acceleration_events := 0;
     mean_direction_change := 0; max_direction_change := 0;
     direction_changes := 0; straightness_index := 0;
     rest_count := 0; total_rest_frames := 0; mean_rest_duration := 0;
     burst_count := 0; mean_burst_speed := 0; mean_burst_duration := 0 |}.

Record BehavioralFeatures := {
  trajectory_type : string;
  trajectory_confidence : R;
  inferred_organism : string;
  organism_confidence : R;
  activity_level : R;
  exploration_score : R;
  regularity_score : R;
  is_foraging : bool;
  is_fleeing : bool;
  is_resting : bool;
  is_patrolling : bool
}.

(** [BehavioralFeatures()] with the dataclass defaults. *)
Definition default_features : BehavioralFeatures :=
  {| trajectory_type := "unknown"; trajectory_confidence := 0;
     inferred_organism := "unknown"; organism_confidence := 0;
     activity_level := 0; exploration_score := 0; regularity_score := 0;
     is_foraging := false; is_fleeing := false; is_resting := false;
     is_patrolling := false |}.

Record TrackFeatures := {
  track_id : Z;
  detection_source : string;
  frame_range : Z * Z;
  centroid_history : list point;
  motion_metrics : MotionMetrics;
  behavioral_features : BehavioralFeatures;
  feature_vector : list R
}.

(** *** Geometry helpers *)

(** [math.sqrt((p2[0] - p1[0])**2 + (p2[1] - p1[1])**2)]. *)
Definition calculate_distance (p1 p2 : point) : R := euclid p2 p1.

(** [math.atan2(y, x)] on reals: the angle of the point [(x, y)], in
    [(-pi, pi]], and 0 at the origin. *)
Definition atan2 (y x : R) : R :=
  if decide (0 < x)%R then atan (y / x)
  else if decide (x < 0)%R then
    if decide (0 <= y)%R then (atan (y / x) + PI)%R
    else (atan (y / x) - PI)%R
  else if decide (0 < y)%R then (PI / 2)%R
  else if decide (y < 0)%R then (- PI / 2)%R
  else 0%R.

Definition calculate_direction (p1 p2 : point) : R :=
  atan2 (p2.2 - p1.2) (p2.1 - p1.1).

Definition angle_difference (a1 a2 : R) : R :=
  let diff := Rabs (a1 - a2) in
  if bool_decide (diff > PI)%R then (2 * PI - diff)%R else diff.

(** *** extract_motion_metrics *)

(** [np.mean] and [np.std] (the population standard deviation) of a
    non-empty list. *)
Definition np_mean (l : list R) : R := (Rsum l / INR (length l))%R.

Definition np_std (l : list R) : R :=
  sqrt (np_mean ((λ x, (x - np_mean l) ^ 2)%R <$> l)).

(** [max(..)] and [min(..)] of the non-empty list [x :: l]. *)
Definition max_of (x : R) (l : list R) : R := foldl Rmax x l.

Definition min_of (x : R) (l : list R) : R := foldl Rmin x l.

(** The loop collecting [rest_periods], started with [current_rest]. *)
Fixpoint rest_periods_from (resting : list bool) (current_rest : nat)
    : list nat :=
  match resting with
  | [] => if decide (0 < current_rest) then [current_rest] else []
  | true :: rest => rest_periods_from rest (S current_rest)
  | false :: rest =>
      if decide (0 < current_rest)
      then current_rest :: rest_periods_from rest 0
      else rest_periods_from rest current_rest
  end.

(** The loop collecting [bursts], started with [current_burst]. *)
Fixpoint bursts_from (burst_threshold : R) (speeds : list R)
    (current_burst : list R) : list (list R) :=
  match speeds with
  | [] => match current_burst with [] => [] | _ :: _ => [current_burst] end
  | s :: rest =>
      if bool_decide (s > burst_threshold)%R
      then bursts_from burst_threshold rest (current_burst ++ [s])
      else match current_burst with
           | [] => bursts_from burst_threshold rest current_burst
           | _ :: _ => current_burst :: bursts_from burst_threshold rest []
           end
  end.

(** The consecutive pairs [(positions[i-1], positions[i])]. *)
Definition moves (positions : list point) : list (point * point) :=
  zip positions (tail positions).

(** [distances], which is also [speeds] (one frame per step). *)
Definition speeds_of (positions : list point) : list R :=
  (λ m, calculate_distance m.1 m.2) <$> moves positions.

(** [directions]: only the steps longer than half a pixel have one. *)
Definition directions_of (positions : list point) : list R :=
  (λ m, calculate_direction m.1 m.2)
    <$> filter (λ m, calculate_distance m.1 m.2 > 0.5)%R (moves positions).

Definition accelerations_of (speeds : list R) : list R :=
  zip_with (λ prev cur, Rabs (cur - prev)) speeds (tail speeds).

Definition direction_changes_of (directions : list R) : list R :=
  zip_with angle_difference directions (tail directions).

Definition burst_threshold_of (mean_speed : R) : R :=
  if bool_decide (mean_speed > 0)%R then (mean_speed * 1.5)%R else 5%R.

(** The [fps] argument is not used by the source. *)
Definition extract_motion_metrics (positions : list point) : MotionMetrics :=
  if bool_decide (length positions < 2) then default_metrics
  else
    let speeds := speeds_of positions in
    let directions := directions_of positions in
    let total := Rsum speeds in
    let disp :=
      match positions with
      | p0 :: _ => calculate_distance p0 (default p0 (last positions))
      | [] => 0%R
      end in
    let mean := match speeds with [] => 0%R | _ :: _ => np_mean speeds end in
    let accelerations := accelerations_of speeds in
    let mean_acc :=
      if bool_decide (2 ≤ length speeds) then np_mean accelerations
      else 0%R in
    let changes := direction_changes_of directions in
    let rest_periods :=
      rest_periods_from ((λ s, bool_decide (s < 2)%R) <$> speeds) 0 in
    let bursts := bursts_from (burst_threshold_of mean) speeds [] in
    {| total_frames := Z.of_nat (length positions);
       total_distance := total;
       displacement := disp;
       mean_speed := mean;
       max_speed := match speeds with [] => 0%R | s :: l => max_of s l end;
       min_speed := match speeds with [] => 0%R | s :: l => min_of s l end;
       speed_std := match speeds with [] => 0%R | _ :: _ => np_std speeds end;
       mean_acceleration := mean_acc;
       max_acceleration :=
         if bool_decide (2 ≤ length speeds)
         then match accelerations with [] => 0%R | a :: l => max_of a l end
         else 0%R;
       acceleration_events :=
         if bool_decide (2 ≤ length speeds)
         then Z.of_nat (length (filter (λ a, a > 2 * mean_acc)%R accelerations))
         else 0%Z;
       mean_direction_change :=
         if bool_decide (2 ≤ length directions) then np_mean changes else 0%R;
       max_direction_change :=
         if bool_decide (2 ≤ length directions)
         then match changes with [] => 0%R | c :: l => max_of c l end
         else 0%R;
       direction_changes :=
         if bool_decide (2 ≤ length directions)
         then Z.of_nat (length (filter (λ c, c > PI / 4)%R changes))
         else 0%Z;
       straightness_index :=
         if bool_decide (total > 0)%R then Rmin 1 (disp / total) else 0%R;
       rest_count := Z.of_nat (length rest_periods);
       total_rest_frames := Z.of_nat (sum_list rest_periods);
       mean_rest_duration :=
         match rest_periods with
         | [] => 0%R
         | _ :: _ => np_mean (INR <$> rest_periods)
         end;
       burst_count := Z.of_nat (length bursts);
       mean_burst_speed :=
         match bursts with
         | [] => 0%R
         | _ :: _ => np_mean (np_mean <$> bursts)
         end;
       mean_burst_duration :=
         match bursts with
         | [] => 0%R
         | _ :: _ => np_mean ((λ b, INR (length b)) <$> bursts)
         end |}.

(** *** infer_organism_type *)

Definition infer_organism_type (m : MotionMetrics) (trajectory : TrajectoryType)
    : OrganismType * R :=
  if decide (trajectory = STATIONARY) then (SHELLFISH, 0.7%R)
  else if bool_decide (mean_speed m < 3)%R && bool_decide (rest_count m < 3)%Z
          && bool_decide (straightness_index m > 0.3)%R
  then (SNAIL, 0.65%R)
  else if bool_decide (trajectory = MEANDERING ∨ trajectory = DARTING)
          && (bool_decide (2 < mean_speed m)%R
              && bool_decide (mean_speed m < 15)%R
              && bool_decide (rest_count m >= 2)%Z)
  then (CRAB, 0.7%R)
  else if bool_decide (mean_speed m > 15)%R
          || (bool_decide (trajectory = LINEAR)
              && bool_decide (mean_speed m > 8)%R)
  then (FISH_FAST, 0.75%R)
  else if bool_decide (5 < mean_speed m)%R && bool_decide (mean_speed m < 15)%R
  then (FISH_SLOW, 0.6%R)
  else (UNKNOWN_ORGANISM, 0.4%R).

(** *** calculate_behavioral_features *)

Definition calculate_behavioral_features (m : MotionMetrics)
    (trajectory : TrajectoryType) : BehavioralFeatures :=
  let org := infer_organism_type m trajectory in
  {| trajectory_type := trajectory_value trajectory;
     trajectory_confidence := 0.7;
     inferred_organism := organism_value org.1;
     organism_confidence := org.2;
     activity_level := Rmin 1 (mean_speed m / 30);
     exploration_score := Rmin 1 (total_distance m / 1000);
     regularity_score :=
       if bool_decide (mean_speed m > 0)%R
       then Rmax 0 (1 - speed_std m / mean_speed m)
       else 0%R;
     is_foraging :=
       bool_decide (trajectory = MEANDERING)
       && bool_decide (rest_count m >= 2)%Z;
     is_fleeing :=
       bool_decide (trajectory = LINEAR) && bool_decide (mean_speed m > 15)%R;
     is_resting := bool_decide (trajectory = STATIONARY);
     is_patrolling :=
       bool_decide (trajectory = LINEAR)
       && bool_decide (direction_changes m >= 2)%Z
       && bool_decide (straightness_index m < 0.5)%R |}.

(** *** create_feature_vector *)

(** [organism_map.get(name, 0.0)]. *)
Definition organism_map (name : string) : R :=
  if decide (name = "fish_fast") then 1%R
  else if decide (name = "fish_slow") then 0.8%R
  else if decide (name = "crab") then 0.6%R
  else if decide (name = "snail") then 0.4%R
  else if decide (name = "shellfish") then 0.2%R
  else 0%R.

Definition create_feature_vector (m : MotionMetrics) (f : BehavioralFeatures)
    : list R :=
  let burst_ratio :=
    (IZR (burst_count m) / IZR (Z.max 1 (total_frames m)) * 100)%R in
  let rest_ratio :=
    (IZR (total_rest_frames m) / IZR (Z.max 1 (total_frames m)))%R in
  [ (mean_speed m / 30)%R;
    (max_speed m / 60)%R;
    (speed_std m / 15)%R;
    Rmin 1 (mean_speed m / 20);
    Rmin 1 burst_ratio;
    straightness_index m;
    Rmin 1 (IZR (direction_changes m) / 20);
    (if bool_decide (total_distance m > 0)%R
     then displacement m / total_distance m else 0)%R;
    Rmin 1 (mean_acceleration m / 10);
    regularity_score f;
    Rmin 1 (IZR (rest_count m) / 10);
    rest_ratio;
    Rmin 1 (mean_rest_duration m / 30);
    activity_level f;
    exploration_score f;
    regularity_score f;
    (if is_foraging f then 1 else 0)%R;
    organism_map (inferred_organism f);
    Rmin 1 (IZR (total_frames m) / 160);
    Rmin 1 (total_distance m / 2000) ].

(** *** MotionFeatureExtractor *)

(** [process_from_positions]. *)
Definition process_from_positions (id : Z) (positions : list point)
    (source : string) : TrackFeatures :=
  if bool_decide (length positions < 2) then
    {| track_id := id; detection_source := source;
       frame_range := (0, Z.of_nat (length positions))%Z;
       centroid_history := positions;
       motion_metrics := default_metrics;
       behavioral_features := default_features;
       feature_vector := [] |}
  else
    let m := extract_motion_metrics positions in
    let trajectory := (classify_trajectory m).1 in
    let f := calculate_behavioral_features m trajectory in
    {| track_id := id; detection_source := source;
       frame_range := (0, Z.of_nat (length positions))%Z;
       centroid_history := positions;
       motion_metrics := m;
       behavioral_features := f;
       feature_vector := create_feature_vector m f |}.

(** One entry of the ['positions'] list of a track in the results file:
    ['x'], ['y'] and, when present, ['frame']. *)
Record PositionEntry := {
  entry_x : R;
  entry_y : R;
  entry_frame : option Z
}.

(** The body of the loop of [process_unified_results] for one track:
    [None] when the track has no position and is skipped. *)
Definition process_track_data (id : Z) (source : option string)
    (positions : list PositionEntry) : option TrackFeatures :=
  match imap (λ i p, default (Z.of_nat i) (entry_frame p)) positions with
  | [] => None
  | fr :: frames =>
      let centroid_history := (λ p, (entry_x p, entry_y p)) <$> positions in
      let m := extract_motion_metrics centroid_history in
      let trajectory := (classify_trajectory m).1 in
      let f := calculate_behavioral_features m trajectory in
      Some {| track_id := id;
              detection_source := default "UNKNOWN"%string source;
              frame_range := (foldl Z.min fr frames, foldl Z.max fr frames);
              centroid_history := centroid_history;
              motion_metrics := m;
              behavioral_features := f;
              feature_vector := create_feature_vector m f |}
  end.

End Motion.

(** ** Vocabulary of the statements *)

(** The pair [p = (d_idx, b_idx, dist)] of dark blob [d_idx] and bright blob
    [b_idx], at distance [dist] within [radius], was merged into the coupled
    candidate [c]. *)
Definition coupled_from (frame : nat) (dark bright : list Robust.Blob)
    (radius : R) (p : nat * nat * R) (c : Robust.OrganismCandidate) : Prop :=
  ∃ d b,
    dark !! p.1.1 = Some d ∧ bright !! p.1.2 = Some b
    ∧ p.2 = euclid (Robust.blob_centroid d) (Robust.blob_centroid b)
    ∧ (p.2 <= radius)%R
    ∧ Robust.coupled_candidate frame d b = Some c.

(** Motion candidate [i], which is [m], can still be fused with the
    appearance detection [det]: it is not consumed and passes the test on IoU
    or distance. *)
Definition fusable (params : Unified.FusionParams)
    (det : Unified.RTDETRDetection)
    (cands : list Robust.OrganismCandidate) (used : gset nat)
    (i : nat) (m : Robust.OrganismCandidate) : Prop :=
  cands !! i = Some m ∧ (i ∉ used) ∧ Unified.eligible params det m = true.

(** Candidate [i] is the first of the fusable candidates of maximal score,
    and that score is positive. *)
Definition first_best (params : Unified.FusionParams)
    (det : Unified.RTDETRDetection)
    (cands : list Robust.OrganismCandidate) (used : gset nat)
    (i : nat) (m : Robust.OrganismCandidate) : Prop :=
  fusable params det cands used i m
  ∧ (0 < Unified.match_score params det m)%R
  ∧ ∀ j m', fusable params det cands used j m' →
      (Unified.match_score params det m' <= Unified.match_score params det m)%R
      ∧ (j < i →
         (Unified.match_score params det m'
          < Unified.match_score params det m)%R).

(** The output detection [u] stands for the appearance detection [det]: it
    has its geometry and confidence, and it is either fused or
    appearance-only at confidence [appearance_conf * w_a]. *)
Definition from_appearance (params : Unified.FusionParams)
    (det : Unified.RTDETRDetection) (u : Unified.UnifiedDetection) : Prop :=
  Unified.bbox u = Unified.rt_bbox det
  ∧ Unified.centroid u = Unified.rt_centroid det
  ∧ Unified.rtdetr_conf u = Unified.rt_confidence det
  ∧ (Unified.source u = Unified.BOTH_FUSED
     ∨ (Unified.source u = Unified.RTDETR_ONLY
        ∧ Unified.unified_conf u
          = (Unified.rt_confidence det * Unified.rtdetr_weight params)%R)).

(** The indices of the tracks matched on a frame: the set [matched_tracks]
    at the end of the greedy loop, and no track in the two branches that
    return before it. *)
Definition matched_on_frame (cands : list Robust.OrganismCandidate)
    (tracks : list Robust.RobustTrack) (frame : nat)
    (params : Robust.RobustTrackingParams) : gset nat :=
  match tracks, cands with
  | _ :: _, _ :: _ =>
      Robust.matched_tracks (Robust.greedy_match cands tracks frame params)
  | _, _ => ∅
  end.

(** The histories of a robust track are parallel arrays: one entry per
    detection in each of them. *)
Definition parallel_histories (t : Robust.RobustTrack) : Prop :=
  length (Robust.positions t) = length (Robust.frames t)
  ∧ length (Robust.bboxes t) = length (Robust.frames t)
  ∧ length (Robust.areas t) = length (Robust.frames t)
  ∧ length (Robust.candidate_types t) = length (Robust.frames t).

(** What holds of a track of the active set when the frames
    [0 .. next_frame - 1] have been processed. *)
Definition track_inv (next_frame : nat) (t : Robust.RobustTrack) : Prop :=
  parallel_histories t
  ∧ Robust.frames t ≠ []
  ∧ StronglySorted lt (Robust.frames t)
  ∧ last (Robust.frames t) = Some (Robust.last_seen_frame t)
  ∧ Robust.last_seen_frame t + Robust.frames_since_detection t + 1 = next_frame
  ∧ (Robust.is_resting t = true ↔ 1 ≤ Robust.frames_since_detection t)
  ∧ Robust.rest_zone_center t
    = (if Robust.is_resting t then last (Robust.positions t) else None).

(** The rest-zone radius of a resting track as a function of the number of
    frames it has missed. *)
Definition radius_inv (params : Robust.RobustTrackingParams)
    (t : Robust.RobustTrack) : Prop :=
  Robust.is_resting t = true →
  Robust.rest_zone_radius t
  = Rmin (Robust.max_rest_radius params)
      (100 + 10 * INR (Robust.frames_since_detection t - 1)).

(** The identifiers of the active set are distinct and below the next
    identifier to hand out. *)
Definition ids_inv (st : Robust.TrackerState) : Prop :=
  NoDup (Robust.track_id <$> Robust.active_tracks st)
  ∧ 1 ≤ Robust.next_track_id st
  ∧ Forall (λ t, 1 ≤ Robust.track_id t < Robust.next_track_id st)
      (Robust.active_tracks st).

(** The state in which [process_video_robust] starts. *)
Definition initial_state : Robust.TrackerState :=
  {| Robust.active_tracks := []; Robust.next_track_id := 1 |}.

(** How far from its predicted position a track accepts a candidate: the
    rest-zone radius when it is resting, [max_distance] otherwise. *)
Definition reach (params : Robust.RobustTrackingParams)
    (t : Robust.RobustTrack) : R :=
  if Robust.is_resting t then Robust.rest_zone_radius t
  else Robust.max_distance params.

(** What holds of a detection that [fuse_detections] returns for a
    frame. *)
Definition fused_on (frame : nat) (d : Unified.UnifiedDetection) : Prop :=
  Unified.frame_idx d = frame
  ∧ Unified.source d ≠ Unified.MOTION_REINFORCED
  ∧ (Unified.source d = Unified.MOTION_ONLY → Unified.rtdetr_class d = None).

(** What holds of a track of the unified tracker's active set when the
    frames [0 .. next_frame - 1] have been processed. *)
Definition unified_track_inv (next_frame : nat) (t : Unified.UnifiedTrack)
    : Prop :=
  Unified.frames t ≠ []
  ∧ length (Unified.positions t) = length (Unified.frames t)
  ∧ length (Unified.bboxes t) = length (Unified.frames t)
  ∧ length (Unified.sources t) = length (Unified.frames t)
  ∧ length (Unified.confidences t) = length (Unified.frames t)
  ∧ StronglySorted lt (Unified.frames t)
  ∧ (∃ f, last (Unified.frames t) = Some f
          ∧ f + Unified.frames_since_detection t + 1 = next_frame)
  ∧ (Unified.is_resting t = true ↔ 1 ≤ Unified.frames_since_detection t)
  ∧ (Unified.MOTION_REINFORCED ∉ Unified.sources t)
  ∧ length (Unified.rtdetr_classes t)
    ≤ length (filter (λ s, s ≠ Unified.MOTION_ONLY) (Unified.sources t)).

(** The rest zone of a resting track of the unified tracker as a function
    of the number of frames it has missed. *)
Definition unified_rest_zone_inv (params : Unified.UnifiedTrackingParams)
    (t : Unified.UnifiedTrack) : Prop :=
  Unified.is_resting t = true →
  Unified.rest_zone_radius t
  = Rmin (Unified.max_rest_radius params)
      (Unified.initial_rest_radius params
       + 2 * INR (Unified.frames_since_detection t - 1))
  ∧ Unified.rest_zone_center t = last (Unified.positions t).

(** ** Concrete inputs used in the examples below *)

Module Inputs.

(** A slow track on a straight line, such as the positions (0,0), (0.5,0),
    (1,0) give: two steps of half a pixel, no turn, no burst. *)
Definition slow_straight : Motion.MotionMetrics :=
  {| Motion.total_frames := 3; Motion.total_distance := 1;
     Motion.displacement := 1;
     Motion.mean_speed := 0.5; Motion.max_speed := 0.5;
     Motion.min_speed := 0.5; Motion.speed_std := 0;
     Motion.mean_acceleration := 0; Motion.max_acceleration := 0;
     Motion.acceleration_events := 0;
     Motion.mean_direction_change := 0; Motion.max_direction_change := 0;
     Motion.direction_changes := 0; Motion.straightness_index := 1;
     Motion.rest_count := 1; Motion.total_rest_frames := 2;
     Motion.mean_rest_duration := 2;
     Motion.burst_count := 0; Motion.mean_burst_speed := 0;
     Motion.mean_burst_duration := 0 |}.

(** A motion-only detection at [(x, y)]. *)
Definition seen_at (x y : R) (frame : nat) : Unified.UnifiedDetection :=
  {| Unified.frame_idx := frame; Unified.bbox := (0, 0, 10, 10)%Z;
     Unified.centroid := (x, y); Unified.area := 100;
     Unified.rtdetr_conf := 0; Unified.motion_conf := 0.7;
     Unified.unified_conf := 0.35; Unified.source := Unified.MOTION_ONLY;
     Unified.rtdetr_class := None;
     Unified.motion_type := Some Robust.dark_only |}.

(** A unified track seen at (0,0) and then at (10,0). *)
Definition walker : Unified.UnifiedTrack :=
  Unified.update (Unified.update (Unified.new_track 1) (seen_at 0 0 0))
    (seen_at 10 0 1).

(** [walker] once [enter_rest_mode] has put it to rest around (10,0). *)
Definition resting_walker : Unified.UnifiedTrack :=
  {| Unified.track_id := 1;
     Unified.positions := [(0, 0); (10, 0)]%R;
     Unified.frames := [0; 1];
     Unified.bboxes := [(0, 0, 10, 10); (0, 0, 10, 10)]%Z;
     Unified.sources := [Unified.MOTION_ONLY; Unified.MOTION_ONLY];
     Unified.confidences := [0.35; 0.35]%R;
     Unified.rtdetr_classes := [];
     Unified.frames_since_detection := 0;
     Unified.is_resting := true;
     Unified.rest_zone_center := Some (10, 0)%R;
     Unified.rest_zone_radius := 100 |}.

(** A unified track that goes back and forth between (0,0) and (10,0). *)
Definition zigzag : Unified.UnifiedTrack :=
  {| Unified.track_id := 1;
     Unified.positions := [(0, 0); (10, 0); (0, 0); (10, 0); (0, 0)]%R;
     Unified.frames := [0; 1; 2; 3; 4];
     Unified.bboxes := replicate 5 (0, 0, 10, 10)%Z;
     Unified.sources := replicate 5 Unified.MOTION_ONLY;
     Unified.confidences := replicate 5 0.35%R;
     Unified.rtdetr_classes := [];
     Unified.frames_since_detection := 0;
     Unified.is_resting := false;
     Unified.rest_zone_center := None;
     Unified.rest_zone_radius := 100 |}.

(** A dark blob of 40 pixels at [(x, y)]. *)
Definition dark_blob_at (x y : R) : Robust.Blob :=
  {| Robust.blob_centroid := (x, y); Robust.blob_bbox := (0, 0, 8, 5)%Z;
     Robust.blob_area := 40 |}.

(** A bright blob of 20 pixels at [(x, y)]. *)
Definition bright_blob_at (x y : R) : Robust.Blob :=
  {| Robust.blob_centroid := (x, y); Robust.blob_bbox := (6, 2, 5, 4)%Z;
     Robust.blob_area := 20 |}.

(** A robust track created on frame 0 from a dark blob at (5,5). *)
Definition fresh_track : Robust.RobustTrack :=
  Robust.update (Robust.new_track 1)
    (Robust.dark_only_candidate 0 (dark_blob_at 5 5)) 0.

(** The default tracking parameters with [--initial-rest-radius 150]. *)
Definition wide_rest_params : Robust.RobustTrackingParams :=
  {| Robust.max_distance := 60; Robust.max_skip_frames := 90;
     Robust.initial_rest_radius := 150; Robust.max_rest_radius := 200;
     Robust.rest_expand_rate := 10; Robust.min_track_length := 5;
     Robust.min_displacement := 10; Robust.min_speed := 0.1;
     Robust.max_speed := 30 |}.

(** An appearance detection in the box (0,0,10,10), and a motion candidate in
    the disjoint box (50,0,10,10): no overlap, centroids exactly 50 apart. *)
Definition fish_detection : Unified.RTDETRDetection :=
  {| Unified.rt_frame_idx := 0; Unified.rt_bbox := (0, 0, 10, 10)%Z;
     Unified.rt_centroid := (5, 5)%R; Unified.rt_confidence := 0.9;
     Unified.rt_class_name := "fish" |}.

Definition far_candidate : Robust.OrganismCandidate :=
  Robust.dark_only_candidate 0
    {| Robust.blob_centroid := (55, 5)%R;
       Robust.blob_bbox := (50, 0, 10, 10)%Z;
       Robust.blob_area := 100 |}.

(** The default tracking parameters with [--max-skip-frames 1]. *)
Definition impatient_params : Robust.RobustTrackingParams :=
  {| Robust.max_distance := 60; Robust.max_skip_frames := 1;
     Robust.initial_rest_radius := 100; Robust.max_rest_radius := 200;
     Robust.rest_expand_rate := 10; Robust.min_track_length := 5;
     Robust.min_displacement := 10; Robust.min_speed := 0.1;
     Robust.max_speed := 30 |}.

(** A video of four frames: a dark blob at (5,5), two frames without any
    blob, and a dark blob at (5,5) again. *)
Definition blinking_video : list (list Robust.Blob * list Robust.Blob) :=
  [ ([dark_blob_at 5 5], []); ([], []); ([], []); ([dark_blob_at 5 5], []) ].

(** [fresh_track] after two missed frames under the default parameters. *)
Definition rested_twice : Robust.RobustTrack :=
  Robust.expand_rest_zone
    (Robust.tick (Robust.enter_rest_mode (Robust.tick fresh_track))) 200.

(** The state after the first three frames of [blinking_video] under the
    default parameters. *)
Definition rested_state : Robust.TrackerState :=
  {| Robust.active_tracks := [rested_twice]; Robust.next_track_id := 2 |}.

(** The candidate coupling a dark blob at (0,0) with a bright blob at (3,4)
    on frame 7. *)
Definition coupled_pair : Robust.OrganismCandidate :=
  {| Robust.frame_idx := 7;
     Robust.centroid :=
       ((0 * 40 + 3 * 20) / (40 + 20), (0 * 40 + 4 * 20) / (40 + 20))%R;
     Robust.bbox := (0, 0, 11, 6)%Z;
     Robust.total_area := (40 + 20)%R;
     Robust.dark_blobs := [dark_blob_at 0 0];
     Robust.bright_blobs := [bright_blob_at 3 4];
     Robust.candidate_type := Robust.coupled |}.

(** Six positions on a line: steps of 10, 1, 10, 1 and 10 pixels. *)
Definition darting_walk : list point :=
  [(0, 0); (10, 0); (11, 0); (21, 0); (22, 0); (32, 0)]%R.

(** Three frames for the unified tracker: a dark blob at (5,5) that the
    appearance model does not see on frame 0, then nothing on frames 1
    and 2. *)
Definition unified_blinking_video
    : list (list Unified.RTDETRDetection * list Robust.OrganismCandidate) :=
  [([], [Robust.dark_only_candidate 0 (dark_blob_at 5 5)]); ([], []); ([], [])].

(** The unified track made of that blob. *)
Definition unified_seen_once : Unified.UnifiedTrack :=
  Unified.update (Unified.new_track 1)
    (Unified.motion_only_detection 0 Unified.default_fusion_params
       (Robust.dark_only_candidate 0 (dark_blob_at 5 5))).

(** The same track after two frames without detection. *)
Definition unified_rested_twice : Unified.UnifiedTrack :=
  default unified_seen_once
    (t ← mjoin (Unified.age_unmatched Unified.default_tracking_params
                  unified_seen_once);
     mjoin (Unified.age_unmatched Unified.default_tracking_params t)).

(** A candidate seen on frame 1 at (8,9), 5 pixels away from (5,5). *)
Definition near_candidate : Robust.OrganismCandidate :=
  Robust.dark_only_candidate 1 (dark_blob_at 8 9).

(** A second robust track, created on frame 0 from a dark blob at (8,49),
    40 pixels away from (8,9). *)
Definition second_track : Robust.RobustTrack :=
  Robust.update (Robust.new_track 2)
    (Robust.dark_only_candidate 0 (dark_blob_at 8 49)) 0.

(** A robust track with the positions of [zigzag]: back and forth between
    (0,0) and (10,0). *)
Definition robust_zigzag : Robust.RobustTrack :=
  foldl (λ t fx, Robust.update t
                   (Robust.dark_only_candidate fx.1 (dark_blob_at fx.2 0))
                   fx.1)
    (Robust.new_track 1) [(0, 0%R); (1, 10%R); (2, 0%R); (3, 10%R); (4, 0%R)].

End Inputs.

(** * Properties *)

(** ** Real arithmetic at concrete values *)

Lemma sqrt_eq (x y : R) : (0 <= y)%R → (y * y = x)%R → sqrt x = y.
Proof. intros Hy <-. by apply sqrt_square. Qed.

Lemma euclid_eq (p q : point) (d : R) :
  (0 <= d)%R → ((p.1 - q.1) ^ 2 + (p.2 - q.2) ^ 2 = d * d)%R → euclid p q = d.
Proof. intros Hd Hsq. unfold euclid. by apply sqrt_eq. Qed.

(** ** Trajectory classification *)

Section Classification.
Import Motion.

(** C9, counterexample: the stationary rule and the linear rule both hold of
    one metrics record, so the five rules are not mutually exclusive. *)
Lemma classify_rules_overlap :
  stationary_rule Inputs.slow_straight ∧ linear_rule Inputs.slow_straight.
Proof.
  unfold stationary_rule, linear_rule; simpl. repeat split; (lra || lia).
Qed.

(** The type returned is that of the first rule that holds. *)
Lemma classify_trajectory_cases (m : MotionMetrics) :
  (stationary_rule m ∧ (classify_trajectory m).1 = STATIONARY)
  ∨ (¬ stationary_rule m ∧ darting_rule m
     ∧ (classify_trajectory m).1 = DARTING)
  ∨ (¬ stationary_rule m ∧ ¬ darting_rule m ∧ linear_rule m
     ∧ (classify_trajectory m).1 = LINEAR)
  ∨ (¬ stationary_rule m ∧ ¬ darting_rule m ∧ ¬ linear_rule m
     ∧ circular_rule m ∧ (classify_trajectory m).1 = CIRCULAR)
  ∨ (¬ stationary_rule m ∧ ¬ darting_rule m ∧ ¬ linear_rule m
     ∧ ¬ circular_rule m ∧ meandering_rule m
     ∧ (classify_trajectory m).1 = MEANDERING)
  ∨ (¬ stationary_rule m ∧ ¬ darting_rule m ∧ ¬ linear_rule m
     ∧ ¬ circular_rule m ∧ ¬ meandering_rule m
     ∧ (classify_trajectory m).1 = UNKNOWN).
Proof.
  unfold classify_trajectory.
  destruct (decide (stationary_rule m)); [by left|right].
  destruct (decide (darting_rule m)); [by left|right].
  destruct (decide (linear_rule m)); [by left|right].
  destruct (decide (circular_rule m)); [by left|right].
  destruct (decide (meandering_rule m)); [by left|by right].
Qed.

(** C9, as amended: the rules are tried in the order stationary, darting,
    linear, circular, meandering and the first one that holds decides the
    type, unknown being the answer when none holds; the linear rule excludes
    the circular and the meandering rule (the other rules may overlap, and
    the order settles it). *)
Theorem classify_trajectory_first_match (m : MotionMetrics) :
  ((classify_trajectory m).1 = STATIONARY ↔ stationary_rule m)
  ∧ ((classify_trajectory m).1 = DARTING ↔
       ¬ stationary_rule m ∧ darting_rule m)
  ∧ ((classify_trajectory m).1 = LINEAR ↔
       ¬ stationary_rule m ∧ ¬ darting_rule m ∧ linear_rule m)
  ∧ ((classify_trajectory m).1 = CIRCULAR ↔
       ¬ stationary_rule m ∧ ¬ darting_rule m ∧ ¬ linear_rule m
       ∧ circular_rule m)
  ∧ ((classify_trajectory m).1 = MEANDERING ↔
       ¬ stationary_rule m ∧ ¬ darting_rule m ∧ ¬ linear_rule m
       ∧ ¬ circular_rule m ∧ meandering_rule m)
  ∧ ((classify_trajectory m).1 = UNKNOWN ↔
       ¬ stationary_rule m ∧ ¬ darting_rule m ∧ ¬ linear_rule m
       ∧ ¬ circular_rule m ∧ ¬ meandering_rule m)
  ∧ (linear_rule m → ¬ circular_rule m)
  ∧ (linear_rule m → ¬ meandering_rule m).
Proof.
  pose proof (classify_trajectory_cases m) as Hcases.
  split_and!;
    [ split; intros ?; intuition congruence ..
    | intros [? _] [? _]; lra
    | intros [? _] [[_ ?] _]; lra ].
Qed.

End Classification.

(** ** Position prediction *)

Lemma robust_prediction_resting (t : Robust.RobustTrack) (c : point) :
  Robust.is_resting t = true → Robust.rest_zone_center t = Some c →
  Robust.predicted_position t = c.
Proof. unfold Robust.predicted_position. by intros -> ->. Qed.

Lemma robust_prediction_moving (t : Robust.RobustTrack) :
  Robust.is_resting t = false ∨ Robust.rest_zone_center t = None →
  Robust.predicted_position t =
    match rev (Robust.positions t) with
    | p1 :: p2 :: _ => (p1.1 + (p1.1 - p2.1), p1.2 + (p1.2 - p2.2))%R
    | [p1] => p1
    | [] => (0, 0)%R
    end.
Proof.
  unfold Robust.predicted_position.
  intros [-> | ->]; [done|]. by destruct (Robust.is_resting t).
Qed.

Lemma rev_two_last {A} (l : list A) (p2 p1 : A) :
  rev (l ++ [p2; p1]) = p1 :: p2 :: rev l.
Proof. by rewrite rev_app_distr. Qed.

(** C3, counterexample: a unified track detected at (0,0) and (10,0) and then
    put to rest around (10,0) by [enter_rest_mode] is predicted at (20,0), by
    velocity extrapolation, and not at its rest-zone centre. *)
Lemma unified_prediction_ignores_rest_zone :
  Unified.enter_rest_mode Inputs.walker 100 = Some Inputs.resting_walker
  ∧ Unified.is_resting Inputs.resting_walker = true
  ∧ Unified.rest_zone_center Inputs.resting_walker = Some (10, 0)%R
  ∧ Unified.predicted_position Inputs.resting_walker
    = (10 + (10 - 0), 0 + (0 - 0))%R
  ∧ Unified.predicted_position Inputs.resting_walker ≠ (10, 0)%R.
Proof.
  split_and!; try reflexivity.
  unfold Unified.predicted_position; simpl. intros [= H _]. lra.
Qed.

(** C3, as amended: a robust (V5) track that is resting around a recorded
    rest-zone centre is predicted at that centre; every other robust track,
    and every unified (V2) track whether it is resting or not, is predicted
    at last + (last - second to last) when it has at least two positions, at
    its only position when it has one, and at the origin when it has none.
    Both functions are total. *)
Theorem predicted_position_cases
    (t : Robust.RobustTrack) (u : Unified.UnifiedTrack) :
  (∀ c, Robust.is_resting t = true → Robust.rest_zone_center t = Some c →
        Robust.predicted_position t = c)
  ∧ (Robust.is_resting t = false ∨ Robust.rest_zone_center t = None →
     (∀ l p2 p1, Robust.positions t = l ++ [p2; p1] →
        Robust.predicted_position t
        = (p1.1 + (p1.1 - p2.1), p1.2 + (p1.2 - p2.2))%R)
     ∧ (∀ p, Robust.positions t = [p] → Robust.predicted_position t = p)
     ∧ (Robust.positions t = [] → Robust.predicted_position t = (0, 0)%R))
  ∧ (∀ l p2 p1, Unified.positions u = l ++ [p2; p1] →
        Unified.predicted_position u
        = (p1.1 + (p1.1 - p2.1), p1.2 + (p1.2 - p2.2))%R)
  ∧ (∀ p, Unified.positions u = [p] → Unified.predicted_position u = p)
  ∧ (Unified.positions u = [] → Unified.predicted_position u = (0, 0)%R).
Proof.
  split_and!.
  - intros c. apply robust_prediction_resting.
  - intros Hmoving. rewrite (robust_prediction_moving t Hmoving).
    split_and!.
    + intros l p2 p1 ->. by rewrite rev_two_last.
    + by intros p ->.
    + by intros ->.
  - intros l p2 p1 Hp. unfold Unified.predicted_position.
    by rewrite Hp, rev_two_last.
  - intros p Hp. unfold Unified.predicted_position. by rewrite Hp.
  - intros Hp. unfold Unified.predicted_position. by rewrite Hp.
Qed.

(** ** Rest zone *)

Lemma robust_expand_radius_le (t : Robust.RobustTrack) (m : R) :
  (Robust.rest_zone_radius (Robust.expand_rest_zone t m) <= m)%R.
Proof. simpl. apply Rmin_l. Qed.

Lemma robust_expand_radius_mono (t : Robust.RobustTrack) (m : R) :
  (Robust.rest_zone_radius t <= m)%R →
  (Robust.rest_zone_radius t
   <= Robust.rest_zone_radius (Robust.expand_rest_zone t m))%R.
Proof. intros Hm. simpl. apply Rmin_glb; lra. Qed.

(** What a missed frame does to the radius of a robust track that stays in
    the active set: the constant 100 on entering rest mode, ten more pixels
    up to the maximum afterwards. *)
Lemma age_unmatched_radius (p : Robust.RobustTrackingParams)
    (t t' : Robust.RobustTrack) :
  Robust.age_unmatched p t = Some t' →
  Robust.is_resting t' = true
  ∧ Robust.frames_since_detection t' = S (Robust.frames_since_detection t)
  ∧ (Z.of_nat (Robust.frames_since_detection t') ≤ Robust.max_skip_frames p)%Z
  ∧ Robust.rest_zone_radius t' =
      (if Robust.is_resting t
       then Rmin (Robust.max_rest_radius p) (Robust.rest_zone_radius t + 10)
       else 100)%R.
Proof.
  unfold Robust.age_unmatched. case_bool_decide as Hbudget; [|done].
  intros [= <-]. simpl in *.
  destruct (Robust.is_resting t) eqn:Hrest; simpl; by rewrite ?Hrest.
Qed.

(** Two missed frames in a row: the radius does not shrink and stays within
    the maximum, provided the entry radius 100 is itself within it. *)
Lemma age_unmatched_twice (p : Robust.RobustTrackingParams)
    (t t1 t2 : Robust.RobustTrack) :
  (100 <= Robust.max_rest_radius p)%R →
  Robust.age_unmatched p t = Some t1 →
  Robust.age_unmatched p t1 = Some t2 →
  (Robust.rest_zone_radius t1 <= Robust.rest_zone_radius t2
   <= Robust.max_rest_radius p)%R
  ∧ Robust.rest_zone_radius t2
    = Rmin (Robust.max_rest_radius p) (Robust.rest_zone_radius t1 + 10).
Proof.
  intros Hmax [Hrest1 [_ [_ Hr1]]]%age_unmatched_radius
    [_ [_ [_ Hr2]]]%age_unmatched_radius.
  rewrite Hrest1 in Hr2. rewrite Hr2. split; [|done].
  assert (Robust.rest_zone_radius t1 <= Robust.max_rest_radius p)%R.
  { rewrite Hr1. destruct (Robust.is_resting t); [apply Rmin_l|done]. }
  split; [apply Rmin_glb; lra|apply Rmin_l].
Qed.

Lemma unified_enter_rest_radius (u u' : Unified.UnifiedTrack) (r : R) :
  Unified.enter_rest_mode u r = Some u' → Unified.rest_zone_radius u' = r.
Proof.
  unfold Unified.enter_rest_mode. destruct (last _); [|done].
  by intros [= <-].
Qed.

Lemma unified_expand_radius (u : Unified.UnifiedTrack) (m : R) :
  (Unified.rest_zone_radius (Unified.expand_rest_zone u m) <= m)%R
  ∧ ((Unified.rest_zone_radius u <= m)%R →
     (Unified.rest_zone_radius u
      <= Unified.rest_zone_radius (Unified.expand_rest_zone u m))%R).
Proof.
  simpl. split; [apply Rmin_r|]. intros Hm. apply Rmin_glb; lra.
Qed.

(** C4, the code at the failing input: with [initial_rest_radius = 150] a
    robust track that has just been matched and then misses a frame enters
    rest mode with radius 100, not with the configured 150. *)
Theorem robust_rest_radius_not_configured (set_iter : gset nat → list nat) :
  ∃ t,
    Robust.match_candidates_to_tracks set_iter [] [Inputs.fresh_track] 1
      Inputs.wide_rest_params = ([t], [])
    ∧ Robust.is_resting t = true
    ∧ Robust.frames_since_detection t = 1
    ∧ Robust.rest_zone_radius t = 100%R
    ∧ Robust.rest_zone_radius t
      ≠ Robust.initial_rest_radius Inputs.wide_rest_params.
Proof.
  eexists. split; [reflexivity|]. simpl. split_and!; try done. lra.
Qed.

(** ** Track validation *)

Lemma robust_displacement_chained (t : Robust.RobustTrack) :
  Robust.displacement t = Rsum (step_distances (Robust.positions t)).
Proof.
  unfold Robust.displacement. case_bool_decide as Hlen; [|done].
  destruct (Robust.positions t) as [|p [|q l]]; simpl in *; try done; lia.
Qed.

Lemma robust_validate_track_true (t : Robust.RobustTrack)
    (p : Robust.RobustTrackingParams) :
  Robust.validate_track t p = true ↔
    (Robust.min_track_length p ≤ Z.of_nat (Robust.track_length t))%Z
    ∧ (Robust.min_displacement p <= Robust.displacement t)%R
    ∧ (Robust.min_speed p <= Robust.avg_speed t <= Robust.max_speed p)%R.
Proof.
  unfold Robust.validate_track.
  repeat case_bool_decide;
    (split;
     [ try done; intros _; split_and!; (lia || lra)
     | intros (? & ? & ? & ?); try done; try lia; lra ]).
Qed.

Lemma unified_passes_validation_true (q : Unified.UnifiedTrackingParams)
    (u : Unified.UnifiedTrack) :
  Unified.passes_validation q u = true ↔
    (Unified.min_track_length q ≤ Z.of_nat (Unified.track_length u))%Z
    ∧ (Unified.min_displacement q <= Unified.displacement u)%R
    ∧ (Unified.min_speed q <= Unified.avg_speed u <= Unified.max_speed q)%R.
Proof.
  unfold Unified.passes_validation.
  repeat case_bool_decide; simpl;
    (split;
     [ try done; intros _; split_and!; (lia || lra)
     | intros (? & ? & ? & ?); try done; try lia; lra ]).
Qed.

Lemma euclid_zigzag :
  euclid (0, 0)%R (10, 0)%R = 10%R ∧ euclid (10, 0)%R (0, 0)%R = 10%R
  ∧ euclid (0, 0)%R (0, 0)%R = 0%R.
Proof. split_and!; apply euclid_eq; simpl; lra. Qed.

(** C2, counterexample: a unified track of five detections that goes back
    and forth, with chained displacement 40 and mean step speed 10, meets the
    three stated conditions under the default thresholds, yet [finalize]
    leaves it out of its result: its first-to-last distance is 0. *)
Lemma zigzag_rejected_by_finalize :
  (Unified.min_track_length Unified.default_tracking_params
   ≤ Z.of_nat (Unified.track_length Inputs.zigzag))%Z
  ∧ (Unified.min_displacement Unified.default_tracking_params
     <= Rsum (step_distances (Unified.positions Inputs.zigzag)))%R
  ∧ (Unified.min_speed Unified.default_tracking_params
     <= Rsum (step_distances (Unified.positions Inputs.zigzag))
        / INR (length (Unified.positions Inputs.zigzag) - 1)
     <= Unified.max_speed Unified.default_tracking_params)%R
  ∧ Unified.finalize Unified.default_tracking_params [Inputs.zigzag] [] = [].
Proof.
  destruct euclid_zigzag as (Hgo & Hback & Hstay).
  assert (Hsum : Rsum (step_distances (Unified.positions Inputs.zigzag)) = 40%R).
  { unfold Rsum; simpl. rewrite Hgo, Hback. lra. }
  rewrite Hsum. simpl.
  split_and!; try lra; try done.
  assert (Hfail : Unified.passes_validation Unified.default_tracking_params
                    Inputs.zigzag = false).
  { apply not_true_is_false. rewrite unified_passes_validation_true.
    intros (_ & Hnet & _). revert Hnet.
    unfold Unified.displacement; simpl. rewrite Hstay. lra. }
  unfold Unified.finalize; simpl. rewrite filter_cons_False; [done|].
  by rewrite Hfail.
Qed.

Lemma robust_avg_speed_cases (t : Robust.RobustTrack) :
  (2 ≤ length (Robust.positions t) →
   Robust.avg_speed t
   = (Robust.displacement t / INR (length (Robust.positions t) - 1))%R)
  ∧ (length (Robust.positions t) < 2 →
     Robust.avg_speed t = 0%R ∧ Robust.displacement t = 0%R).
Proof.
  unfold Robust.avg_speed, Robust.displacement.
  case_bool_decide; split; intros; try done; lia.
Qed.

Lemma unified_displacement_net (u : Unified.UnifiedTrack)
    (p0 pn : point) (l : list point) :
  Unified.positions u = p0 :: l ++ [pn] → Unified.displacement u = euclid pn p0.
Proof.
  unfold Unified.displacement. intros ->.
  change (p0 :: l ++ [pn]) with ((p0 :: l) ++ [pn]). rewrite last_snoc.
  by destruct l.
Qed.

(** C2, as amended: in the robust tracker (V5) a track is flagged valid if
    and only if its length is at least [min_track_length], its chained
    displacement is at least [min_displacement] and its mean step speed
    (that displacement over the number of steps) lies within
    [[min_speed, max_speed]]; every track of the active set at the end of the
    video is kept in the output with that flag, and a track of length 4 is
    invalid when [min_track_length = 5].  In the unified tracker (V2)
    [finalize] returns exactly the tracks that have the minimum length, a
    first-to-last distance of at least [min_displacement] and a mean step
    speed within the bounds; the other tracks are left out of its result. *)
Theorem track_validation_rules
    (t : Robust.RobustTrack) (p : Robust.RobustTrackingParams)
    (active : list Robust.RobustTrack)
    (u : Unified.UnifiedTrack) (q : Unified.UnifiedTrackingParams)
    (uactive ucompleted : list Unified.UnifiedTrack) :
  (Robust.validate_track t p = true ↔
     (Robust.min_track_length p ≤ Z.of_nat (Robust.track_length t))%Z
     ∧ (Robust.min_displacement p <= Robust.displacement t)%R
     ∧ (Robust.min_speed p <= Robust.avg_speed t <= Robust.max_speed p)%R)
  ∧ Robust.displacement t = Rsum (step_distances (Robust.positions t))
  ∧ (2 ≤ length (Robust.positions t) →
     Robust.avg_speed t
     = (Robust.displacement t / INR (length (Robust.positions t) - 1))%R)
  ∧ (length (Robust.positions t) < 2 → Robust.avg_speed t = 0%R)
  ∧ (Robust.min_track_length p = 5%Z → Robust.track_length t = 4 →
     Robust.validate_track t p = false)
  ∧ length (Robust.complete_tracks p active) = length active
  ∧ (∀ i t0, active !! i = Some t0 →
       Robust.complete_tracks p active !! i
       = Some (Robust.set_valid t0 (Robust.validate_track t0 p)))
  ∧ (u ∈ Unified.finalize q uactive ucompleted ↔
       u ∈ uactive ++ ucompleted
       ∧ (Unified.min_track_length q ≤ Z.of_nat (Unified.track_length u))%Z
       ∧ (Unified.min_displacement q <= Unified.displacement u)%R
       ∧ (Unified.min_speed q <= Unified.avg_speed u
          <= Unified.max_speed q)%R)
  ∧ (∀ p0 pn l, Unified.positions u = p0 :: l ++ [pn] →
       Unified.displacement u = euclid pn p0)
  ∧ (2 ≤ length (Unified.positions u) →
     Unified.avg_speed u
     = (Rsum (step_distances (Unified.positions u))
        / INR (length (Unified.positions u) - 1))%R).
Proof.
  split_and!.
  - apply robust_validate_track_true.
  - apply robust_displacement_chained.
  - apply robust_avg_speed_cases.
  - intros Hlen. by apply robust_avg_speed_cases.
  - intros Hmin Hlen. apply not_true_is_false.
    rewrite robust_validate_track_true. lia.
  - unfold Robust.complete_tracks. by rewrite length_fmap.
  - intros i t0 Hi. unfold Robust.complete_tracks.
    by rewrite list_lookup_fmap, Hi.
  - unfold Unified.finalize. rewrite list_elem_of_filter.
    rewrite unified_passes_validation_true. tauto.
  - intros p0 pn l. apply unified_displacement_net.
  - intros Hlen. unfold Unified.avg_speed.
    case_bool_decide; [lia|done].
Qed.

(** ** Sorting by a real key *)

Section SortBy.
Context {A : Type} (key : A → R).

Lemma insert_by_perm (x : A) (l : list A) : insert_by key x l ≡ₚ x :: l.
Proof.
  induction l as [|y l IH]; simpl; [done|].
  case_bool_decide; [done|]. rewrite IH. apply Permutation_swap.
Qed.

Lemma sort_by_perm (l : list A) : sort_by key l ≡ₚ l.
Proof.
  induction l as [|x l IH]; simpl; [done|].
  by rewrite insert_by_perm, IH.
Qed.

Lemma elem_of_sort_by (x : A) (l : list A) : x ∈ sort_by key l ↔ x ∈ l.
Proof. by rewrite sort_by_perm. Qed.

Lemma insert_by_sorted (x : A) (l : list A) :
  StronglySorted (λ a b, key a <= key b)%R l →
  StronglySorted (λ a b, key a <= key b)%R (insert_by key x l).
Proof.
  induction l as [|y l IH]; simpl; intros Hl.
  - repeat constructor.
  - apply StronglySorted_cons in Hl as [Hy Hl].
    case_bool_decide as Hxy.
    + apply StronglySorted_cons. split.
      * constructor; [done|]. eapply Forall_impl; [exact Hy|].
        simpl. intros z Hz. lra.
      * by apply StronglySorted_cons.
    + apply StronglySorted_cons. split; [|by apply IH].
      rewrite insert_by_perm. constructor; [lra|done].
Qed.

Lemma sort_by_sorted (l : list A) :
  StronglySorted (λ a b, key a <= key b)%R (sort_by key l).
Proof.
  induction l as [|x l IH]; simpl; [constructor|]. by apply insert_by_sorted.
Qed.

(** Stability: a list that is already in order is left as it is. *)
Lemma sort_by_sorted_id (l : list A) :
  StronglySorted (λ a b, key a <= key b)%R l → sort_by key l = l.
Proof.
  induction l as [|x l IH]; simpl; [done|].
  intros [Hx Hl]%StronglySorted_cons. rewrite IH by done.
  destruct l as [|y l]; simpl; [done|].
  apply Forall_cons in Hx as [Hxy _]. by rewrite bool_decide_eq_true_2.
Qed.

Lemma sublist_strongly_sorted (R' : relation A) (l k : list A) :
  l `sublist_of` k → StronglySorted R' k → StronglySorted R' l.
Proof.
  induction 1 as [|x l k Hlk IH|x l k Hlk IH]; [done| |].
  - intros [Hx Hk]%StronglySorted_cons. apply StronglySorted_cons.
    split; [|by apply IH].
    rewrite Forall_forall in Hx |- *. intros y Hy. apply Hx.
    by eapply elem_of_sublist.
  - intros [_ Hk]%StronglySorted_cons. by apply IH.
Qed.

End SortBy.

(** ** Candidate merging *)

Lemma elem_of_blob_pairs (dark bright : list Robust.Blob) (radius : R)
    (p : nat * nat * R) :
  p ∈ Robust.blob_pairs dark bright radius ↔
  ∃ d b, dark !! p.1.1 = Some d ∧ bright !! p.1.2 = Some b
         ∧ p.2 = euclid (Robust.blob_centroid d) (Robust.blob_centroid b)
         ∧ (p.2 <= radius)%R.
Proof.
  unfold Robust.blob_pairs. rewrite list_elem_of_filter, list_elem_of_join.
  split.
  - intros [Hle (l & Hp & Hl)].
    apply elem_of_lookup_imap in Hl as (i & d & -> & Hd).
    apply elem_of_lookup_imap in Hp as (j & b & -> & Hb).
    simpl in *. eauto 10.
  - intros (d & b & Hd & Hb & Hdist & Hle). split; [done|].
    destruct p as [[i j] dist]; simpl in *; subst dist.
    exists (imap (λ b_idx b0,
              (i, b_idx,
               euclid (Robust.blob_centroid d) (Robust.blob_centroid b0)))
            bright).
    split; apply elem_of_lookup_imap; [by exists j, b|by exists i, d].
Qed.

Lemma coupled_candidate_Some (frame : nat) (d b : Robust.Blob)
    (c : Robust.OrganismCandidate) :
  Robust.coupled_candidate frame d b = Some c →
  Robust.candidate_type c = Robust.coupled
  ∧ Robust.dark_blobs c = [d] ∧ Robust.bright_blobs c = [b].
Proof.
  unfold Robust.coupled_candidate. case_decide; [done|]. by intros [= <-].
Qed.

Lemma coupled_candidate_is_Some (frame : nat) (d b : Robust.Blob) :
  (Robust.blob_area d + Robust.blob_area b)%R ≠ 0%R →
  is_Some (Robust.coupled_candidate frame d b).
Proof. intros Harea. unfold Robust.coupled_candidate. by rewrite decide_False. Qed.

(** The greedy loop: the pairs it accepts, in the order it meets them. *)
Lemma couple_pairs_accepts (frame : nat) (dark bright : list Robust.Blob)
    (radius : R) (pairs : list (nat * nat * R)) (st st' : Robust.MergeState) :
  (∀ p, p ∈ pairs → p ∈ Robust.blob_pairs dark bright radius) →
  Robust.couple_pairs frame dark bright pairs st = Some st' →
  ∃ accepted cs,
    accepted `sublist_of` pairs
    ∧ Forall2 (coupled_from frame dark bright radius) accepted cs
    ∧ Robust.candidates st' = Robust.candidates st ++ cs
    ∧ Robust.used_dark st' = list_to_set accepted.*1.*1 ∪ Robust.used_dark st
    ∧ Robust.used_bright st'
      = list_to_set accepted.*1.*2 ∪ Robust.used_bright st
    ∧ NoDup accepted.*1.*1 ∧ NoDup accepted.*1.*2
    ∧ (∀ i, i ∈ accepted.*1.*1 → i ∉ Robust.used_dark st)
    ∧ (∀ j, j ∈ accepted.*1.*2 → j ∉ Robust.used_bright st).
Proof.
  revert st. induction pairs as [|[[d_idx b_idx] dist] rest IH];
    intros st Hpairs; simpl.
  - intros [= <-]. exists [], []. rewrite app_nil_r. simpl.
    split_and!; try done; try constructor; set_solver.
  - assert (Hrest : ∀ p, p ∈ rest → p ∈ Robust.blob_pairs dark bright radius)
      by (intros p Hp; apply Hpairs; by right).
    case_decide as Hfree.
    + destruct (dark !! d_idx) as [d|] eqn:Hd; [|done].
      destruct (bright !! b_idx) as [b|] eqn:Hb; [|done].
      destruct (Robust.coupled_candidate frame d b) as [c|] eqn:Hc; [|done].
      simpl. intros Hrun.
      apply IH in Hrun as (acc & cs & Hsub & Hcs & Hcands & Hud & Hub
                             & Hnd & Hnb & Hfd & Hfb); [|done].
      simpl in *.
      exists ((d_idx, b_idx, dist) :: acc), (c :: cs). simpl.
      split_and!.
      * by apply sublist_skip.
      * constructor; [|done]. exists d, b. simpl. split_and!; try done.
        -- specialize (Hpairs (d_idx, b_idx, dist)).
           rewrite elem_of_blob_pairs in Hpairs. simpl in Hpairs.
           destruct Hpairs as (d' & b' & Hd' & Hb' & -> & _); [by left|].
           congruence.
        -- specialize (Hpairs (d_idx, b_idx, dist)).
           rewrite elem_of_blob_pairs in Hpairs. simpl in Hpairs.
           destruct Hpairs as (d' & b' & _ & _ & _ & Hle); [by left|]. done.
      * by rewrite Hcands, <- app_assoc.
      * rewrite Hud. set_solver.
      * rewrite Hub. set_solver.
      * constructor; [|done]. intros Hin. apply Hfd in Hin. set_solver.
      * constructor; [|done]. intros Hin. apply Hfb in Hin. set_solver.
      * intros i [->|Hin]%elem_of_cons; [tauto|].
        apply Hfd in Hin. set_solver.
      * intros j [->|Hin]%elem_of_cons; [tauto|].
        apply Hfb in Hin. set_solver.
    + intros Hrun.
      apply IH in Hrun as (acc & cs & Hsub & Hrest'); [|done].
      exists acc, cs. split; [by apply sublist_cons|done].
Qed.

(** With positive areas no division fails and the loop runs to its end. *)
Lemma couple_pairs_is_Some (frame : nat) (dark bright : list Robust.Blob)
    (radius : R) (pairs : list (nat * nat * R)) (st : Robust.MergeState) :
  Forall (λ b, 0 < Robust.blob_area b)%R (dark ++ bright) →
  (∀ p, p ∈ pairs → p ∈ Robust.blob_pairs dark bright radius) →
  is_Some (Robust.couple_pairs frame dark bright pairs st).
Proof.
  intros Hpos. rewrite Forall_app, !Forall_forall in Hpos.
  destruct Hpos as [Hdark Hbright].
  revert st. induction pairs as [|[[d_idx b_idx] dist] rest IH];
    intros st Hpairs; simpl; [done|].
  assert (Hrest : ∀ p, p ∈ rest → p ∈ Robust.blob_pairs dark bright radius)
    by (intros p Hp; apply Hpairs; by right).
  case_decide; [|by apply IH].
  specialize (Hpairs (d_idx, b_idx, dist)).
  rewrite elem_of_blob_pairs in Hpairs. simpl in Hpairs.
  destruct Hpairs as (d & b & Hd & Hb & _); [by left|].
  rewrite Hd, Hb.
  destruct (coupled_candidate_is_Some frame d b) as [c Hc].
  { apply list_elem_of_lookup_2 in Hd, Hb.
    apply Hdark in Hd. apply Hbright in Hb. lra. }
  rewrite Hc. simpl. by apply IH.
Qed.

Lemma union_box_spec (b1 b2 : box) :
  let '(xa, ya, wa, ha) := b1 in
  let '(xb, yb, wb, hb) := b2 in
  let '(x, y, w, h) := Robust.union_box b1 b2 in
  x = Z.min xa xb ∧ y = Z.min ya yb
  ∧ (x + w)%Z = Z.max (xa + wa) (xb + wb)
  ∧ (y + h)%Z = Z.max (ya + ha) (yb + hb).
Proof.
  destruct b1 as [[[xa ya] wa] ha], b2 as [[[xb yb] wb] hb]. simpl.
  split_and!; lia.
Qed.

(** C7: one dark and one bright blob within the merge radius (and of areas
    that do not sum to zero, as the centroid divides by their sum) give
    exactly one candidate, of type coupled, whose centroid is the
    area-weighted average of the two centroids and whose bounding box is the
    union box of the two boxes. *)
Theorem merge_one_dark_one_bright (d b : Robust.Blob) (frame : nat)
    (params : Robust.MergeParams) :
  (euclid (Robust.blob_centroid d) (Robust.blob_centroid b)
   <= Robust.merge_radius params)%R →
  (Robust.blob_area d + Robust.blob_area b)%R ≠ 0%R →
  Robust.merge_blobs_into_candidates [d] [b] frame params =
    Some [ {| Robust.frame_idx := frame;
              Robust.centroid :=
                (((Robust.blob_centroid d).1 * Robust.blob_area d
                  + (Robust.blob_centroid b).1 * Robust.blob_area b)
                 / (Robust.blob_area d + Robust.blob_area b),
                 ((Robust.blob_centroid d).2 * Robust.blob_area d
                  + (Robust.blob_centroid b).2 * Robust.blob_area b)
                 / (Robust.blob_area d + Robust.blob_area b))%R;
              Robust.bbox :=
                Robust.union_box (Robust.blob_bbox d) (Robust.blob_bbox b);
              Robust.total_area := (Robust.blob_area d + Robust.blob_area b)%R;
              Robust.dark_blobs := [d]; Robust.bright_blobs := [b];
              Robust.candidate_type := Robust.coupled |} ]
  ∧ (let '(xd, yd, wd, hd) := Robust.blob_bbox d in
     let '(xb, yb, wb, hb) := Robust.blob_bbox b in
     let '(x, y, w, h) :=
       Robust.union_box (Robust.blob_bbox d) (Robust.blob_bbox b) in
     x = Z.min xd xb ∧ y = Z.min yd yb
     ∧ (x + w)%Z = Z.max (xd + wd) (xb + wb)
     ∧ (y + h)%Z = Z.max (yd + hd) (yb + hb)).
Proof.
  intros Hnear Harea. split; [|apply union_box_spec].
  unfold Robust.merge_blobs_into_candidates, Robust.blob_pairs. simpl.
  rewrite filter_cons, decide_True by done. simpl.
  rewrite decide_True by set_solver. simpl.
  unfold Robust.coupled_candidate. rewrite decide_False by done. simpl.
  unfold Robust.unused, enumerate. simpl.
  rewrite !filter_cons, !decide_False by set_solver. done.
Qed.

(** C7, witness: a dark blob at (0,0) and a bright blob at (3,4), 5 apart. *)
Lemma merge_one_dark_one_bright_witness :
  Robust.merge_blobs_into_candidates
    [Inputs.dark_blob_at 0 0] [Inputs.bright_blob_at 3 4] 7
    Robust.default_merge_params =
    Some [ {| Robust.frame_idx := 7;
              Robust.centroid :=
                ((0 * 40 + 3 * 20) / (40 + 20),
                 (0 * 40 + 4 * 20) / (40 + 20))%R;
              Robust.bbox := (0, 0, 11, 6)%Z;
              Robust.total_area := (40 + 20)%R;
              Robust.dark_blobs := [Inputs.dark_blob_at 0 0];
              Robust.bright_blobs := [Inputs.bright_blob_at 3 4];
              Robust.candidate_type := Robust.coupled |} ].
Proof.
  apply (merge_one_dark_one_bright (Inputs.dark_blob_at 0 0)
           (Inputs.bright_blob_at 3 4) 7 Robust.default_merge_params).
  - simpl. rewrite (euclid_eq _ _ 5) by (simpl; lra). lra.
  - simpl. lra.
Defined.

Lemma merge_state_of_pairs (dark bright : list Robust.Blob) (frame : nat)
    (params : Robust.MergeParams) (st : Robust.MergeState) :
  match dark, bright with
  | _ :: _, _ :: _ =>
      Robust.couple_pairs frame dark bright
        (sort_by snd (Robust.blob_pairs dark bright (Robust.merge_radius params)))
        Robust.merge_init
  | _, _ => Some Robust.merge_init
  end = Some st →
  ∃ accepted,
    Forall2 (coupled_from frame dark bright (Robust.merge_radius params))
      accepted (Robust.candidates st)
    ∧ StronglySorted (λ p q, p.2 <= q.2)%R accepted
    ∧ NoDup accepted.*1.*1 ∧ NoDup accepted.*1.*2
    ∧ Robust.used_dark st = list_to_set accepted.*1.*1
    ∧ Robust.used_bright st = list_to_set accepted.*1.*2.
Proof.
  intros Hst.
  assert (Hloop : Robust.couple_pairs frame dark bright
            (sort_by snd
               (Robust.blob_pairs dark bright (Robust.merge_radius params)))
            Robust.merge_init = Some st
          ∨ st = Robust.merge_init).
  { destruct dark, bright; simplify_eq; auto. }
  destruct Hloop as [Hloop | ->].
  - eapply couple_pairs_accepts in Hloop
      as (acc & cs & Hsub & Hcs & Hcands & Hud & Hub & Hnd & Hnb & _).
    2:{ intros p. by rewrite elem_of_sort_by. }
    exists acc. simpl in *. subst cs.
    rewrite Hud, Hub, !(right_id_L ∅ (∪)).
    split_and!; try done.
    eapply sublist_strongly_sorted; [done|]. apply sort_by_sorted.
  - exists []. simpl. split_and!; try done; constructor.
Qed.

(** C10: every candidate of the merger holds at most one dark and at most one
    bright blob and is of type dark_only, bright_only or coupled; the output
    lists the coupled candidates first, in ascending order of the distance of
    their pair, each blob being in at most one pair, then the unpaired dark
    blobs in input order as dark_only, then the unpaired bright blobs in
    input order as bright_only.  The merger returns such a list whenever the
    blob areas are positive. *)
Theorem merge_candidates_shape (dark bright : list Robust.Blob) (frame : nat)
    (params : Robust.MergeParams) :
  (∀ out,
     Robust.merge_blobs_into_candidates dark bright frame params = Some out →
     ∃ accepted cs,
       out = cs
             ++ (Robust.dark_only_candidate frame
                   <$> Robust.unused (list_to_set accepted.*1.*1) dark)
             ++ (Robust.bright_only_candidate frame
                   <$> Robust.unused (list_to_set accepted.*1.*2) bright)
       ∧ Forall2 (coupled_from frame dark bright (Robust.merge_radius params))
           accepted cs
       ∧ Forall (λ c, Robust.candidate_type c = Robust.coupled) cs
       ∧ StronglySorted (λ p q, p.2 <= q.2)%R accepted
       ∧ NoDup accepted.*1.*1 ∧ NoDup accepted.*1.*2
       ∧ Forall (λ c, length (Robust.dark_blobs c) ≤ 1
                      ∧ length (Robust.bright_blobs c) ≤ 1
                      ∧ (Robust.candidate_type c = Robust.dark_only
                         ∨ Robust.candidate_type c = Robust.bright_only
                         ∨ Robust.candidate_type c = Robust.coupled)) out)
  ∧ (Forall (λ b, 0 < Robust.blob_area b)%R (dark ++ bright) →
     is_Some (Robust.merge_blobs_into_candidates dark bright frame params)).
Proof.
  unfold Robust.merge_blobs_into_candidates. split.
  - intros out Hout.
    apply bind_Some in Hout as (st & Hst & [= <-]).
    apply merge_state_of_pairs in Hst
      as (acc & Hcs & Hsorted & Hnd & Hnb & -> & ->).
    exists acc, (Robust.candidates st).
    assert (Hcoupled : Forall (λ c, Robust.candidate_type c = Robust.coupled
                                    ∧ length (Robust.dark_blobs c) = 1
                                    ∧ length (Robust.bright_blobs c) = 1)
                         (Robust.candidates st)).
    { clear -Hcs. induction Hcs as [|p c acc cs Hpc _ IH]; constructor; [|done].
      destruct Hpc as (d & b & _ & _ & _ & _ & Hc).
      by apply coupled_candidate_Some in Hc as (-> & -> & ->). }
    split_and!; try done.
    + eapply Forall_impl; [exact Hcoupled|]. naive_solver.
    + rewrite !Forall_app, !Forall_fmap. split_and!.
      * eapply Forall_impl; [exact Hcoupled|]. simpl.
        intros c (-> & -> & ->). auto.
      * apply Forall_true. simpl. auto.
      * apply Forall_true. simpl. auto.
  - intros Hpos.
    assert (Hloop : is_Some
              match dark, bright with
              | _ :: _, _ :: _ =>
                  Robust.couple_pairs frame dark bright
                    (sort_by snd
                       (Robust.blob_pairs dark bright
                          (Robust.merge_radius params)))
                    Robust.merge_init
              | _, _ => Some Robust.merge_init
              end).
    { destruct dark, bright; try done.
      eapply couple_pairs_is_Some; [done|].
      intros p. by rewrite elem_of_sort_by. }
    destruct Hloop as [st ->]. done.
Qed.

(** C10, witness: two dark blobs and one bright blob of positive areas. *)
Lemma merge_candidates_shape_witness :
  is_Some (Robust.merge_blobs_into_candidates
             [Inputs.dark_blob_at 0 0; Inputs.dark_blob_at 200 0]
             [Inputs.bright_blob_at 3 4] 0 Robust.default_merge_params).
Proof.
  apply (merge_candidates_shape
           [Inputs.dark_blob_at 0 0; Inputs.dark_blob_at 200 0]
           [Inputs.bright_blob_at 3 4] 0 Robust.default_merge_params).
  repeat constructor; simpl; lra.
Defined.

(** ** Detection fusion *)

Lemma enumerate_snoc {A} (l : list A) (x : A) :
  enumerate (l ++ [x]) = enumerate l ++ [(length l, x)].
Proof.
  unfold enumerate. rewrite imap_app. simpl. by rewrite Nat.add_0_r.
Qed.

(** The inner loop: what [(best_match_idx, best_match_score)] holds at its
    end. *)
Lemma best_match_inv (params : Unified.FusionParams)
    (det : Unified.RTDETRDetection) (used : gset nat)
    (cands : list Robust.OrganismCandidate) :
  match (Unified.best_match params det cands used).1 with
  | None =>
      (Unified.best_match params det cands used).2 = 0%R
      ∧ ∀ j m', fusable params det cands used j m' →
          (Unified.match_score params det m' <= 0)%R
  | Some i =>
      ∃ m, first_best params det cands used i m
           ∧ (Unified.best_match params det cands used).2
             = Unified.match_score params det m
  end.
Proof.
  unfold Unified.best_match.
  induction cands as [|x l IH] using rev_ind; simpl.
  { split; [done|]. intros j m' (Hj & _). done. }
  rewrite enumerate_snoc, foldl_snoc.
  set (best := foldl (Unified.consider params det used) (None, 0%R)
                 (enumerate l)) in *.
  assert (Hold : ∀ j m', fusable params det (l ++ [x]) used j m' →
            fusable params det l used j m'
            ∨ (j = length l ∧ m' = x ∧ (length l ∉ used)
               ∧ Unified.eligible params det x = true)).
  { intros j m' (Hj & Hfree & Hel).
    apply lookup_snoc_Some in Hj as [[_ Hj] | [-> ->]]; [by left|by right]. }
  assert (Hext : ∀ j m', fusable params det l used j m' →
            fusable params det (l ++ [x]) used j m').
  { intros j m' (Hj & ? & ?). split; [|done]. by apply lookup_app_l_Some. }
  assert (Hlt : ∀ j m', fusable params det l used j m' → j < length l).
  { intros j m' (Hj & _). by eapply lookup_lt_Some. }
  unfold Unified.consider; simpl.
  destruct (decide (length l ∈ used)) as [Hused|Hfree].
  { destruct best.1 as [i|].
    - destruct IH as (m & (Hm & Hpos & Hmax) & Hbest).
      exists m. split; [|done]. split_and!; auto.
      intros j m' [Hj | (_ & _ & ? & _)]%Hold; [by eapply Hmax|done].
    - destruct IH as [Hbest Hmax]. split; [done|].
      intros j m' [Hj | (_ & _ & ? & _)]%Hold; [by eapply Hmax|done]. }
  destruct (Unified.eligible params det x) eqn:Hel.
  2:{ destruct best.1 as [i|].
      - destruct IH as (m & (Hm & Hpos & Hmax) & Hbest).
        exists m. split; [|done]. split_and!; auto.
        intros j m' [Hj | (_ & _ & _ & ?)]%Hold; [by eapply Hmax|done].
      - destruct IH as [Hbest Hmax]. split; [done|].
        intros j m' [Hj | (_ & _ & _ & ?)]%Hold; [by eapply Hmax|done]. }
  case_bool_decide as Hbetter; simpl.
  - exists x. split; [|done].
    assert (Hfus : fusable params det (l ++ [x]) used (length l) x).
    { split_and!; try done. by apply list_lookup_middle. }
    destruct best.1 as [i|].
    + destruct IH as (m & (Hm & Hpos & Hmax) & Hbest).
      split_and!; [done|lra|].
      intros j m' [Hj | (-> & -> & _)]%Hold.
      * destruct (Hmax j m' Hj) as [Hle _]. split; [lra|]. intros _. lra.
      * split; [lra|lia].
    + destruct IH as [Hbest Hmax].
      split_and!; [done|lra|].
      intros j m' [Hj | (-> & -> & _)]%Hold.
      * specialize (Hmax j m' Hj). split; [lra|]. intros _. lra.
      * split; [lra|lia].
  - destruct best.1 as [i|].
    + destruct IH as (m & (Hm & Hpos & Hmax) & Hbest).
      exists m. split; [|done]. split_and!; auto.
      intros j m' [Hj | (-> & -> & _)]%Hold; [by eapply Hmax|].
      split; [lra|]. intros Hji. apply Hlt in Hm. lia.
    + destruct IH as [Hbest Hmax]. split; [done|].
      intros j m' [Hj | (-> & -> & _)]%Hold; [by eapply Hmax|lra].
Qed.

Lemma first_best_unique (params : Unified.FusionParams)
    (det : Unified.RTDETRDetection) (cands : list Robust.OrganismCandidate)
    (used : gset nat) (i i' : nat) (m m' : Robust.OrganismCandidate) :
  first_best params det cands used i m →
  first_best params det cands used i' m' → i = i'.
Proof.
  intros (Hm & _ & Hmax) (Hm' & _ & Hmax').
  destruct (Hmax i' m' Hm') as [Hle Hlt].
  destruct (Hmax' i m Hm) as [Hle' Hlt'].
  destruct (lt_eq_lt_dec i i') as [[Hii | Hii] | Hii]; [|done|].
  - specialize (Hlt' Hii). lra.
  - specialize (Hlt Hii). lra.
Qed.

(** The two outcomes of the body of the outer loop. *)
Lemma fuse_one_cases (frame : nat) (params : Unified.FusionParams)
    (cands : list Robust.OrganismCandidate) (st : Unified.FuseState)
    (det : Unified.RTDETRDetection) :
  (∃ i m,
     (Unified.best_match params det cands
        (Unified.used_motion_indices st)).1 = Some i
     ∧ first_best params det cands (Unified.used_motion_indices st) i m
     ∧ Unified.fuse_one frame params cands st det =
         {| Unified.unified :=
              Unified.unified st
              ++ [Unified.fused_detection frame params det m];
            Unified.used_motion_indices :=
              {[i]} ∪ Unified.used_motion_indices st |})
  ∨ ((Unified.best_match params det cands
        (Unified.used_motion_indices st)).1 = None
     ∧ (∀ j m', fusable params det cands (Unified.used_motion_indices st) j m' →
          (Unified.match_score params det m' <= 0)%R)
     ∧ Unified.fuse_one frame params cands st det =
         {| Unified.unified :=
              Unified.unified st
              ++ [Unified.rtdetr_only_detection frame params det];
            Unified.used_motion_indices := Unified.used_motion_indices st |}).
Proof.
  pose proof (best_match_inv params det (Unified.used_motion_indices st) cands)
    as Hinv.
  unfold Unified.fuse_one.
  destruct (Unified.best_match params det cands _).1 as [i|].
  - destruct Hinv as (m & Hbest & _). left. exists i, m.
    destruct Hbest as ((Hi & ?) & ?) eqn:Hb. rewrite Hi.
    split_and!; done.
  - right. destruct Hinv as [_ Hmax]. done.
Qed.

(** C5, counterexample: under the default thresholds a motion candidate with
    no overlap whose centroid is exactly [distance_threshold] away is
    eligible and unconsumed, and being the only candidate it maximises the
    score; yet its score is 0, the inner loop keeps [best_match_idx = None],
    and the appearance detection comes out appearance-only. *)
Lemma boundary_candidate_not_fused :
  fusable Unified.default_fusion_params Inputs.fish_detection
    [Inputs.far_candidate] ∅ 0 Inputs.far_candidate
  ∧ (∀ j m', fusable Unified.default_fusion_params Inputs.fish_detection
               [Inputs.far_candidate] ∅ j m' →
       (Unified.match_score Unified.default_fusion_params
          Inputs.fish_detection m'
        <= Unified.match_score Unified.default_fusion_params
             Inputs.fish_detection Inputs.far_candidate)%R)
  ∧ Unified.fuse_detections [Inputs.fish_detection] [Inputs.far_candidate] 0
      Unified.default_fusion_params
    = [ Unified.rtdetr_only_detection 0 Unified.default_fusion_params
          Inputs.fish_detection;
        Unified.motion_only_detection 0 Unified.default_fusion_params
          Inputs.far_candidate ].
Proof.
  assert (Hiou : Unified.pair_iou Inputs.fish_detection Inputs.far_candidate
                 = 0%R) by reflexivity.
  assert (Hdist : Unified.pair_dist Inputs.fish_detection Inputs.far_candidate
                  = 50%R).
  { unfold Unified.pair_dist. apply euclid_eq; simpl; lra. }
  assert (Hel : Unified.eligible Unified.default_fusion_params
                  Inputs.fish_detection Inputs.far_candidate = true).
  { unfold Unified.eligible. rewrite Hiou, Hdist. simpl.
    rewrite (bool_decide_eq_true_2 (50 <= 50)%R) by lra.
    apply orb_true_r. }
  assert (Hscore : Unified.match_score Unified.default_fusion_params
                     Inputs.fish_detection Inputs.far_candidate = 0%R).
  { unfold Unified.match_score. rewrite Hiou, Hdist. simpl.
    rewrite decide_False by lra. rewrite Rmax_left by lra. lra. }
  split_and!.
  - split_and!; [done|set_solver|done].
  - intros j m' (Hj & _). apply list_lookup_singleton_Some in Hj as [_ <-].
    lra.
  - unfold Unified.fuse_detections, Unified.fuse_loop, Unified.fuse_one.
    unfold Unified.best_match, enumerate, Unified.consider. simpl.
    rewrite Hel, Hscore. rewrite bool_decide_eq_false_2 by lra. simpl.
    destruct (decide (0 ∈ (∅ : gset nat))) as [Hin|_]; [set_solver|]. simpl.
    unfold Unified.unconsumed, enumerate. simpl.
    rewrite filter_cons, decide_True by set_solver. done.
Qed.

(** C5, as amended: with a positive [distance_threshold], for an appearance
    detection the candidates that can be fused are the unconsumed ones with
    IoU at least [iou_threshold] or centroid distance at most
    [distance_threshold]; the one fused is the first of those of maximal
    score [0.7 * IoU + 0.3 * max(0, 1 - distance / distance_threshold)]
    provided that score is positive, and when no such candidate has a
    positive score the detection is emitted appearance-only.  The fused detection carries
    the bbox and centroid of the appearance detection and the confidence
    [min(1, (appearance_conf * w_a + 0.7 * w_m) * boost)]; the candidate
    fused was not consumed before, is consumed afterwards, and a consumed
    candidate is never chosen. *)
Theorem fusion_picks_first_best (params : Unified.FusionParams)
    (det : Unified.RTDETRDetection) (cands : list Robust.OrganismCandidate)
    (frame : nat) (st : Unified.FuseState) :
  (0 < Unified.distance_threshold params)%R →
  let used := Unified.used_motion_indices st in
  let r := (Unified.best_match params det cands used).1 in
  (∀ m, Unified.match_score params det m
        = (0.7 * Unified.pair_iou det m
           + 0.3 * Rmax 0 (1 - Unified.pair_dist det m
                               / Unified.distance_threshold params))%R)
  ∧ (∀ i, r = Some i ↔ ∃ m, first_best params det cands used i m)
  ∧ (r = None ↔
       ∀ j m', fusable params det cands used j m' →
         (Unified.match_score params det m' <= 0)%R)
  ∧ (∀ i m, first_best params det cands used i m →
       (i ∉ used)
       ∧ Unified.fuse_one frame params cands st det =
           {| Unified.unified :=
                Unified.unified st
                ++ [Unified.fused_detection frame params det m];
              Unified.used_motion_indices := {[i]} ∪ used |})
  ∧ (r = None →
       Unified.fuse_one frame params cands st det =
         {| Unified.unified :=
              Unified.unified st
              ++ [Unified.rtdetr_only_detection frame params det];
            Unified.used_motion_indices := used |})
  ∧ (∀ m, Unified.bbox (Unified.fused_detection frame params det m)
          = Unified.rt_bbox det
          ∧ Unified.centroid (Unified.fused_detection frame params det m)
            = Unified.rt_centroid det
          ∧ Unified.source (Unified.fused_detection frame params det m)
            = Unified.BOTH_FUSED
          ∧ Unified.unified_conf (Unified.fused_detection frame params det m)
            = Rmin ((Unified.rt_confidence det * Unified.rtdetr_weight params
                     + 0.7 * Unified.motion_weight params)
                    * Unified.both_detected_boost params) 1)
  ∧ (∀ i, i ∈ used → r ≠ Some i).
Proof.
  intros Hthreshold used r.
  split.
  { intros m. unfold Unified.match_score.
    rewrite decide_False by lra. lra. }
  pose proof (best_match_inv params det used cands) as Hinv.
  pose proof (fuse_one_cases frame params cands st det) as Hone.
  fold used in Hone. fold r in Hinv, Hone.
  assert (Hsome : ∀ i, r = Some i ↔ ∃ m, first_best params det cands used i m).
  { intros i. split.
    - intros Hr. rewrite Hr in Hinv. destruct Hinv as (m & Hm & _). eauto.
    - intros [m Hm]. destruct r as [i'|].
      + destruct Hinv as (m' & Hm' & _). f_equal.
        by eapply first_best_unique.
      + destruct Hinv as [_ Hmax]. destruct Hm as (Hfus & Hpos & _).
        specialize (Hmax i m Hfus). lra. }
  split_and!.
  - done.
  - split.
    + intros Hr. rewrite Hr in Hinv. by destruct Hinv.
    + intros Hmax. destruct r as [i|]; [|done].
      destruct Hinv as (m & (Hfus & Hpos & _) & _).
      specialize (Hmax i m Hfus). lra.
  - intros i m Hm. split; [by destruct Hm as ((_ & ? & _) & _)|].
    destruct Hone as [(i' & m' & Hr & Hm' & ->) | (Hr & _)].
    + assert (i' = i) as -> by by eapply first_best_unique.
      destruct Hm as ((Hi & _) & _), Hm' as ((Hi' & _) & _).
      by simplify_eq.
    + assert (r = Some i) by (apply Hsome; eauto). congruence.
  - intros Hr.
    destruct Hone as [(i' & m' & Hr' & _) | (_ & _ & ->)]; [congruence|done].
  - intros m. simpl. split_and!; done.
  - intros i Hi Hr. apply Hsome in Hr as [m ((_ & ? & _) & _)]. done.
Qed.

(** C5, witness: under the default thresholds, an appearance detection at
    (5,5) with a candidate exactly 50 pixels away and a candidate 5 pixels
    away. *)
Lemma fusion_picks_first_best_witness :
  let cands :=
    [Inputs.far_candidate;
     Robust.dark_only_candidate 0 (Inputs.dark_blob_at 8 9)] in
  let r := (Unified.best_match Unified.default_fusion_params
              Inputs.fish_detection cands ∅).1 in
  (∀ m, Unified.match_score Unified.default_fusion_params
          Inputs.fish_detection m
        = (0.7 * Unified.pair_iou Inputs.fish_detection m
           + 0.3 * Rmax 0 (1 - Unified.pair_dist Inputs.fish_detection m
                               / 50))%R)
  ∧ (∀ i, r = Some i ↔
          ∃ m, first_best Unified.default_fusion_params Inputs.fish_detection
                 cands ∅ i m)
  ∧ (r = None ↔
       ∀ j m', fusable Unified.default_fusion_params Inputs.fish_detection
                 cands ∅ j m' →
         (Unified.match_score Unified.default_fusion_params
            Inputs.fish_detection m' <= 0)%R).
Proof.
  intros cands r.
  destruct (fusion_picks_first_best Unified.default_fusion_params
              Inputs.fish_detection cands 0
              {| Unified.unified := []; Unified.used_motion_indices := ∅ |})
    as (Hscore & Hsome & Hnone & _).
  - simpl. lra.
  - split_and!; [exact Hscore|exact Hsome|exact Hnone].
Defined.

(** Counting the candidates left over by a set of consumed indices. *)
Lemma unconsumed_length_upto (used : gset nat)
    (cands : list Robust.OrganismCandidate) :
  length (Unified.unconsumed used cands)
  + size (filter (λ i, i < length cands) used) = length cands.
Proof.
  unfold Unified.unconsumed. rewrite length_fmap.
  induction cands as [|x l IH] using rev_ind; simpl.
  { replace (filter (λ i, i < 0) used) with (∅ : gset nat); [done|].
    apply set_eq. intros i. rewrite elem_of_filter. set_solver by lia. }
  rewrite enumerate_snoc, filter_app, !length_app. simpl.
  assert (Hsplit : filter (λ i, i < length l + 1) used
                   = filter (λ i, i < length l) used
                     ∪ (if decide (length l ∈ used) then {[length l]} else ∅)).
  { apply set_eq. intros i. rewrite elem_of_union, !elem_of_filter.
    destruct (decide (length l ∈ used)) as [Hin|Hout].
    - rewrite elem_of_singleton. split.
      + intros [Hlt Hi]. destruct (decide (i = length l)); [by right|].
        left. split; [lia|done].
      + intros [[Hlt Hi] | ->]; (split; [lia|done]).
    - rewrite elem_of_empty. split.
      + intros [Hlt Hi]. left. split; [|done].
        destruct (decide (i = length l)) as [->|]; [done|lia].
      + intros [[Hlt Hi] | []]. split; [lia|done]. }
  rewrite Hsplit, size_union.
  2:{ apply elem_of_disjoint. intros i. rewrite elem_of_filter.
      intros [Hlt _]. destruct (decide (length l ∈ used)).
      - rewrite elem_of_singleton. lia.
      - apply not_elem_of_empty. }
  rewrite filter_cons.
  destruct (decide (length l ∈ used)) as [Hin|Hout].
  - rewrite size_singleton, decide_False by (simpl; tauto). simpl. lia.
  - rewrite size_empty, decide_True by done. simpl. lia.
Qed.

Lemma unconsumed_length (used : gset nat)
    (cands : list Robust.OrganismCandidate) :
  (∀ i, i ∈ used → i < length cands) →
  length (Unified.unconsumed used cands) + size used = length cands.
Proof.
  intros Hused. pose proof (unconsumed_length_upto used cands) as Hupto.
  replace (filter (λ i, i < length cands) used) with used in Hupto; [done|].
  apply set_eq. intros i. rewrite elem_of_filter. naive_solver.
Qed.

(** The outer loop: one output per appearance detection, and as many fused
    ones as consumed candidates. *)
Lemma fuse_loop_inv (frame : nat) (params : Unified.FusionParams)
    (rt_dets : list Unified.RTDETRDetection)
    (cands : list Robust.OrganismCandidate) :
  let st := Unified.fuse_loop frame params rt_dets cands in
  Forall2 (from_appearance params) rt_dets (Unified.unified st)
  ∧ length (filter (λ u, Unified.source u = Unified.BOTH_FUSED)
              (Unified.unified st))
    = size (Unified.used_motion_indices st)
  ∧ (∀ i, i ∈ Unified.used_motion_indices st → i < length cands).
Proof.
  unfold Unified.fuse_loop.
  induction rt_dets as [|det l IH] using rev_ind; simpl.
  { split_and!; [constructor|done|set_solver]. }
  rewrite foldl_snoc.
  set (st := foldl (Unified.fuse_one frame params cands) _ l) in *.
  simpl in IH. destruct IH as (Hout & Hcount & Hrange).
  destruct (fuse_one_cases frame params cands st det)
    as [(i & m & _ & ((Hi & Hfree & _) & _) & ->) | (_ & _ & ->)]; simpl.
  - split_and!.
    + apply Forall2_app; [done|]. constructor; [|constructor].
      unfold from_appearance; simpl. split_and!; try done. by left.
    + rewrite filter_app, length_app, Hcount. simpl.
      rewrite size_union by set_solver. rewrite size_singleton. lia.
    + intros j [->%elem_of_singleton | Hj]%elem_of_union; [|by apply Hrange].
      by eapply lookup_lt_Some.
  - split_and!.
    + apply Forall2_app; [done|]. constructor; [|constructor].
      unfold from_appearance; simpl. split_and!; try done. by right.
    + rewrite filter_app, length_app, Hcount. simpl. lia.
    + done.
Qed.

(** C6: fusion discards neither signal.  The output is one detection per
    appearance detection, in order, each carrying that detection's geometry
    and being fused or appearance-only at confidence [appearance_conf * w_a],
    followed by one motion-only detection at confidence
    [motion_base_conf * 0.7] per motion candidate that no fusion consumed;
    there are as many fused detections as consumed candidates, and the output
    length is [|appearance| + |motion| - |fused|]. *)
Theorem fusion_keeps_both_signals (rt_dets : list Unified.RTDETRDetection)
    (cands : list Robust.OrganismCandidate) (frame : nat)
    (params : Unified.FusionParams) :
  let st := Unified.fuse_loop frame params rt_dets cands in
  let out := Unified.fuse_detections rt_dets cands frame params in
  let leftover := Unified.unconsumed (Unified.used_motion_indices st) cands in
  let fused := filter (λ u, Unified.source u = Unified.BOTH_FUSED) out in
  out = Unified.unified st
        ++ (Unified.motion_only_detection frame params <$> leftover)
  ∧ Forall2 (from_appearance params) rt_dets (Unified.unified st)
  ∧ Forall (λ u, Unified.source u = Unified.MOTION_ONLY
                 ∧ Unified.unified_conf u
                   = (Unified.motion_only_base_conf params * 0.7)%R)
      (Unified.motion_only_detection frame params <$> leftover)
  ∧ (∀ m, m ∈ leftover ↔
       ∃ i, cands !! i = Some m ∧ i ∉ Unified.used_motion_indices st)
  ∧ length leftover + size (Unified.used_motion_indices st) = length cands
  ∧ length fused = size (Unified.used_motion_indices st)
  ∧ length out + length fused = length rt_dets + length cands
  ∧ length out = length rt_dets + length cands - length fused.
Proof.
  intros st out leftover fused.
  destruct (fuse_loop_inv frame params rt_dets cands)
    as (Hout & Hcount & Hrange). fold st in Hout, Hcount, Hrange.
  pose proof (unconsumed_length _ _ Hrange) as Hleft. fold leftover in Hleft.
  assert (Hmotion : Forall (λ u, Unified.source u = Unified.MOTION_ONLY
                     ∧ Unified.unified_conf u
                       = (Unified.motion_only_base_conf params * 0.7)%R)
                    (Unified.motion_only_detection frame params <$> leftover)).
  { rewrite Forall_fmap. apply Forall_true. intros m. simpl. done. }
  assert (Hfused : length fused = size (Unified.used_motion_indices st)).
  { unfold fused, out, Unified.fuse_detections. fold st. fold leftover.
    rewrite filter_app, length_app, Hcount.
    replace (filter _ (Unified.motion_only_detection frame params <$> leftover))
      with ([] : list Unified.UnifiedDetection); [simpl; lia|].
    clear. induction leftover as [|m l IH]; simpl; [done|].
    by rewrite filter_cons_False. }
  assert (Hlen : length out + length fused = length rt_dets + length cands).
  { rewrite Hfused. unfold out, Unified.fuse_detections. fold st. fold leftover.
    rewrite length_app, length_fmap.
    apply Forall2_length in Hout. lia. }
  split_and!; try done.
  - intros m. unfold leftover, Unified.unconsumed.
    rewrite list_elem_of_fmap. split.
    + intros ([i m'] & -> & Him). apply list_elem_of_filter in Him as [Hfree Him].
      apply elem_of_lookup_imap in Him as (j & y & [= -> ->] & Hj). eauto.
    + intros (i & Hi & Hfree). exists (i, m). split; [done|].
      apply list_elem_of_filter. split; [done|].
      by apply (elem_of_lookup_imap_2 pair).
  - lia.
Qed.

(** ** Track association *)

(** The pairs offered to the greedy loop join a candidate of the frame and a
    track of the list passed in, within that track's cap: a track that is
    not in the list takes part in no distance computation, and the two
    lookups of the loop cannot fail. *)
Lemma elem_of_match_pairs (cands : list Robust.OrganismCandidate)
    (tracks : list Robust.RobustTrack) (params : Robust.RobustTrackingParams)
    (p : nat * nat * R) :
  p ∈ Robust.match_pairs cands tracks params ↔
  ∃ c t, cands !! p.1.1 = Some c ∧ tracks !! p.1.2 = Some t
         ∧ p.2 = Robust.adjusted_distance c t
         ∧ (p.2 <= if Robust.is_resting t then Robust.rest_zone_radius t
                   else Robust.max_distance params)%R.
Proof.
  unfold Robust.match_pairs. rewrite list_elem_of_join. split.
  - intros (l & Hp & Hl).
    apply elem_of_lookup_imap in Hl as (i & c & -> & Hc).
    apply list_elem_of_omap in Hp as (o & Ho & ->).
    apply elem_of_lookup_imap in Ho as (j & t & Ho & Ht).
    case_bool_decide as Hle; [|done]. simplify_eq. simpl.
    exists c, t. done.
  - intros (c & t & Hc & Ht & Hdist & Hle).
    destruct p as [[i j] dist]; simpl in *; subst dist.
    eexists. split; [|by eapply elem_of_lookup_imap_2].
    apply list_elem_of_omap. eexists. split.
    + by eapply elem_of_lookup_imap_2.
    + simpl. by rewrite bool_decide_eq_true_2.
Qed.

(** The greedy loop updates each track at most once, and only tracks it adds
    to [matched_tracks]. *)
Lemma claim_pairs_inv (frame : nat) (cands : list Robust.OrganismCandidate)
    (pairs : list (nat * nat * R)) (st : Robust.MatchState) :
  let st' := Robust.claim_pairs frame cands pairs st in
  length (Robust.ms_tracks st') = length (Robust.ms_tracks st)
  ∧ Robust.matched_tracks st ⊆ Robust.matched_tracks st'
  ∧ (∀ t_idx, t_idx ∉ Robust.matched_tracks st' →
       Robust.ms_tracks st' !! t_idx = Robust.ms_tracks st !! t_idx)
  ∧ (∀ t_idx, t_idx ∈ Robust.matched_tracks st →
       Robust.ms_tracks st' !! t_idx = Robust.ms_tracks st !! t_idx)
  ∧ (∀ t_idx, t_idx ∈ Robust.matched_tracks st' →
       t_idx ∉ Robust.matched_tracks st →
       ∃ t c, Robust.ms_tracks st !! t_idx = Some t ∧ c ∈ cands
              ∧ Robust.ms_tracks st' !! t_idx = Some (Robust.update t c frame)).
Proof.
  revert st. induction pairs as [|[[c_idx t_idx] dist] rest IH]; intros st;
    simpl.
  { split_and!; done. }
  case_decide as Hfree; [|apply IH].
  destruct (Robust.ms_tracks st !! t_idx) as [track|] eqn:Htrack; [|apply IH].
  destruct (cands !! c_idx) as [cand|] eqn:Hcand; [|apply IH].
  destruct Hfree as [_ Hfree].
  match goal with
  | |- context [Robust.claim_pairs _ _ _ ?s] => set (st1 := s)
  end.
  destruct (IH st1) as (Hlen & Hsub & Hout & Hin & Hnew). simpl in *.
  assert (Hlt : t_idx < length (Robust.ms_tracks st))
    by by eapply lookup_lt_Some.
  split_and!.
  - by rewrite Hlen, length_insert.
  - set_solver.
  - intros t Ht. rewrite Hout by done.
    apply list_lookup_insert_ne. set_solver.
  - intros t Ht. rewrite Hin by set_solver.
    apply list_lookup_insert_ne. set_solver.
  - intros t Ht Hfresh. destruct (decide (t = t_idx)) as [->|Hne].
    + exists track, cand. split_and!; [done|by eapply list_elem_of_lookup_2|].
      rewrite Hin by set_solver. by apply list_lookup_insert_eq.
    + destruct (Hnew t Ht) as (t0 & c & Ht0 & Hc & Hupd); [set_solver|].
      exists t0, c. split_and!; try done.
      by rewrite list_lookup_insert_ne in Ht0.
Qed.

(** The tracks created from the unmatched candidates. *)
Lemma spawn_tracks_active (frame : nat) (st : Robust.TrackerState)
    (unmatched : list Robust.OrganismCandidate) (out : Robust.RobustTrack) :
  out ∈ Robust.active_tracks (Robust.spawn_tracks frame st unmatched) →
  out ∈ Robust.active_tracks st
  ∨ ∃ id c, c ∈ unmatched ∧ Robust.next_track_id st ≤ id
            ∧ out = Robust.update (Robust.new_track id) c frame.
Proof.
  unfold Robust.spawn_tracks. revert st.
  induction unmatched as [|c l IH]; intros st; simpl; [by left|].
  intros [Hout | (id & c' & Hc' & Hid & ->)]%IH; simpl in *.
  - apply elem_of_app in Hout as [Hout | ->%list_elem_of_singleton];
      [by left|].
    right. exists (Robust.next_track_id st), c. split_and!; [by left|done..].
  - right. exists id, c'. split_and!; [by right|lia|done].
Qed.

Lemma unmatched_candidates_sub (set_iter : gset nat → list nat)
    (cands : list Robust.OrganismCandidate) (tracks : list Robust.RobustTrack)
    (frame : nat) (params : Robust.RobustTrackingParams)
    (c : Robust.OrganismCandidate) :
  c ∈ (Robust.match_candidates_to_tracks set_iter cands tracks frame params).2 →
  c ∈ cands.
Proof.
  unfold Robust.match_candidates_to_tracks.
  destruct tracks as [|t tracks], cands as [|c0 cands]; simpl; try done.
  intros ([i c'] & -> & Hin)%list_elem_of_fmap.
  apply list_elem_of_filter in Hin as [_ Hin].
  apply elem_of_lookup_imap in Hin as (j & y & [= -> ->] & Hj).
  by eapply list_elem_of_lookup_2.
Qed.

(** The tracks that [match_candidates_to_tracks] returns, by origin. *)
Lemma matched_tracks_origin (set_iter : gset nat → list nat)
    (cands : list Robust.OrganismCandidate) (tracks : list Robust.RobustTrack)
    (frame : nat) (params : Robust.RobustTrackingParams)
    (out : Robust.RobustTrack) :
  (∀ s, set_iter s ≡ₚ elements s) →
  out ∈ (Robust.match_candidates_to_tracks set_iter cands tracks frame params).1 →
  ∃ t_idx t,
    tracks !! t_idx = Some t
    ∧ ((t_idx ∈ matched_on_frame cands tracks frame params
        ∧ ∃ c, c ∈ cands ∧ out = Robust.update t c frame)
       ∨ ((t_idx ∉ matched_on_frame cands tracks frame params)
          ∧ Robust.age_unmatched params t = Some out)).
Proof.
  intros Hiter.
  unfold Robust.match_candidates_to_tracks, matched_on_frame.
  destruct tracks as [|t0 tracks]; [by intros ?%elem_of_nil|].
  destruct cands as [|c0 cands].
  { cbn [fst]. intros (t & Ht & Hage)%list_elem_of_omap.
    apply list_elem_of_lookup in Ht as [t_idx Ht].
    exists t_idx, t. split; [done|]. right. split; [set_solver|done]. }
  unfold Robust.greedy_match.
  set (pairs := sort_by snd _).
  set (st0 := {| Robust.ms_tracks := t0 :: tracks;
                 Robust.matched_candidates := ∅;
                 Robust.matched_tracks := ∅ |}).
  destruct (claim_pairs_inv frame (c0 :: cands) pairs st0)
    as (Hlen & _ & Hout & _ & Hnew).
  set (st := Robust.claim_pairs frame (c0 :: cands) pairs st0) in *.
  cbn [fst]. simpl in Hout, Hnew.
  intros [Hin | Hin]%elem_of_app.
  - apply list_elem_of_omap in Hin as ([t_idx t] & Hin & Hage).
    apply elem_of_lookup_imap in Hin as (j & y & [= <- <-] & Hj).
    simpl in Hage. case_decide as Hm; [done|].
    exists t_idx, t. split; [by rewrite <- Hout|]. right. done.
  - apply list_elem_of_omap in Hin as (t_idx & Hin & Hlook).
    rewrite Hiter in Hin. apply elem_of_elements in Hin.
    destruct (Hnew t_idx Hin) as (t & c & Ht & Hc & Hupd); [set_solver|].
    exists t_idx, t. split; [done|]. left. split; [done|].
    exists c. split; [done|]. congruence.
Qed.

(** A missed frame leaves the identity and the history of a track alone. *)
Lemma age_unmatched_history (p : Robust.RobustTrackingParams)
    (t t' : Robust.RobustTrack) :
  Robust.age_unmatched p t = Some t' →
  Robust.track_id t' = Robust.track_id t
  ∧ Robust.positions t' = Robust.positions t
  ∧ Robust.frames t' = Robust.frames t.
Proof.
  unfold Robust.age_unmatched. case_bool_decide; [|done].
  intros [= <-]. simpl. by destruct (Robust.is_resting t).
Qed.

(** C8: every track of the active set after the association of a frame is
    either a track of the previous active set, whose
    [frames_since_detection] is 0 exactly when it was matched on the frame
    and is its previous value plus one otherwise, or a track created on the
    frame, with counter 0; and it is resting if and only if its counter is
    at least 1 and at most [max_skip_frames]. *)
Theorem association_counters (set_iter : gset nat → list nat)
    (params : Robust.RobustTrackingParams) (st : Robust.TrackerState)
    (frame : nat) (cands : list Robust.OrganismCandidate)
    (out : Robust.RobustTrack) :
  (∀ s, set_iter s ≡ₚ elements s) →
  out ∈ Robust.active_tracks
          (Robust.associate_frame set_iter params st frame cands) →
  (Robust.is_resting out = true ↔
     1 ≤ Robust.frames_since_detection out
     ∧ (Z.of_nat (Robust.frames_since_detection out)
        ≤ Robust.max_skip_frames params)%Z)
  ∧ ((∃ t_idx t,
        Robust.active_tracks st !! t_idx = Some t
        ∧ Robust.track_id out = Robust.track_id t
        ∧ (Robust.frames_since_detection out = 0 ↔
             t_idx ∈ matched_on_frame cands (Robust.active_tracks st) frame
                       params)
        ∧ (t_idx ∉ matched_on_frame cands (Robust.active_tracks st) frame
                     params →
           Robust.frames_since_detection out
           = S (Robust.frames_since_detection t)))
     ∨ (∃ id c, c ∈ cands
                ∧ out = Robust.update (Robust.new_track id) c frame
                ∧ Robust.frames_since_detection out = 0)).
Proof.
  intros Hiter. unfold Robust.associate_frame.
  destruct (Robust.match_candidates_to_tracks set_iter cands
              (Robust.active_tracks st) frame params)
    as [active unmatched] eqn:Hmatch.
  intros [Hold | (id & c & Hc & _ & ->)]%spawn_tracks_active; simpl in *.
  - assert (Hin : out ∈ (Robust.match_candidates_to_tracks set_iter cands
                           (Robust.active_tracks st) frame params).1)
      by by rewrite Hmatch.
    apply matched_tracks_origin in Hin
      as (t_idx & t & Ht & [(Hm & c & Hc & ->) | (Hm & Hage)]); [| |done].
    + simpl. split; [split; [done|lia]|].
      left. exists t_idx, t. split_and!; done.
    + pose proof (age_unmatched_history _ _ _ Hage) as (Hid & _).
      apply age_unmatched_radius in Hage as (Hrest & Hfsd & Hbudget & _).
      split; [split; [intros _; split; [lia|done]|done]|].
      left. exists t_idx, t. split_and!; try done.
      split; [lia|done].
  - split; [split; [done|lia]|].
    right. exists id, c. split_and!; try done.
    assert (Hin : c ∈ (Robust.match_candidates_to_tracks set_iter cands
                         (Robust.active_tracks st) frame params).2)
      by by rewrite Hmatch.
    by eapply unmatched_candidates_sub.
Qed.

(** C8, witness: a track matched on frame 0 that misses frame 1, the
    iteration order being that of [elements]. *)
Lemma association_counters_witness :
  Robust.is_resting (Robust.enter_rest_mode (Robust.tick Inputs.fresh_track))
  = true ↔
    1 ≤ Robust.frames_since_detection
          (Robust.enter_rest_mode (Robust.tick Inputs.fresh_track))
    ∧ (Z.of_nat (Robust.frames_since_detection
                   (Robust.enter_rest_mode (Robust.tick Inputs.fresh_track)))
       ≤ Robust.max_skip_frames Robust.default_tracking_params)%Z.
Proof.
  apply (association_counters elements Robust.default_tracking_params
           {| Robust.active_tracks := [Inputs.fresh_track];
              Robust.next_track_id := 2 |} 1 []
           (Robust.enter_rest_mode (Robust.tick Inputs.fresh_track))).
  - done.
  - apply list_elem_of_singleton. reflexivity.
Defined.

(** ** The whole video *)

(** C1, the code at the failing input: with a skip budget of one frame, the
    track created on frame 0 is resting after frame 1 and leaves the active
    set on frame 2; the blob that comes back at the same place on frame 3
    starts track 2, and the finalized output holds track 2 alone: track 1 is
    neither updated again nor retained. *)
Theorem orphaned_track_not_in_output (set_iter : gset nat → list nat) :
  Robust.process_frames set_iter Robust.default_merge_params
    Inputs.impatient_params 0 (take 1 Inputs.blinking_video)
    {| Robust.active_tracks := []; Robust.next_track_id := 1 |}
  = Some {| Robust.active_tracks := [Inputs.fresh_track];
            Robust.next_track_id := 2 |}
  ∧ Robust.process_frames set_iter Robust.default_merge_params
      Inputs.impatient_params 0 (take 2 Inputs.blinking_video)
      {| Robust.active_tracks := []; Robust.next_track_id := 1 |}
    = Some {| Robust.active_tracks :=
                [Robust.enter_rest_mode (Robust.tick Inputs.fresh_track)];
              Robust.next_track_id := 2 |}
  ∧ Robust.process_frames set_iter Robust.default_merge_params
      Inputs.impatient_params 0 (take 3 Inputs.blinking_video)
      {| Robust.active_tracks := []; Robust.next_track_id := 1 |}
    = Some {| Robust.active_tracks := []; Robust.next_track_id := 2 |}
  ∧ Robust.process_video_robust set_iter Inputs.blinking_video
      Robust.default_merge_params Inputs.impatient_params
    = Some [ Robust.set_valid
               (Robust.update (Robust.new_track 2)
                  (Robust.dark_only_candidate 3 (Inputs.dark_blob_at 5 5)) 3)
               false ].
Proof. split_and!; reflexivity. Qed.

(** ** Orphaned tracks *)

Lemma spawn_tracks_next (frame : nat) (st : Robust.TrackerState)
    (unmatched : list Robust.OrganismCandidate) :
  Robust.next_track_id (Robust.spawn_tracks frame st unmatched)
  = Robust.next_track_id st + length unmatched.
Proof.
  unfold Robust.spawn_tracks. revert st.
  induction unmatched as [|c l IH]; intros st; simpl; [lia|].
  rewrite IH. simpl. lia.
Qed.

(** The identifiers of the active set after a frame: those of tracks that
    were active before it, and fresh ones. *)
Lemma associate_frame_ids (set_iter : gset nat → list nat)
    (params : Robust.RobustTrackingParams) (st : Robust.TrackerState)
    (frame : nat) (cands : list Robust.OrganismCandidate) :
  (∀ s, set_iter s ≡ₚ elements s) →
  Robust.next_track_id st
  ≤ Robust.next_track_id (Robust.associate_frame set_iter params st frame cands)
  ∧ ∀ out,
      out ∈ Robust.active_tracks
              (Robust.associate_frame set_iter params st frame cands) →
      (∃ t, t ∈ Robust.active_tracks st
            ∧ Robust.track_id out = Robust.track_id t)
      ∨ Robust.next_track_id st ≤ Robust.track_id out.
Proof.
  intros Hiter. unfold Robust.associate_frame.
  destruct (Robust.match_candidates_to_tracks set_iter cands
              (Robust.active_tracks st) frame params)
    as [active unmatched] eqn:Hmatch.
  split; [rewrite spawn_tracks_next; simpl; lia|].
  intros out [Hold | (id & c & _ & Hid & ->)]%spawn_tracks_active;
    simpl in *; [|by right].
  left.
  assert (Hin : out ∈ (Robust.match_candidates_to_tracks set_iter cands
                         (Robust.active_tracks st) frame params).1)
    by by rewrite Hmatch.
  apply matched_tracks_origin in Hin
    as (t_idx & t & Ht & [(_ & c & _ & ->) | (_ & Hage)]); [| |done].
  - exists t. split; [by eapply list_elem_of_lookup_2|done].
  - exists t. split; [by eapply list_elem_of_lookup_2|].
    by apply age_unmatched_history in Hage as (-> & _).
Qed.

(** A track that has left the active set is never brought back: no later
    frame puts a track with its identifier in the active set again, whatever
    is detected. *)
Lemma orphaned_forever (set_iter : gset nat → list nat)
    (merge_params : Robust.MergeParams) (params : Robust.RobustTrackingParams)
    (video : list (list Robust.Blob * list Robust.Blob)) (frame id : nat)
    (st st' : Robust.TrackerState) :
  (∀ s, set_iter s ≡ₚ elements s) →
  id < Robust.next_track_id st →
  (∀ t, t ∈ Robust.active_tracks st → Robust.track_id t ≠ id) →
  Robust.process_frames set_iter merge_params params frame video st = Some st' →
  ∀ t, t ∈ Robust.active_tracks st' → Robust.track_id t ≠ id.
Proof.
  intros Hiter. revert frame st.
  induction video as [|blobs rest IH]; intros frame st Hid Hgone; simpl.
  { by intros [= <-]. }
  intros (st1 & Hframe & Hrest)%bind_Some.
  unfold Robust.process_frame in Hframe.
  apply bind_Some in Hframe as (cands & _ & [= <-]).
  destruct (associate_frame_ids set_iter params st frame cands Hiter)
    as [Hnext Horigin].
  eapply IH; [| |exact Hrest]; [lia|].
  intros t [(t0 & Ht0 & ->) | Hfresh]%Horigin; [by apply Hgone|lia].
Qed.

(** ** Blobs left unpaired *)

Lemma enumerate_values {A} (l : list A) : (enumerate l).*2 = l.
Proof.
  induction l as [|x l IH] using rev_ind; [done|].
  by rewrite enumerate_snoc, fmap_app, IH.
Qed.

(** The blobs left unpaired are the blobs whose index is not used, and they
    come in input order. *)
Lemma unused_spec (used : gset nat) (blobs : list Robust.Blob) :
  Robust.unused used blobs `sublist_of` blobs
  ∧ ∀ b, b ∈ Robust.unused used blobs ↔
         ∃ i, blobs !! i = Some b ∧ i ∉ used.
Proof.
  unfold Robust.unused. split.
  - rewrite <- (enumerate_values blobs) at 2.
    apply fmap_sublist, sublist_filter.
  - intros b. rewrite list_elem_of_fmap. split.
    + intros ([i b'] & -> & Hin).
      apply list_elem_of_filter in Hin as [Hfree Hin].
      apply elem_of_lookup_imap in Hin as (j & y & [= <- <-] & Hj). eauto.
    + intros (i & Hi & Hfree). exists (i, b). split; [done|].
      apply list_elem_of_filter. split; [done|].
      by apply (elem_of_lookup_imap_2 pair).
Qed.

(** * Invariants and further properties *)

(** ** Robust tracker: what every track of the active set satisfies *)

Lemma update_track_inv (frame : nat) (t : Robust.RobustTrack)
    (c : Robust.OrganismCandidate) :
  track_inv frame t → track_inv (S frame) (Robust.update t c frame).
Proof.
  intros ((Hp & Hb & Ha & Hc) & Hne & Hsorted & Hlast & Hcount & _ & _).
  unfold track_inv, parallel_histories; simpl.
  rewrite !length_app; simpl. split_and!; try lia; try done.
  - by destruct (Robust.frames t).
  - apply StronglySorted_app_2; [|done|repeat constructor].
    intros f1 f2 Hf1 ->%list_elem_of_singleton.
    assert (f1 ≤ Robust.last_seen_frame t); [|lia].
    clear -Hsorted Hlast Hf1.
    induction (Robust.frames t) as [|f l IH] using rev_ind; [done|].
    rewrite last_snoc in Hlast. injection Hlast as <-.
    apply elem_of_app in Hf1 as [Hf1 | ->%list_elem_of_singleton]; [|done].
    apply StronglySorted_app in Hsorted as (Hlt & _ & _).
    specialize (Hlt f1 f Hf1). rewrite list_elem_of_singleton in Hlt.
    specialize (Hlt eq_refl). lia.
  - by rewrite last_snoc.
Qed.

Lemma new_track_inv (frame id : nat) (c : Robust.OrganismCandidate) :
  track_inv (S frame) (Robust.update (Robust.new_track id) c frame).
Proof.
  unfold track_inv, parallel_histories; simpl.
  split_and!; try done; try lia. repeat constructor.
Qed.

Lemma age_unmatched_inv (params : Robust.RobustTrackingParams) (frame : nat)
    (t t' : Robust.RobustTrack) :
  track_inv frame t → Robust.age_unmatched params t = Some t' →
  track_inv (S frame) t'.
Proof.
  intros ((Hp & Hb & Ha & Hc) & Hne & Hsorted & Hlast & Hcount & Hrest & Hzone).
  unfold Robust.age_unmatched. case_bool_decide; [|done].
  intros [= <-]. simpl.
  assert (Hpos : is_Some (last (Robust.positions t))).
  { destruct (Robust.positions t) as [|p l] using rev_ind.
    - destruct (Robust.frames t); [done|simpl in *; lia].
    - rewrite last_snoc. eauto. }
  destruct Hpos as [p Hpos].
  destruct (Robust.is_resting t) eqn:Hr;
    unfold track_inv, parallel_histories; simpl; rewrite ?Hr, ?Hpos;
    split_and!; try done; try lia.
  by rewrite Hzone, Hpos.
Qed.

Lemma age_unmatched_radius_inv (params : Robust.RobustTrackingParams)
    (frame : nat) (t t' : Robust.RobustTrack) :
  (100 <= Robust.max_rest_radius params)%R →
  track_inv frame t → radius_inv params t →
  Robust.age_unmatched params t = Some t' → radius_inv params t'.
Proof.
  intros Hmax (_ & _ & _ & _ & _ & Hrest & _) Hrad
    (_ & Hfsd & _ & Hr)%age_unmatched_radius _.
  rewrite Hr, Hfsd. simpl. rewrite Nat.sub_0_r.
  destruct (Robust.is_resting t) eqn:Hresting.
  - rewrite Hrad by done.
    assert (Hk : 1 ≤ Robust.frames_since_detection t) by by apply Hrest.
    destruct (Robust.frames_since_detection t) as [|k]; [lia|].
    replace (S k - 1) with k by lia. rewrite S_INR.
    generalize (INR k) (Robust.max_rest_radius params). intros y m.
    unfold Rmin. repeat destruct (Rle_dec _ _); lra.
  - assert (Robust.frames_since_detection t = 0) as ->.
    { destruct (Robust.frames_since_detection t); [done|].
      assert (false = true); [apply Hrest; lia|done]. }
    simpl. rewrite Rmult_0_r, Rplus_0_r. by rewrite Rmin_right.
Qed.

(** A property of tracks, indexed by the number of frames processed, that
    detections, track creation and missed frames maintain holds of the whole
    active set after every frame. *)
(** The merger makes dark-only, bright-only and coupled candidates only. *)
Lemma merge_candidate_types (dark bright : list Robust.Blob) (frame : nat)
    (params : Robust.MergeParams) (cands : list Robust.OrganismCandidate) :
  Robust.merge_blobs_into_candidates dark bright frame params = Some cands →
  Forall (λ c, Robust.candidate_type c ≠ Robust.multi
               ∧ Robust.candidate_type c ≠ Robust.unknown) cands.
Proof.
  unfold Robust.merge_blobs_into_candidates.
  intros (st & Hst & [= <-])%bind_Some.
  destruct (merge_state_of_pairs dark bright frame params st Hst)
    as (accepted & Hacc & _).
  rewrite !Forall_app, !Forall_fmap. split_and!.
  - clear -Hacc.
    induction Hacc as [|p c ps cs (d & b & _ & _ & _ & _ & Hc) _ IH];
      constructor; [|done].
    apply coupled_candidate_Some in Hc as [-> _]. done.
  - by apply Forall_true.
  - by apply Forall_true.
Qed.

Lemma age_unmatched_types (params : Robust.RobustTrackingParams)
    (t t' : Robust.RobustTrack) :
  Robust.age_unmatched params t = Some t' →
  Robust.candidate_types t' = Robust.candidate_types t.
Proof.
  unfold Robust.age_unmatched. case_bool_decide; [|done].
  destruct (Robust.is_resting (Robust.tick t)); by intros [= <-].
Qed.

Section ActiveSetInvariant.
Context (set_iter : gset nat → list nat)
        (merge_params : Robust.MergeParams)
        (params : Robust.RobustTrackingParams)
        (Q : Robust.OrganismCandidate → Prop)
        (P : nat → Robust.RobustTrack → Prop).
Hypothesis set_iter_elements : ∀ s, set_iter s ≡ₚ elements s.
Hypothesis Q_merge : ∀ dark bright frame cands,
  Robust.merge_blobs_into_candidates dark bright frame merge_params
  = Some cands →
  Forall Q cands.
Hypothesis P_update : ∀ frame t c,
  P frame t → Q c → P (S frame) (Robust.update t c frame).
Hypothesis P_new : ∀ frame id c,
  Q c → P (S frame) (Robust.update (Robust.new_track id) c frame).
Hypothesis P_age : ∀ frame t t',
  P frame t → Robust.age_unmatched params t = Some t' → P (S frame) t'.

Lemma associate_frame_Forall (st : Robust.TrackerState) (frame : nat)
    (cands : list Robust.OrganismCandidate) :
  Forall Q cands →
  Forall (P frame) (Robust.active_tracks st) →
  Forall (P (S frame))
    (Robust.active_tracks
       (Robust.associate_frame set_iter params st frame cands)).
Proof.
  intros Hcands Hinv. rewrite Forall_forall in Hinv.
  rewrite Forall_forall in Hcands.
  apply Forall_forall. intros out. unfold Robust.associate_frame.
  destruct (Robust.match_candidates_to_tracks set_iter cands
              (Robust.active_tracks st) frame params)
    as [active unmatched] eqn:Hmatch.
  intros [Hold | (id & c & Hc & _ & ->)]%spawn_tracks_active; simpl in *.
  2:{ apply P_new, Hcands.
      apply (unmatched_candidates_sub set_iter cands (Robust.active_tracks st)
               frame params).
      by rewrite Hmatch. }
  assert (Hin : out ∈ (Robust.match_candidates_to_tracks set_iter cands
                         (Robust.active_tracks st) frame params).1)
    by by rewrite Hmatch.
  apply matched_tracks_origin in Hin
    as (t_idx & t & Ht & [(_ & c & Hc & ->) | (_ & Hage)]); [| |done].
  - apply P_update; [|by apply Hcands]. apply Hinv.
    by eapply list_elem_of_lookup_2.
  - eapply P_age; [|done]. apply Hinv. by eapply list_elem_of_lookup_2.
Qed.

Lemma process_frames_Forall
    (video : list (list Robust.Blob * list Robust.Blob)) (frame : nat)
    (st st' : Robust.TrackerState) :
  Forall (P frame) (Robust.active_tracks st) →
  Robust.process_frames set_iter merge_params params frame video st = Some st' →
  Forall (P (frame + length video)) (Robust.active_tracks st').
Proof.
  revert frame st.
  induction video as [|blobs rest IH]; intros frame st Hinv; simpl.
  { intros [= <-]. by rewrite Nat.add_0_r. }
  intros (st1 & Hframe & Hrest)%bind_Some.
  unfold Robust.process_frame in Hframe.
  apply bind_Some in Hframe as (cands & Hmerge & [= <-]).
  replace (frame + S (length rest)) with (S frame + length rest) by lia.
  eapply IH; [|done]. apply associate_frame_Forall; [|done].
  by eapply Q_merge.
Qed.

End ActiveSetInvariant.

(** The tracks that [process_video_robust] writes out are the tracks of the
    final active set with their validity flag. *)
Lemma process_video_robust_tracks (set_iter : gset nat → list nat)
    (video : list (list Robust.Blob * list Robust.Blob))
    (merge_params : Robust.MergeParams) (params : Robust.RobustTrackingParams)
    (out : list Robust.RobustTrack) (t : Robust.RobustTrack) :
  Robust.process_video_robust set_iter video merge_params params = Some out →
  t ∈ out →
  ∃ st t0,
    Robust.process_frames set_iter merge_params params 0 video initial_state
    = Some st
    ∧ t0 ∈ Robust.active_tracks st
    ∧ t = Robust.set_valid t0 (Robust.validate_track t0 params).
Proof.
  unfold Robust.process_video_robust.
  intros (st & Hst & [= <-])%bind_Some
    (t0 & -> & Ht0)%list_elem_of_fmap.
  by exists st, t0.
Qed.

Lemma strongly_sorted_lt_last_bound (l : list nat) (x : nat) :
  StronglySorted lt l → last l = Some x → Forall (λ f, f ≤ x) l.
Proof.
  intros Hsorted Hlast.
  induction l as [|f l IH] using rev_ind; [done|].
  rewrite last_snoc in Hlast. injection Hlast as <-.
  apply StronglySorted_app in Hsorted as (Hlt & _ & _).
  apply Forall_app. split; [|by repeat constructor].
  apply Forall_forall. intros y Hy.
  specialize (Hlt y f Hy). rewrite list_elem_of_singleton in Hlt.
  specialize (Hlt eq_refl). lia.
Qed.

Lemma active_tracks_inv (set_iter : gset nat → list nat)
    (merge_params : Robust.MergeParams) (params : Robust.RobustTrackingParams)
    (video : list (list Robust.Blob * list Robust.Blob))
    (st : Robust.TrackerState) :
  (∀ s, set_iter s ≡ₚ elements s) →
  Robust.process_frames set_iter merge_params params 0 video initial_state
  = Some st →
  Forall (λ t, track_inv (length video) t
               ∧ (Z.of_nat (Robust.frames_since_detection t)
                  ≤ Z.max 0 (Robust.max_skip_frames params))%Z
               ∧ ((100 <= Robust.max_rest_radius params)%R →
                  radius_inv params t)
               ∧ Forall (λ ty, ty ≠ Robust.multi ∧ ty ≠ Robust.unknown)
                   (Robust.candidate_types t))
    (Robust.active_tracks st).
Proof.
  intros Hiter Hrun.
  apply (process_frames_Forall set_iter merge_params params
           (λ c, Robust.candidate_type c ≠ Robust.multi
                 ∧ Robust.candidate_type c ≠ Robust.unknown)
           (λ frame t, track_inv frame t
              ∧ (Z.of_nat (Robust.frames_since_detection t)
                 ≤ Z.max 0 (Robust.max_skip_frames params))%Z
              ∧ ((100 <= Robust.max_rest_radius params)%R →
                 radius_inv params t)
              ∧ Forall (λ ty, ty ≠ Robust.multi ∧ ty ≠ Robust.unknown)
                  (Robust.candidate_types t))
           Hiter) in Hrun; [done|..|constructor].
  - intros dark bright frame cands. apply merge_candidate_types.
  - intros frame t c (Hinv & _ & _ & Htypes) Hc. split_and!.
    + by apply update_track_inv.
    + simpl. lia.
    + by intros _ ?.
    + simpl. apply Forall_app. split; [done|]. by constructor.
  - intros frame id c Hc. split_and!.
    + apply new_track_inv.
    + simpl. lia.
    + by intros _ ?.
    + simpl. by constructor.
  - intros frame t t' (Hinv & _ & Hrad & Htypes) Hage. split_and!.
    + by eapply age_unmatched_inv.
    + apply age_unmatched_radius in Hage as (_ & _ & Hle & _). lia.
    + intros Hmax. eapply age_unmatched_radius_inv; eauto.
    + by rewrite (age_unmatched_types _ _ _ Hage).
Qed.

(** X1: after any number of frames, every track of the active set has one
    position, bounding box, area and candidate type per frame it was detected
    on, was detected at least once, and its frames are strictly increasing
    frame numbers of the video processed so far. *)
Theorem active_track_histories (set_iter : gset nat → list nat)
    (merge_params : Robust.MergeParams) (params : Robust.RobustTrackingParams)
    (video : list (list Robust.Blob * list Robust.Blob))
    (st : Robust.TrackerState) (t : Robust.RobustTrack) :
  (∀ s, set_iter s ≡ₚ elements s) →
  Robust.process_frames set_iter merge_params params 0 video initial_state
  = Some st →
  t ∈ Robust.active_tracks st →
  parallel_histories t
  ∧ 1 ≤ Robust.track_length t
  ∧ StronglySorted lt (Robust.frames t)
  ∧ Forall (λ f, f < length video) (Robust.frames t).
Proof.
  intros Hiter Hrun Ht.
  pose proof (active_tracks_inv _ _ _ _ _ Hiter Hrun) as Hinv.
  rewrite Forall_forall in Hinv.
  destruct (Hinv t Ht)
    as ((Hpar & Hne & Hsorted & Hlast & Hcount & _) & _).
  split_and!; try done.
  - unfold Robust.track_length. destruct (Robust.frames t); [done|simpl; lia].
  - eapply Forall_impl; [by eapply strongly_sorted_lt_last_bound|].
    simpl. intros f Hf. lia.
Qed.

(** X1, witness: the track left resting by the first three frames of the
    blinking video. *)
Lemma active_track_histories_witness :
  parallel_histories Inputs.rested_twice
  ∧ 1 ≤ Robust.track_length Inputs.rested_twice
  ∧ StronglySorted lt (Robust.frames Inputs.rested_twice)
  ∧ Forall (λ f, f < 3) (Robust.frames Inputs.rested_twice).
Proof.
  apply (active_track_histories elements Robust.default_merge_params
           Robust.default_tracking_params (take 3 Inputs.blinking_video)
           Inputs.rested_state Inputs.rested_twice).
  - done.
  - reflexivity.
  - apply list_elem_of_singleton. reflexivity.
Defined.

(** X2: after any number of frames, [frames_since_detection] of an active
    track is the number of frames processed since [last_seen_frame], which is
    the last entry of its frame history; the track is resting exactly when
    that number is at least one, and it never exceeds the skip budget. *)
Theorem active_track_counters (set_iter : gset nat → list nat)
    (merge_params : Robust.MergeParams) (params : Robust.RobustTrackingParams)
    (video : list (list Robust.Blob * list Robust.Blob))
    (st : Robust.TrackerState) (t : Robust.RobustTrack) :
  (∀ s, set_iter s ≡ₚ elements s) →
  Robust.process_frames set_iter merge_params params 0 video initial_state
  = Some st →
  t ∈ Robust.active_tracks st →
  last (Robust.frames t) = Some (Robust.last_seen_frame t)
  ∧ Robust.last_seen_frame t + Robust.frames_since_detection t + 1
    = length video
  ∧ (Robust.is_resting t = true ↔ 1 ≤ Robust.frames_since_detection t)
  ∧ (Z.of_nat (Robust.frames_since_detection t)
     ≤ Z.max 0 (Robust.max_skip_frames params))%Z.
Proof.
  intros Hiter Hrun Ht.
  pose proof (active_tracks_inv _ _ _ _ _ Hiter Hrun) as Hinv.
  rewrite Forall_forall in Hinv.
  by destruct (Hinv t Ht)
    as ((_ & _ & _ & Hlast & Hcount & Hrest & _) & Hbudget & _).
Qed.

(** X2, witness. *)
Lemma active_track_counters_witness :
  last (Robust.frames Inputs.rested_twice)
  = Some (Robust.last_seen_frame Inputs.rested_twice)
  ∧ Robust.last_seen_frame Inputs.rested_twice
    + Robust.frames_since_detection Inputs.rested_twice + 1 = 3
  ∧ (Robust.is_resting Inputs.rested_twice = true ↔
       1 ≤ Robust.frames_since_detection Inputs.rested_twice)
  ∧ (Z.of_nat (Robust.frames_since_detection Inputs.rested_twice)
     ≤ Z.max 0 (Robust.max_skip_frames Robust.default_tracking_params))%Z.
Proof.
  apply (active_track_counters elements Robust.default_merge_params
           Robust.default_tracking_params (take 3 Inputs.blinking_video)
           Inputs.rested_state Inputs.rested_twice).
  - done.
  - reflexivity.
  - apply list_elem_of_singleton. reflexivity.
Defined.

(** X3: in the pipeline a resting track is always predicted at its last
    detected position, which is its rest-zone centre, and a track that is
    not resting has no rest-zone centre. *)
Theorem resting_track_predicted_at_last_position
    (set_iter : gset nat → list nat)
    (merge_params : Robust.MergeParams) (params : Robust.RobustTrackingParams)
    (video : list (list Robust.Blob * list Robust.Blob))
    (st : Robust.TrackerState) (t : Robust.RobustTrack) :
  (∀ s, set_iter s ≡ₚ elements s) →
  Robust.process_frames set_iter merge_params params 0 video initial_state
  = Some st →
  t ∈ Robust.active_tracks st →
  (Robust.is_resting t = true →
   ∃ p, Robust.last_position t = Some p
        ∧ Robust.rest_zone_center t = Some p
        ∧ Robust.predicted_position t = p)
  ∧ (Robust.is_resting t = false → Robust.rest_zone_center t = None).
Proof.
  intros Hiter Hrun Ht.
  pose proof (active_tracks_inv _ _ _ _ _ Hiter Hrun) as Hinv.
  rewrite Forall_forall in Hinv.
  destruct (Hinv t Ht)
    as (((Hpos & _) & Hne & _ & _ & _ & _ & Hzone) & _).
  split; intros Hrest; rewrite Hrest in Hzone; [|done].
  unfold Robust.last_position.
  destruct (last (Robust.positions t)) as [p|] eqn:Hlast.
  - exists p. split_and!; try done.
    unfold Robust.predicted_position. by rewrite Hrest, Hzone.
  - apply last_None in Hlast. rewrite Hlast in Hpos.
    destruct (Robust.frames t); [done|simpl in *; lia].
Qed.

(** X3, witness. *)
Lemma resting_track_predicted_at_last_position_witness :
  ∃ p, Robust.last_position Inputs.rested_twice = Some p
       ∧ Robust.rest_zone_center Inputs.rested_twice = Some p
       ∧ Robust.predicted_position Inputs.rested_twice = p.
Proof.
  apply (resting_track_predicted_at_last_position elements
           Robust.default_merge_params Robust.default_tracking_params
           (take 3 Inputs.blinking_video) Inputs.rested_state
           Inputs.rested_twice).
  - done.
  - reflexivity.
  - apply list_elem_of_singleton. reflexivity.
  - reflexivity.
Defined.

(** X4: when the entry radius 100 does not exceed [max_rest_radius], the
    rest-zone radius of a resting track of the active set is
    [min(max_rest_radius, 100 + 10 * (frames_since_detection - 1))]; in
    particular it lies between 100 and [max_rest_radius]. *)
Theorem resting_radius_closed_form (set_iter : gset nat → list nat)
    (merge_params : Robust.MergeParams) (params : Robust.RobustTrackingParams)
    (video : list (list Robust.Blob * list Robust.Blob))
    (st : Robust.TrackerState) (t : Robust.RobustTrack) :
  (∀ s, set_iter s ≡ₚ elements s) →
  (100 <= Robust.max_rest_radius params)%R →
  Robust.process_frames set_iter merge_params params 0 video initial_state
  = Some st →
  t ∈ Robust.active_tracks st →
  Robust.is_resting t = true →
  Robust.rest_zone_radius t
  = Rmin (Robust.max_rest_radius params)
      (100 + 10 * INR (Robust.frames_since_detection t - 1))
  ∧ (100 <= Robust.rest_zone_radius t <= Robust.max_rest_radius params)%R.
Proof.
  intros Hiter Hmax Hrun Ht Hrest.
  pose proof (active_tracks_inv _ _ _ _ _ Hiter Hrun) as Hinv.
  rewrite Forall_forall in Hinv.
  destruct (Hinv t Ht) as (_ & _ & Hrad & _).
  rewrite (Hrad Hmax Hrest). split; [done|].
  pose proof (pos_INR (Robust.frames_since_detection t - 1)).
  split; [apply Rmin_glb; lra|apply Rmin_l].
Qed.

(** X4, witness: two missed frames give the radius [min(200, 110)]. *)
Lemma resting_radius_closed_form_witness :
  Robust.rest_zone_radius Inputs.rested_twice
  = Rmin (Robust.max_rest_radius Robust.default_tracking_params)
      (100 + 10 * INR (Robust.frames_since_detection Inputs.rested_twice - 1))
  ∧ (100 <= Robust.rest_zone_radius Inputs.rested_twice
     <= Robust.max_rest_radius Robust.default_tracking_params)%R.
Proof.
  apply (resting_radius_closed_form elements Robust.default_merge_params
           Robust.default_tracking_params (take 3 Inputs.blinking_video)
           Inputs.rested_state Inputs.rested_twice).
  - done.
  - simpl. lra.
  - reflexivity.
  - apply list_elem_of_singleton. reflexivity.
  - reflexivity.
Defined.

(** ** Robust tracker: track identifiers *)

Lemma claim_pairs_ids (frame : nat) (cands : list Robust.OrganismCandidate)
    (pairs : list (nat * nat * R)) (st : Robust.MatchState) :
  Robust.track_id <$> Robust.ms_tracks (Robust.claim_pairs frame cands pairs st)
  = Robust.track_id <$> Robust.ms_tracks st.
Proof.
  revert st. induction pairs as [|[[c_idx t_idx] dist] rest IH]; intros st;
    simpl; [done|].
  case_decide; [|apply IH].
  destruct (Robust.ms_tracks st !! t_idx) as [track|] eqn:Htrack; [|apply IH].
  destruct (cands !! c_idx) as [cand|]; [|apply IH].
  rewrite IH. simpl. rewrite list_fmap_insert. simpl.
  apply list_insert_id. by rewrite list_lookup_fmap, Htrack.
Qed.

(** Reading a list at distinct indices, or keeping some of its entries,
    keeps the keys distinct. *)
Section DistinctKeys.
Context {A : Type} (key : A → nat).

Lemma lookup_key_inj (l : list A) (i j : nat) (a b : A) :
  NoDup (key <$> l) → l !! i = Some a → l !! j = Some b → key a = key b →
  i = j.
Proof.
  intros Hnd Hi Hj Hkey.
  eapply NoDup_lookup; [exact Hnd| |].
  - by rewrite list_lookup_fmap, Hi.
  - rewrite list_lookup_fmap, Hj. simpl. by rewrite Hkey.
Qed.

Lemma omap_enumerate_keys (h : nat * A → option A) (l : list A) :
  (∀ i a b, h (i, a) = Some b → key b = key a) →
  (key <$> omap h (enumerate l)) `sublist_of` (key <$> l).
Proof.
  intros Hh. induction l as [|x l IH] using rev_ind; [done|].
  rewrite enumerate_snoc, omap_app, !fmap_app. simpl.
  apply sublist_app; [done|].
  destruct (h (length l, x)) as [b|] eqn:Hb; simpl.
  - by rewrite (Hh _ _ _ Hb).
  - apply sublist_nil_l.
Qed.

Lemma omap_lookup_keys (l : list A) (idxs : list nat) :
  NoDup idxs → NoDup (key <$> l) → NoDup (key <$> omap (λ i, l !! i) idxs).
Proof.
  intros His Hl. induction His as [|i idxs Hi His IH]; simpl; [constructor|].
  destruct (l !! i) as [a|] eqn:Ha; simpl; [|done].
  constructor; [|done].
  intros (b & Hkey & Hb)%list_elem_of_fmap.
  apply list_elem_of_omap in Hb as (j & Hj & Hb).
  assert (i = j) by exact (lookup_key_inj l i j a b Hl Ha Hb Hkey).
  by subst.
Qed.

End DistinctKeys.

(** Matching keeps the identifiers of the tracks it returns distinct. *)
Lemma match_candidates_ids_NoDup (set_iter : gset nat → list nat)
    (cands : list Robust.OrganismCandidate) (tracks : list Robust.RobustTrack)
    (frame : nat) (params : Robust.RobustTrackingParams) :
  (∀ s, set_iter s ≡ₚ elements s) →
  NoDup (Robust.track_id <$> tracks) →
  NoDup (Robust.track_id
           <$> (Robust.match_candidates_to_tracks set_iter cands tracks frame
                  params).1).
Proof.
  intros Hiter Hnd. unfold Robust.match_candidates_to_tracks.
  destruct tracks as [|t0 tracks]; [constructor|].
  destruct cands as [|c0 cands]; cbn [fst].
  { eapply sublist_NoDup; [exact Hnd|].
    generalize (t0 :: tracks). intros l.
    induction l as [|t l IH]; simpl; [done|].
    destruct (Robust.age_unmatched params t) as [t'|] eqn:Hage; simpl.
    - apply age_unmatched_history in Hage as (-> & _). by apply sublist_skip.
    - by apply sublist_cons. }
  set (st := Robust.greedy_match (c0 :: cands) (t0 :: tracks) frame params).
  assert (Hids : Robust.track_id <$> Robust.ms_tracks st
                 = Robust.track_id <$> (t0 :: tracks))
    by apply claim_pairs_ids.
  assert (Hnd' : NoDup (Robust.track_id <$> Robust.ms_tracks st))
    by by rewrite Hids.
  rewrite fmap_app. apply NoDup_app. split_and!.
  - eapply sublist_NoDup; [exact Hnd'|].
    apply omap_enumerate_keys. intros i a b. simpl.
    case_decide; [done|]. intros Hage.
    by apply age_unmatched_history in Hage as (-> & _).
  - intros id (a & -> & Ha)%list_elem_of_fmap (b & Hid & Hb)%list_elem_of_fmap.
    apply list_elem_of_omap in Ha as ([i a0] & Hia & Hage).
    apply elem_of_lookup_imap in Hia as (i' & a' & [= <- <-] & Hi).
    simpl in Hage. case_decide as Hm; [done|].
    apply age_unmatched_history in Hage as (Hida & _).
    apply list_elem_of_omap in Hb as (j & Hj & Hb).
    rewrite Hiter in Hj. apply elem_of_elements in Hj.
    assert (i = j); [|by subst].
    eapply (lookup_key_inj Robust.track_id); [exact Hnd'|done..|congruence].
  - apply omap_lookup_keys; [|done]. rewrite Hiter. apply NoDup_elements.
Qed.

(** The tracks created on a frame, with their identifiers. *)
Lemma spawn_tracks_spec (frame : nat) (st : Robust.TrackerState)
    (unmatched : list Robust.OrganismCandidate) :
  Robust.active_tracks (Robust.spawn_tracks frame st unmatched)
  = Robust.active_tracks st
    ++ imap (λ i c, Robust.update
                      (Robust.new_track (Robust.next_track_id st + i)) c frame)
         unmatched.
Proof.
  unfold Robust.spawn_tracks. revert st.
  induction unmatched as [|c l IH]; intros st; simpl.
  { by rewrite app_nil_r. }
  rewrite IH. simpl. rewrite <- app_assoc. simpl.
  rewrite Nat.add_0_r. do 2 f_equal.
  apply imap_ext. intros i x _. simpl. do 2 f_equal. lia.
Qed.

Lemma associate_frame_ids_inv (set_iter : gset nat → list nat)
    (params : Robust.RobustTrackingParams) (st : Robust.TrackerState)
    (frame : nat) (cands : list Robust.OrganismCandidate) :
  (∀ s, set_iter s ≡ₚ elements s) →
  ids_inv st →
  ids_inv (Robust.associate_frame set_iter params st frame cands).
Proof.
  intros Hiter (Hnd & Hnext & Hbound). rewrite Forall_forall in Hbound.
  pose proof (match_candidates_ids_NoDup set_iter cands
                (Robust.active_tracks st) frame params Hiter Hnd) as Hnd1.
  assert (Hold : ∀ out,
            out ∈ (Robust.match_candidates_to_tracks set_iter cands
                     (Robust.active_tracks st) frame params).1 →
            1 ≤ Robust.track_id out < Robust.next_track_id st).
  { intros out (t_idx & t & Ht & Hcase)%matched_tracks_origin; [|done].
    apply list_elem_of_lookup_2, Hbound in Ht.
    destruct Hcase as [(_ & c & _ & ->) | (_ & Hage)]; [done|].
    by apply age_unmatched_history in Hage as (-> & _). }
  unfold Robust.associate_frame.
  destruct (Robust.match_candidates_to_tracks set_iter cands
              (Robust.active_tracks st) frame params)
    as [active unmatched]. simpl in *.
  unfold ids_inv. rewrite spawn_tracks_spec, spawn_tracks_next. simpl.
  split_and!; [|lia|].
  - rewrite fmap_app. apply NoDup_app. split_and!; [done| |].
    + intros id (a & -> & Ha)%list_elem_of_fmap
        (b & Hid & Hb)%list_elem_of_fmap.
      apply Hold in Ha.
      apply elem_of_lookup_imap in Hb as (i & c & -> & _). simpl in Hid. lia.
    + apply NoDup_alt. intros i j id.
      rewrite !list_lookup_fmap, !list_lookup_imap.
      destruct (unmatched !! i), (unmatched !! j); simpl; try done.
      intros [= <-] [= Hij]. lia.
  - apply Forall_app. split; apply Forall_forall.
    + intros a Ha%Hold. lia.
    + intros a (i & c & -> & Hi%lookup_lt_Some)%elem_of_lookup_imap.
      simpl. lia.
Qed.

Lemma process_frames_ids_inv (set_iter : gset nat → list nat)
    (merge_params : Robust.MergeParams) (params : Robust.RobustTrackingParams)
    (video : list (list Robust.Blob * list Robust.Blob)) (frame : nat)
    (st st' : Robust.TrackerState) :
  (∀ s, set_iter s ≡ₚ elements s) →
  ids_inv st →
  Robust.process_frames set_iter merge_params params frame video st = Some st' →
  ids_inv st'.
Proof.
  intros Hiter. revert frame st.
  induction video as [|blobs rest IH]; intros frame st Hinv; simpl.
  { by intros [= <-]. }
  intros (st1 & Hframe & Hrest)%bind_Some.
  unfold Robust.process_frame in Hframe.
  apply bind_Some in Hframe as (cands & _ & [= <-]).
  eapply IH; [|done]. by apply associate_frame_ids_inv.
Qed.

(** X5: the tracks that [process_video_robust] writes out have pairwise
    distinct identifiers, all of them at least 1. *)
Theorem output_track_ids_distinct (set_iter : gset nat → list nat)
    (video : list (list Robust.Blob * list Robust.Blob))
    (merge_params : Robust.MergeParams) (params : Robust.RobustTrackingParams)
    (out : list Robust.RobustTrack) :
  (∀ s, set_iter s ≡ₚ elements s) →
  Robust.process_video_robust set_iter video merge_params params = Some out →
  NoDup (Robust.track_id <$> out)
  ∧ Forall (λ t, 1 ≤ Robust.track_id t) out.
Proof.
  intros Hiter. unfold Robust.process_video_robust.
  intros (st & Hst & [= <-])%bind_Some.
  eapply process_frames_ids_inv in Hst as (Hnd & _ & Hbound); [|done|].
  2:{ split_and!; simpl; [constructor|lia|constructor]. }
  unfold Robust.complete_tracks. split.
  - by rewrite <- list_fmap_compose.
  - rewrite Forall_fmap. eapply Forall_impl; [exact Hbound|].
    simpl. intros t Ht. lia.
Qed.

(** X5, witness: the blinking video under a skip budget of one frame. *)
Lemma output_track_ids_distinct_witness :
  NoDup (Robust.track_id
           <$> [Robust.set_valid
                  (Robust.update (Robust.new_track 2)
                     (Robust.dark_only_candidate 3 (Inputs.dark_blob_at 5 5))
                     3) false]).
Proof.
  apply (output_track_ids_distinct elements Inputs.blinking_video
           Robust.default_merge_params Inputs.impatient_params).
  - done.
  - reflexivity.
Defined.

(** ** Robust tracker: duration and rest gaps *)

Lemma increasing_frames_span (f : nat) (l : list nat) :
  StronglySorted lt (f :: l) →
  (Z.of_nat (length (f :: l))
   ≤ Z.of_nat (default f (last (f :: l))) - Z.of_nat f + 1)%Z
  ∧ ((Z.of_nat (default f (last (f :: l))) - Z.of_nat f + 1
      = Z.of_nat (length (f :: l)))%Z
     ↔ filter (λ gap : Z, (gap > 1)%Z)
         (zip_with (λ f f', (Z.of_nat f' - Z.of_nat f)%Z) (f :: l) l) = []).
Proof.
  revert f. induction l as [|g l IH]; intros f Hsorted.
  { simpl. split; [lia|]. split; [done|lia]. }
  apply StronglySorted_cons in Hsorted as [Hf Hsorted].
  apply Forall_cons in Hf as [Hfg _].
  destruct (IH g Hsorted) as [Hle Heq].
  assert (Hlast : default f (last (f :: g :: l)) = default g (last (g :: l))).
  { rewrite last_cons_cons. destruct (last (g :: l)) eqn:Hl; [done|].
    by apply last_None in Hl. }
  rewrite Hlast.
  change (zip_with (λ f0 f', (Z.of_nat f' - Z.of_nat f0)%Z) (f :: g :: l)
            (g :: l))
    with ((Z.of_nat g - Z.of_nat f)%Z
          :: zip_with (λ f0 f', (Z.of_nat f' - Z.of_nat f0)%Z) (g :: l) l).
  rewrite filter_cons. simpl length in *.
  split; [lia|].
  destruct (decide (Z.of_nat g - Z.of_nat f > 1)%Z) as [Hgap|Hgap].
  - split; [lia|done].
  - rewrite <- Heq. lia.
Qed.

(** X6: for every track of the active set, the duration (last frame minus
    first frame plus one) is at least the number of detections and at most
    the number of frames processed, and it equals the number of detections
    exactly when the track has no rest gap in its frame history. *)
Theorem active_track_duration (set_iter : gset nat → list nat)
    (merge_params : Robust.MergeParams) (params : Robust.RobustTrackingParams)
    (video : list (list Robust.Blob * list Robust.Blob))
    (st : Robust.TrackerState) (t : Robust.RobustTrack) :
  (∀ s, set_iter s ≡ₚ elements s) →
  Robust.process_frames set_iter merge_params params 0 video initial_state
  = Some st →
  t ∈ Robust.active_tracks st →
  (Z.of_nat (Robust.track_length t) ≤ Robust.total_duration t
   ≤ Z.of_nat (length video))%Z
  ∧ (Robust.total_duration t = Z.of_nat (Robust.track_length t)
     ↔ Robust.rest_periods t = 0).
Proof.
  intros Hiter Hrun Ht.
  pose proof (active_tracks_inv _ _ _ _ _ Hiter Hrun) as Hinv.
  rewrite Forall_forall in Hinv.
  destruct (Hinv t Ht)
    as ((_ & Hne & Hsorted & Hlast & Hcount & _) & _).
  unfold Robust.total_duration, Robust.track_length, Robust.rest_periods.
  destruct (Robust.frames t) as [|f l] eqn:Hframes; [done|].
  destruct (increasing_frames_span f l Hsorted) as [Hle Heq].
  rewrite Hlast in *. simpl default in *. simpl tail.
  split_and!; [done|lia|].
  rewrite Heq. split; [by intros ->|]. apply length_zero_iff_nil.
Qed.

(** X6, witness. *)
Lemma active_track_duration_witness :
  (Z.of_nat (Robust.track_length Inputs.rested_twice)
   ≤ Robust.total_duration Inputs.rested_twice ≤ Z.of_nat 3)%Z
  ∧ (Robust.total_duration Inputs.rested_twice
     = Z.of_nat (Robust.track_length Inputs.rested_twice)
     ↔ Robust.rest_periods Inputs.rested_twice = 0).
Proof.
  apply (active_track_duration elements Robust.default_merge_params
           Robust.default_tracking_params (take 3 Inputs.blinking_video)
           Inputs.rested_state Inputs.rested_twice).
  - done.
  - reflexivity.
  - apply list_elem_of_singleton. reflexivity.
Defined.

(** ** Counting the entries that a set of indices leaves over *)

Lemma enumerate_unused_length_upto {A} (used : gset nat) (l : list A) :
  length (filter (λ ix : nat * A, ix.1 ∉ used) (enumerate l))
  + size (filter (λ i, i < length l) used) = length l.
Proof.
  induction l as [|x l IH] using rev_ind; simpl.
  { replace (filter (λ i, i < 0) used) with (∅ : gset nat); [done|].
    apply set_eq. intros i. rewrite elem_of_filter, elem_of_empty. lia. }
  rewrite enumerate_snoc, filter_app, !length_app. simpl.
  assert (Hsplit : filter (λ i, i < length l + 1) used
                   = filter (λ i, i < length l) used
                     ∪ (if decide (length l ∈ used) then {[length l]} else ∅)).
  { apply set_eq. intros i. rewrite elem_of_union, !elem_of_filter.
    destruct (decide (length l ∈ used)) as [Hin|Hout].
    - rewrite elem_of_singleton. split.
      + intros [Hlt Hi]. destruct (decide (i = length l)); [by right|].
        left. split; [lia|done].
      + intros [[Hlt Hi] | ->]; (split; [lia|done]).
    - rewrite elem_of_empty. split.
      + intros [Hlt Hi]. left. split; [|done].
        destruct (decide (i = length l)) as [->|]; [done|lia].
      + intros [[Hlt Hi] | []]. split; [lia|done]. }
  rewrite Hsplit, size_union.
  2:{ apply elem_of_disjoint. intros i. rewrite elem_of_filter.
      intros [Hlt _]. destruct (decide (length l ∈ used)).
      - rewrite elem_of_singleton. lia.
      - apply not_elem_of_empty. }
  rewrite filter_cons.
  destruct (decide (length l ∈ used)) as [Hin|Hout].
  - rewrite size_singleton, decide_False by (simpl; tauto). simpl. lia.
  - rewrite size_empty, decide_True by done. simpl. lia.
Qed.

Lemma enumerate_unused_length {A} (used : gset nat) (l : list A) :
  (∀ i, i ∈ used → i < length l) →
  length (filter (λ ix : nat * A, ix.1 ∉ used) (enumerate l)) + size used
  = length l.
Proof.
  intros Hused. pose proof (enumerate_unused_length_upto used l) as Hupto.
  replace (filter (λ i, i < length l) used) with used in Hupto; [done|].
  apply set_eq. intros i. rewrite elem_of_filter. naive_solver.
Qed.

Lemma enumerate_unused_empty {A} (used : gset nat) (l : list A) :
  used = ∅ →
  (filter (λ ix : nat * A, ix.1 ∉ used) (enumerate l)).*2 = l.
Proof.
  intros ->. rewrite <- (enumerate_values l) at 2. f_equal.
  induction (enumerate l) as [|ix k IH]; [done|].
  rewrite filter_cons_True by set_solver. by rewrite IH.
Qed.

(** ** Robust tracker: the greedy association *)

(** The greedy loop pairs candidates and tracks one to one, and leaves no
    pair of its list with both sides unclaimed. *)
Lemma claim_pairs_greedy (frame : nat) (cands : list Robust.OrganismCandidate)
    (pairs : list (nat * nat * R)) (st : Robust.MatchState) :
  (∀ p, p ∈ pairs →
        p.1.1 < length cands ∧ p.1.2 < length (Robust.ms_tracks st)) →
  let st' := Robust.claim_pairs frame cands pairs st in
  Robust.matched_candidates st ⊆ Robust.matched_candidates st'
  ∧ Robust.matched_tracks st ⊆ Robust.matched_tracks st'
  ∧ (size (Robust.matched_candidates st) = size (Robust.matched_tracks st) →
     size (Robust.matched_candidates st') = size (Robust.matched_tracks st'))
  ∧ (∀ c, c ∈ Robust.matched_candidates st' →
          c ∈ Robust.matched_candidates st ∨ c < length cands)
  ∧ (∀ t, t ∈ Robust.matched_tracks st' →
          t ∈ Robust.matched_tracks st ∨ t < length (Robust.ms_tracks st))
  ∧ (∀ p, p ∈ pairs →
          p.1.1 ∈ Robust.matched_candidates st'
          ∨ p.1.2 ∈ Robust.matched_tracks st').
Proof.
  revert st. induction pairs as [|[[c_idx t_idx] dist] rest IH];
    intros st Hrange; simpl.
  { split_and!; try done; try tauto. by intros p ?%elem_of_nil. }
  assert (Hhead := Hrange (c_idx, t_idx, dist) ltac:(by left)).
  simpl in Hhead. destruct Hhead as [Hc Ht].
  assert (Hrest : ∀ p, p ∈ rest →
            p.1.1 < length cands ∧ p.1.2 < length (Robust.ms_tracks st))
    by (intros p Hp; apply Hrange; by right).
  case_decide as Hfree.
  - destruct (lookup_lt_is_Some_2 _ _ Ht) as [track ->].
    destruct (lookup_lt_is_Some_2 _ _ Hc) as [cand ->].
    match goal with
    | |- context [Robust.claim_pairs _ _ _ ?s] => set (st1 := s)
    end.
    destruct (IH st1) as (Hmc & Hmt & Hsize & Hcr & Htr & Hall).
    { intros p Hp. simpl. rewrite length_insert. by apply Hrest. }
    simpl in *. rewrite length_insert in Htr.
    destruct Hfree as [Hfc Hft].
    split_and!.
    + set_solver.
    + set_solver.
    + intros Heq. apply Hsize.
      rewrite !size_union, !size_singleton by set_solver. lia.
    + intros c [Hin| ?]%Hcr; [|by right].
      apply elem_of_union in Hin as [->%elem_of_singleton|?]; auto.
    + intros t [Hin| ?]%Htr; [|by right].
      apply elem_of_union in Hin as [->%elem_of_singleton|?]; auto.
    + intros p [->|Hp]%elem_of_cons; [|by apply Hall].
      left. simpl. apply Hmc. set_solver.
  - destruct (IH st Hrest) as (Hmc & Hmt & Hsize & Hcr & Htr & Hall).
    split_and!; try done.
    intros p [->|Hp]%elem_of_cons; [|by apply Hall]. simpl.
    destruct (decide (c_idx ∈ Robust.matched_candidates st)) as [Hin|Hout].
    + left. by apply Hmc.
    + right. apply Hmt.
      destruct (decide (t_idx ∈ Robust.matched_tracks st)); [done|tauto].
Qed.

Lemma greedy_match_spec (cands : list Robust.OrganismCandidate)
    (tracks : list Robust.RobustTrack) (frame : nat)
    (params : Robust.RobustTrackingParams) :
  let st := Robust.greedy_match cands tracks frame params in
  size (Robust.matched_candidates st) = size (Robust.matched_tracks st)
  ∧ (∀ c, c ∈ Robust.matched_candidates st → c < length cands)
  ∧ (∀ t, t ∈ Robust.matched_tracks st → t < length tracks)
  ∧ (∀ p, p ∈ Robust.match_pairs cands tracks params →
          p.1.1 ∈ Robust.matched_candidates st
          ∨ p.1.2 ∈ Robust.matched_tracks st).
Proof.
  unfold Robust.greedy_match.
  match goal with
  | |- context [Robust.claim_pairs _ _ ?ps ?s] =>
      destruct (claim_pairs_greedy frame cands ps s)
        as (_ & _ & Hsize & Hcr & Htr & Hall)
  end.
  { intros p Hp%elem_of_sort_by.
    apply elem_of_match_pairs in Hp as (c & t & Hc & Ht & _).
    simpl. split; by eapply lookup_lt_Some. }
  simpl in *. split_and!.
  - by apply Hsize.
  - intros c [?|?]%Hcr; [set_solver|done].
  - intros t [?|?]%Htr; [set_solver|done].
  - intros p Hp. apply Hall. by apply elem_of_sort_by.
Qed.

Lemma size_below (s : gset nat) (n : nat) :
  (∀ i, i ∈ s → i < n) → size s ≤ n.
Proof.
  intros Hs. pose proof (enumerate_unused_length s (replicate n ())) as Hlen.
  rewrite length_replicate in Hlen. specialize (Hlen Hs). lia.
Qed.

(** X7.  Every candidate of a frame is accounted for: the identifiers handed
    out on the frame are as many as the candidates that no track was matched
    to, the matched tracks being one to one with matched candidates, so that
    their number exceeds neither the number of tracks nor that of the
    candidates. *)
Theorem association_conserves_candidates (set_iter : gset nat → list nat)
    (params : Robust.RobustTrackingParams) (st : Robust.TrackerState)
    (frame : nat) (cands : list Robust.OrganismCandidate) :
  Robust.next_track_id (Robust.associate_frame set_iter params st frame cands)
  + size (matched_on_frame cands (Robust.active_tracks st) frame params)
  = Robust.next_track_id st + length cands
  ∧ size (matched_on_frame cands (Robust.active_tracks st) frame params)
    ≤ length (Robust.active_tracks st)
  ∧ size (matched_on_frame cands (Robust.active_tracks st) frame params)
    ≤ length cands
  ∧ length ((Robust.match_candidates_to_tracks set_iter cands
               (Robust.active_tracks st) frame params).2)
    + size (matched_on_frame cands (Robust.active_tracks st) frame params)
    = length cands.
Proof.
  unfold Robust.associate_frame.
  destruct (Robust.match_candidates_to_tracks set_iter cands
              (Robust.active_tracks st) frame params)
    as [active unmatched] eqn:Hmatch.
  rewrite spawn_tracks_next. cbn [Robust.next_track_id snd].
  unfold Robust.match_candidates_to_tracks, matched_on_frame in *.
  destruct (Robust.active_tracks st) as [|t tracks].
  { simplify_eq. rewrite size_empty. simpl. lia. }
  destruct cands as [|c cands].
  { simplify_eq. rewrite size_empty. simpl. lia. }
  simplify_eq.
  destruct (greedy_match_spec (c :: cands) (t :: tracks) frame params)
    as (Hsize & Hcr & Htr & _).
  pose proof (enumerate_unused_length _ (c :: cands) Hcr) as Hlen.
  pose proof (size_below _ _ Hcr). pose proof (size_below _ _ Htr).
  rewrite length_fmap. rewrite <- Hsize. lia.
Qed.

(** X8.  The greedy association is maximal: a candidate and a track that
    are within the track's reach of each other (the rest-zone radius of a
    resting track, [max_distance] otherwise, against the adjusted distance)
    are never both left unmatched. *)
Theorem association_leaves_no_reachable_pair
    (cands : list Robust.OrganismCandidate) (tracks : list Robust.RobustTrack)
    (frame : nat) (params : Robust.RobustTrackingParams)
    (c_idx t_idx : nat) (c : Robust.OrganismCandidate) (t : Robust.RobustTrack) :
  cands !! c_idx = Some c →
  tracks !! t_idx = Some t →
  (Robust.adjusted_distance c t <= reach params t)%R →
  c_idx ∈ Robust.matched_candidates
            (Robust.greedy_match cands tracks frame params)
  ∨ t_idx ∈ matched_on_frame cands tracks frame params.
Proof.
  intros Hc Ht Hreach.
  destruct (greedy_match_spec cands tracks frame params)
    as (_ & _ & _ & Hall).
  specialize (Hall (c_idx, t_idx, Robust.adjusted_distance c t)).
  simpl in Hall. unfold matched_on_frame.
  destruct tracks as [|t0 tracks]; [done|].
  destruct cands as [|c0 cands]; [done|].
  apply Hall. apply elem_of_match_pairs. by exists c, t.
Qed.

(** X8, witness: a blob 50 pixels away from a track just created. *)
Lemma association_leaves_no_reachable_pair_witness :
  0 ∈ Robust.matched_candidates
        (Robust.greedy_match [Inputs.far_candidate] [Inputs.fresh_track] 1
           Robust.default_tracking_params)
  ∨ 0 ∈ matched_on_frame [Inputs.far_candidate] [Inputs.fresh_track] 1
          Robust.default_tracking_params.
Proof.
  apply (association_leaves_no_reachable_pair [Inputs.far_candidate]
           [Inputs.fresh_track] 1 Robust.default_tracking_params 0 0
           Inputs.far_candidate Inputs.fresh_track).
  - reflexivity.
  - reflexivity.
  - unfold reach, Robust.adjusted_distance. simpl.
    rewrite (euclid_eq _ _ 50) by (simpl; lra). lra.
Defined.

Lemma claim_pairs_candidates_mono (frame : nat)
    (cands : list Robust.OrganismCandidate) (pairs : list (nat * nat * R))
    (st : Robust.MatchState) :
  Robust.matched_candidates st
  ⊆ Robust.matched_candidates (Robust.claim_pairs frame cands pairs st).
Proof.
  revert st. induction pairs as [|[[c_idx t_idx] dist] rest IH]; intros st;
    simpl; [done|].
  case_decide; [|apply IH].
  destruct (Robust.ms_tracks st !! t_idx); [|apply IH].
  destruct (cands !! c_idx); [|apply IH].
  etrans; [|apply IH]. simpl. set_solver.
Qed.

Lemma claim_pairs_app (frame : nat) (cands : list Robust.OrganismCandidate)
    (l1 l2 : list (nat * nat * R)) (st : Robust.MatchState) :
  Robust.claim_pairs frame cands (l1 ++ l2) st
  = Robust.claim_pairs frame cands l2 (Robust.claim_pairs frame cands l1 st).
Proof.
  revert st. induction l1 as [|[[c_idx t_idx] dist] l1 IH]; intros st; simpl;
    [done|].
  case_decide; [|apply IH].
  destruct (Robust.ms_tracks st !! t_idx); [|apply IH].
  destruct (cands !! c_idx); apply IH.
Qed.

(** Pairs that involve neither a given candidate nor a given track leave
    both of them as they are. *)
Lemma claim_pairs_untouched (frame : nat)
    (cands : list Robust.OrganismCandidate) (pairs : list (nat * nat * R))
    (st : Robust.MatchState) (c_idx t_idx : nat) :
  (∀ p, p ∈ pairs → p.1.1 ≠ c_idx ∧ p.1.2 ≠ t_idx) →
  c_idx ∉ Robust.matched_candidates st →
  t_idx ∉ Robust.matched_tracks st →
  let st' := Robust.claim_pairs frame cands pairs st in
  (c_idx ∉ Robust.matched_candidates st')
  ∧ (t_idx ∉ Robust.matched_tracks st')
  ∧ Robust.ms_tracks st' !! t_idx = Robust.ms_tracks st !! t_idx.
Proof.
  revert st. induction pairs as [|[[c' t'] dist] rest IH];
    intros st Hother Hc Ht; simpl; [done|].
  assert (Hhead := Hother (c', t', dist) ltac:(by left)).
  simpl in Hhead. destruct Hhead as [Hc' Ht'].
  assert (Hrest : ∀ p, p ∈ rest → p.1.1 ≠ c_idx ∧ p.1.2 ≠ t_idx)
    by (intros p Hp; apply Hother; by right).
  case_decide; [|by apply IH].
  destruct (Robust.ms_tracks st !! t') as [track|]; [|by apply IH].
  destruct (cands !! c') as [cand|]; [|by apply IH].
  match goal with
  | |- context [Robust.claim_pairs _ _ _ ?s] =>
      destruct (IH s Hrest) as (Hc1 & Ht1 & Hlook)
  end.
  { simpl. set_solver. }
  { simpl. set_solver. }
  split_and!; [done..|]. rewrite Hlook. simpl.
  by apply list_lookup_insert_ne.
Qed.

(** X9.  A candidate and a track that are within the track's reach and
    strictly closer to each other than to any other partner within reach
    are matched to each other: the track comes out of the association
    updated with this candidate. *)
Theorem mutual_nearest_are_matched (set_iter : gset nat → list nat)
    (cands : list Robust.OrganismCandidate) (tracks : list Robust.RobustTrack)
    (frame : nat) (params : Robust.RobustTrackingParams)
    (c_idx t_idx : nat) (c : Robust.OrganismCandidate) (t : Robust.RobustTrack) :
  (∀ s, set_iter s ≡ₚ elements s) →
  cands !! c_idx = Some c →
  tracks !! t_idx = Some t →
  (Robust.adjusted_distance c t <= reach params t)%R →
  (∀ c_idx' c', cands !! c_idx' = Some c' → c_idx' ≠ c_idx →
     (Robust.adjusted_distance c' t <= reach params t)%R →
     (Robust.adjusted_distance c t < Robust.adjusted_distance c' t)%R) →
  (∀ t_idx' t', tracks !! t_idx' = Some t' → t_idx' ≠ t_idx →
     (Robust.adjusted_distance c t' <= reach params t')%R →
     (Robust.adjusted_distance c t < Robust.adjusted_distance c t')%R) →
  Robust.update t c frame
    ∈ (Robust.match_candidates_to_tracks set_iter cands tracks frame params).1
  ∧ t_idx ∈ matched_on_frame cands tracks frame params
  ∧ c_idx ∈ Robust.matched_candidates
              (Robust.greedy_match cands tracks frame params).
Proof.
  intros Hiter Hc Ht Hreach Hcands Htracks.
  set (best := (c_idx, t_idx, Robust.adjusted_distance c t)).
  assert (Hbest : best ∈ sort_by snd (Robust.match_pairs cands tracks params)).
  { apply elem_of_sort_by, elem_of_match_pairs. by exists c, t. }
  apply list_elem_of_split_l in Hbest as (l1 & l2 & Hsplit & Hfirst).
  assert (Hbefore : ∀ p, p ∈ l1 → p.1.1 ≠ c_idx ∧ p.1.2 ≠ t_idx).
  { intros p Hp.
    assert (Hle : (p.2 <= Robust.adjusted_distance c t)%R).
    { pose proof (sort_by_sorted snd (Robust.match_pairs cands tracks params))
        as Hsorted.
      rewrite Hsplit in Hsorted.
      apply (StronglySorted_app_1_elem_of _ _ _ p best) in Hsorted;
        [done|done|by left]. }
    assert (Hin : p ∈ Robust.match_pairs cands tracks params).
    { apply (elem_of_sort_by snd). rewrite Hsplit. set_solver. }
    apply elem_of_match_pairs in Hin as (c' & t' & Hc' & Ht' & Hdist & Hcap).
    destruct p as [[ci ti] dist]. simpl in *.
    destruct (decide (ci = c_idx)) as [->|Hci];
      destruct (decide (ti = t_idx)) as [->|Hti]; simplify_eq.
    - by destruct Hfirst.
    - pose proof (Htracks ti t' Ht' Hti Hcap). lra.
    - pose proof (Hcands ci c' Hc' Hci Hcap). lra.
    - done. }
  assert (Hgreedy :
    Robust.ms_tracks (Robust.greedy_match cands tracks frame params) !! t_idx
    = Some (Robust.update t c frame)
    ∧ t_idx ∈ Robust.matched_tracks
                (Robust.greedy_match cands tracks frame params)
    ∧ c_idx ∈ Robust.matched_candidates
                (Robust.greedy_match cands tracks frame params)).
  { unfold Robust.greedy_match. rewrite Hsplit, claim_pairs_app.
    match goal with
    | |- context [Robust.claim_pairs _ _ l1 ?s] =>
        destruct (claim_pairs_untouched frame cands l1 s c_idx t_idx Hbefore)
          as (Hfc & Hft & Hlook); [set_solver..|];
        set (st1 := Robust.claim_pairs frame cands l1 s) in *
    end.
    simpl in Hlook. rewrite Ht in Hlook. unfold best. simpl.
    rewrite decide_True by done. rewrite Hlook, Hc.
    match goal with
    | |- context [Robust.claim_pairs _ _ l2 ?s] =>
        destruct (claim_pairs_inv frame cands l2 s)
          as (_ & Hsub & _ & Hin & _);
        pose proof (claim_pairs_candidates_mono frame cands l2 s) as Hmc
    end.
    simpl in *. split_and!.
    - rewrite Hin by set_solver. apply list_lookup_insert_eq.
      by eapply lookup_lt_Some.
    - set_solver.
    - set_solver. }
  destruct Hgreedy as (Hlook & Hmt & Hmc).
  unfold Robust.match_candidates_to_tracks, matched_on_frame.
  destruct tracks as [|t0 tracks]; [done|].
  destruct cands as [|c0 cands]; [done|].
  split_and!; [|done..]. cbn [fst].
  apply elem_of_app. right. apply list_elem_of_omap.
  exists t_idx. split; [|done]. rewrite Hiter. by apply elem_of_elements.
Qed.

(** X9, witness: two tracks, created at (5,5) and at (8,49), and two
    candidates, at (8,9) and at (55,5).  The candidate at (8,9) is 5 pixels
    away from the first track, while the other candidate is 50 pixels away
    from that track and the other track 40 pixels away from the candidate,
    both within the reach of 60 pixels. *)
Lemma mutual_nearest_are_matched_witness :
  Robust.update Inputs.fresh_track Inputs.near_candidate 1
    ∈ (Robust.match_candidates_to_tracks elements
         [Inputs.near_candidate; Inputs.far_candidate]
         [Inputs.fresh_track; Inputs.second_track] 1
         Robust.default_tracking_params).1
  ∧ 0 ∈ matched_on_frame [Inputs.near_candidate; Inputs.far_candidate]
          [Inputs.fresh_track; Inputs.second_track] 1
          Robust.default_tracking_params
  ∧ 0 ∈ Robust.matched_candidates
          (Robust.greedy_match [Inputs.near_candidate; Inputs.far_candidate]
             [Inputs.fresh_track; Inputs.second_track] 1
             Robust.default_tracking_params).
Proof.
  assert (Hnear : Robust.adjusted_distance Inputs.near_candidate
                    Inputs.fresh_track = 5%R).
  { unfold Robust.adjusted_distance. simpl.
    apply (euclid_eq (8, 9)%R (5, 5)%R 5); simpl; lra. }
  assert (Hfar : Robust.adjusted_distance Inputs.far_candidate
                   Inputs.fresh_track = 50%R).
  { unfold Robust.adjusted_distance. simpl.
    apply (euclid_eq (55, 5)%R (5, 5)%R 50); simpl; lra. }
  assert (Hsecond : Robust.adjusted_distance Inputs.near_candidate
                      Inputs.second_track = 40%R).
  { unfold Robust.adjusted_distance. simpl.
    apply (euclid_eq (8, 9)%R (8, 49)%R 40); simpl; lra. }
  apply (mutual_nearest_are_matched elements
           [Inputs.near_candidate; Inputs.far_candidate]
           [Inputs.fresh_track; Inputs.second_track] 1
           Robust.default_tracking_params 0 0).
  - done.
  - reflexivity.
  - reflexivity.
  - rewrite Hnear. unfold reach. simpl. lra.
  - intros [|[|k]] c' Hc' Hne Hreach; [done| |done].
    injection Hc' as <-. rewrite Hnear, Hfar. lra.
  - intros [|[|k]] t' Ht' Hne Hreach; [done| |done].
    injection Ht' as <-. rewrite Hnear, Hsecond. lra.
Defined.

(** ** Robust tracker: merging blobs into candidates *)

(** The greedy loop leaves no pair of its list with both blobs unused. *)
Lemma couple_pairs_greedy (frame : nat) (dark bright : list Robust.Blob)
    (pairs : list (nat * nat * R)) (st st' : Robust.MergeState) :
  Robust.couple_pairs frame dark bright pairs st = Some st' →
  Robust.used_dark st ⊆ Robust.used_dark st'
  ∧ Robust.used_bright st ⊆ Robust.used_bright st'
  ∧ (∀ p, p ∈ pairs →
          p.1.1 ∈ Robust.used_dark st' ∨ p.1.2 ∈ Robust.used_bright st').
Proof.
  revert st. induction pairs as [|[[d_idx b_idx] dist] rest IH];
    intros st Hrun; simpl in Hrun.
  { simplify_eq. split_and!; [done..|]. by intros p ?%elem_of_nil. }
  case_decide as Hfree.
  - destruct (dark !! d_idx) as [d|]; [|done].
    destruct (bright !! b_idx) as [b|]; [|done].
    destruct (Robust.coupled_candidate frame d b) as [c|]; [|done].
    simpl in Hrun. apply IH in Hrun as (Hd & Hb & Hall). simpl in *.
    split_and!; [set_solver..|].
    intros p [->|Hp]%elem_of_cons; [|by apply Hall].
    left. simpl. set_solver.
  - apply IH in Hrun as (Hd & Hb & Hall). split_and!; [done..|].
    intros p [->|Hp]%elem_of_cons; [|by apply Hall]. simpl.
    destruct (decide (d_idx ∈ Robust.used_dark st)) as [Hin|Hout].
    + left. by apply Hd.
    + right. apply Hb.
      destruct (decide (b_idx ∈ Robust.used_bright st)); [done|tauto].
Qed.

(** X10.  When no dark blob is within the merge radius of a bright blob (in
    particular when one of the two detectors found nothing), nothing is
    coupled: the merger returns one ['dark_only'] candidate per dark blob
    followed by one ['bright_only'] candidate per bright blob, in input
    order, and it does so whatever the blob areas. *)
Theorem merge_without_neighbours (dark bright : list Robust.Blob) (frame : nat)
    (params : Robust.MergeParams) :
  (∀ d b, d ∈ dark → b ∈ bright →
     (Robust.merge_radius params
      < euclid (Robust.blob_centroid d) (Robust.blob_centroid b))%R) →
  Robust.merge_blobs_into_candidates dark bright frame params
  = Some ((Robust.dark_only_candidate frame <$> dark)
          ++ (Robust.bright_only_candidate frame <$> bright)).
Proof.
  intros Hfar.
  assert (Hnone :
    Robust.blob_pairs dark bright (Robust.merge_radius params) = []).
  { destruct (Robust.blob_pairs dark bright (Robust.merge_radius params))
      as [|p l] eqn:Hpairs; [done|].
    assert (Hp : p ∈ Robust.blob_pairs dark bright (Robust.merge_radius params))
      by (rewrite Hpairs; by left).
    apply elem_of_blob_pairs in Hp as (d & b & Hd & Hb & Hdist & Hle).
    apply list_elem_of_lookup_2 in Hd, Hb.
    pose proof (Hfar d b Hd Hb). lra. }
  assert (Hunused : ∀ l, Robust.unused ∅ l = l)
    by (intros l; by apply enumerate_unused_empty).
  unfold Robust.merge_blobs_into_candidates. rewrite Hnone.
  assert (Hst : match dark, bright with
                | _ :: _, _ :: _ =>
                    Robust.couple_pairs frame dark bright (sort_by snd [])
                      Robust.merge_init
                | _, _ => Some Robust.merge_init
                end = Some Robust.merge_init)
    by (by destruct dark, bright).
  rewrite Hst. unfold Robust.merge_init.
  cbn [mbind option_bind Robust.candidates Robust.used_dark
       Robust.used_bright app].
  by rewrite !Hunused.
Qed.

(** X10, witness: a dark blob at (0,0) and a bright blob at (300,400),
    500 pixels apart, under a merge radius of 80. *)
Lemma merge_without_neighbours_witness :
  Robust.merge_blobs_into_candidates
    [Inputs.dark_blob_at 0 0] [Inputs.bright_blob_at 300 400] 0
    Robust.default_merge_params
  = Some ((Robust.dark_only_candidate 0 <$> [Inputs.dark_blob_at 0 0])
          ++ (Robust.bright_only_candidate 0
                <$> [Inputs.bright_blob_at 300 400])).
Proof.
  apply (merge_without_neighbours
           [Inputs.dark_blob_at 0 0] [Inputs.bright_blob_at 300 400] 0
           Robust.default_merge_params).
  intros d b ->%list_elem_of_singleton ->%list_elem_of_singleton. simpl.
  rewrite (euclid_eq (0, 0)%R (300, 400)%R 500) by (simpl; lra). lra.
Defined.

(** X11.  The coupling is maximal: in the output, a ['dark_only'] and a
    ['bright_only'] candidate are always farther apart than the merge
    radius. *)
Theorem merge_leaves_no_neighbours (dark bright : list Robust.Blob)
    (frame : nat) (params : Robust.MergeParams)
    (out : list Robust.OrganismCandidate)
    (cd cb : Robust.OrganismCandidate) :
  Robust.merge_blobs_into_candidates dark bright frame params = Some out →
  cd ∈ out → cb ∈ out →
  Robust.candidate_type cd = Robust.dark_only →
  Robust.candidate_type cb = Robust.bright_only →
  (Robust.merge_radius params
   < euclid (Robust.centroid cd) (Robust.centroid cb))%R.
Proof.
  unfold Robust.merge_blobs_into_candidates.
  intros Hrun Hcd Hcb Hdark Hbright.
  apply bind_Some in Hrun as (st & Hst & Hout). simplify_eq.
  assert (Hcoupled : Forall (λ c, Robust.candidate_type c = Robust.coupled)
                       (Robust.candidates st)).
  { destruct (merge_state_of_pairs dark bright frame params st Hst)
      as (accepted & Hacc & _).
    clear -Hacc. induction Hacc as [|p c ps cs (d & b & _ & _ & _ & _ & Hc) _ IH];
      constructor; [|done].
    by apply coupled_candidate_Some in Hc as [? _]. }
  rewrite Forall_forall in Hcoupled.
  assert (Hd : ∃ d, cd = Robust.dark_only_candidate frame d
                    ∧ d ∈ Robust.unused (Robust.used_dark st) dark).
  { apply elem_of_app in Hcd as [Hin|Hin].
    { apply Hcoupled in Hin. congruence. }
    apply elem_of_app in Hin as [Hin|Hin].
    - apply list_elem_of_fmap in Hin as (d & -> & Hin). by exists d.
    - apply list_elem_of_fmap in Hin as (b & -> & Hin). done. }
  assert (Hb : ∃ b, cb = Robust.bright_only_candidate frame b
                    ∧ b ∈ Robust.unused (Robust.used_bright st) bright).
  { apply elem_of_app in Hcb as [Hin|Hin].
    { apply Hcoupled in Hin. congruence. }
    apply elem_of_app in Hin as [Hin|Hin].
    - apply list_elem_of_fmap in Hin as (d & -> & Hin). done.
    - apply list_elem_of_fmap in Hin as (b & -> & Hin). by exists b. }
  destruct Hd as (d & -> & Hd), Hb as (b & -> & Hb). simpl.
  apply unused_spec in Hd as (i & Hi & Hfree_d).
  apply unused_spec in Hb as (j & Hj & Hfree_b).
  destruct (Rlt_dec (Robust.merge_radius params)
              (euclid (Robust.blob_centroid d) (Robust.blob_centroid b)))
    as [|Hnear]; [done|].
  exfalso.
  destruct dark as [|d0 dark]; [done|].
  destruct bright as [|b0 bright]; [done|].
  apply couple_pairs_greedy in Hst as (_ & _ & Hall).
  destruct (Hall (i, j, euclid (Robust.blob_centroid d) (Robust.blob_centroid b)))
    as [Hin|Hin]; [|done..].
  apply elem_of_sort_by, elem_of_blob_pairs. exists d, b. simpl.
  split_and!; [done..|lra].
Qed.
Lemma far_blobs_merge :
  Robust.merge_blobs_into_candidates
    [Inputs.dark_blob_at 0 0] [Inputs.bright_blob_at 300 400] 0
    Robust.default_merge_params
  = Some [Robust.dark_only_candidate 0 (Inputs.dark_blob_at 0 0);
          Robust.bright_only_candidate 0 (Inputs.bright_blob_at 300 400)].
Proof.
  unfold Robust.merge_blobs_into_candidates, Robust.blob_pairs. simpl.
  rewrite (euclid_eq _ _ 500) by (simpl; lra).
  rewrite filter_cons, decide_False by (simpl; lra).
  reflexivity.
Qed.

(** X11, witness: a dark blob and a bright blob 500 pixels apart. *)
Lemma merge_leaves_no_neighbours_witness :
  (Robust.merge_radius Robust.default_merge_params
   < euclid
       (Robust.centroid
          (Robust.dark_only_candidate 0 (Inputs.dark_blob_at 0 0)))
       (Robust.centroid
          (Robust.bright_only_candidate 0 (Inputs.bright_blob_at 300 400))))%R.
Proof.
  apply (merge_leaves_no_neighbours
           [Inputs.dark_blob_at 0 0] [Inputs.bright_blob_at 300 400] 0
           Robust.default_merge_params
           [Robust.dark_only_candidate 0 (Inputs.dark_blob_at 0 0);
            Robust.bright_only_candidate 0 (Inputs.bright_blob_at 300 400)]).
  - exact far_blobs_merge.
  - by left.
  - right. by left.
  - reflexivity.
  - reflexivity.
Defined.

(** Reading a list at distinct valid indices and keeping the entries at
    the other indices gives back the list, up to order. *)
Section Picks.
Context {A : Type}.

Lemma enumerate_indices (l : list A) : (enumerate l).*1 = seq 0 (length l).
Proof.
  induction l as [|x l IH] using rev_ind; [done|].
  rewrite enumerate_snoc, fmap_app, IH, length_app. simpl.
  by rewrite Nat.add_1_r, seq_S.
Qed.

Lemma elem_of_enumerate (l : list A) (i : nat) (x : A) :
  (i, x) ∈ enumerate l ↔ l !! i = Some x.
Proof.
  unfold enumerate. rewrite elem_of_lookup_imap. split.
  - intros (j & y & Heq & Hy). by simplify_eq.
  - intros Hx. by exists i, x.
Qed.

Lemma picks_perm (l : list A) (idxs : list nat) :
  NoDup idxs →
  (∀ i, i ∈ idxs → i < length l) →
  omap (λ i, l !! i) idxs
  ++ (filter (λ ix : nat * A, ix.1 ∉ (list_to_set idxs : gset nat))
        (enumerate l)).*2
  ≡ₚ l.
Proof.
  intros Hnd Hvalid.
  set (S := list_to_set idxs : gset nat).
  assert (Hpicked :
    omap (λ i, pair i <$> l !! i) idxs
    ≡ₚ filter (λ ix : nat * A, ix.1 ∈ S) (enumerate l)).
  { apply NoDup_Permutation.
    - clear Hvalid. induction Hnd as [|i idxs Hi Hnd IH]; simpl;
        [constructor|].
      destruct (l !! i) as [x|]; simpl; [|done].
      constructor; [|done].
      intros (j & Hj & Hx)%list_elem_of_omap.
      destruct (l !! j); simplify_eq/=. done.
    - apply NoDup_filter, (NoDup_fmap_1 fst).
      rewrite enumerate_indices. apply NoDup_seq.
    - intros [j y]. rewrite list_elem_of_omap, list_elem_of_filter.
      rewrite elem_of_enumerate. unfold S. simpl.
      rewrite elem_of_list_to_set. split.
      + intros (i & Hi & Hy). destruct (l !! i) eqn:Hl; simplify_eq/=. done.
      + intros [Hj Hy]. exists j. split; [done|]. by rewrite Hy. }
  assert (Hvalues :
    (omap (λ i, pair i <$> l !! i) idxs).*2 = omap (λ i, l !! i) idxs).
  { clear. induction idxs as [|i idxs IH]; [done|]. csimpl.
    destruct (l !! i); csimpl; by rewrite ?IH. }
  rewrite <- Hvalues, Hpicked, <- fmap_app.
  rewrite <- (enumerate_values l) at 3.
  apply fmap_Permutation. apply (filter_app_complement _ (enumerate l)).
Qed.

End Picks.

Lemma dark_only_blobs (frame : nat) (blobs : list Robust.Blob) :
  mjoin (Robust.dark_blobs <$> (Robust.dark_only_candidate frame <$> blobs))
  = blobs
  ∧ mjoin (Robust.bright_blobs
             <$> (Robust.dark_only_candidate frame <$> blobs)) = [].
Proof.
  induction blobs as [|b l [IH1 IH2]]; [done|]. csimpl.
  by rewrite IH1, IH2.
Qed.

Lemma bright_only_blobs (frame : nat) (blobs : list Robust.Blob) :
  mjoin (Robust.bright_blobs <$> (Robust.bright_only_candidate frame <$> blobs))
  = blobs
  ∧ mjoin (Robust.dark_blobs
             <$> (Robust.bright_only_candidate frame <$> blobs)) = [].
Proof.
  induction blobs as [|b l [IH1 IH2]]; [done|]. csimpl.
  by rewrite IH1, IH2.
Qed.

Lemma coupled_blobs (frame : nat) (dark bright : list Robust.Blob) (radius : R)
    (accepted : list (nat * nat * R)) (cs : list Robust.OrganismCandidate) :
  Forall2 (coupled_from frame dark bright radius) accepted cs →
  mjoin (Robust.dark_blobs <$> cs) = omap (λ i, dark !! i) accepted.*1.*1
  ∧ mjoin (Robust.bright_blobs <$> cs)
    = omap (λ j, bright !! j) accepted.*1.*2
  ∧ (∀ i, i ∈ accepted.*1.*1 → i < length dark)
  ∧ (∀ j, j ∈ accepted.*1.*2 → j < length bright).
Proof.
  induction 1 as [|p c ps cs (d & b & Hd & Hb & _ & _ & Hc) _
                    (IHd & IHb & IHi & IHj)]; csimpl.
  { split_and!; [done..| |]; by intros ? ?%elem_of_nil. }
  apply coupled_candidate_Some in Hc as (_ & -> & ->).
  rewrite Hd, Hb, IHd, IHb. csimpl. split_and!; [done..| |].
  - intros i [->|Hi]%elem_of_cons; [by eapply lookup_lt_Some|by apply IHi].
  - intros j [->|Hj]%elem_of_cons; [by eapply lookup_lt_Some|by apply IHj].
Qed.

(** X12.  The merger partitions the blobs: every dark blob and every bright
    blob of the frame is a component of exactly one candidate, so the
    component counts add up to the number of blobs. *)
Theorem merge_partitions_blobs (dark bright : list Robust.Blob) (frame : nat)
    (params : Robust.MergeParams) (out : list Robust.OrganismCandidate) :
  Robust.merge_blobs_into_candidates dark bright frame params = Some out →
  mjoin (Robust.dark_blobs <$> out) ≡ₚ dark
  ∧ mjoin (Robust.bright_blobs <$> out) ≡ₚ bright
  ∧ sum_list (Robust.component_count <$> out) = length dark + length bright.
Proof.
  unfold Robust.merge_blobs_into_candidates. intros Hrun.
  apply bind_Some in Hrun as (st & Hst & Hout). simplify_eq.
  destruct (merge_state_of_pairs dark bright frame params st Hst)
    as (accepted & Hacc & _ & Hnd_d & Hnd_b & Hused_d & Hused_b).
  destruct (coupled_blobs _ _ _ _ _ _ Hacc) as (Hcd & Hcb & Hvd & Hvb).
  assert (Hd : mjoin (Robust.dark_blobs <$>
                 Robust.candidates st
                 ++ (Robust.dark_only_candidate frame
                       <$> Robust.unused (Robust.used_dark st) dark)
                 ++ (Robust.bright_only_candidate frame
                       <$> Robust.unused (Robust.used_bright st) bright))
               ≡ₚ dark).
  { rewrite !fmap_app, !join_app, Hcd.
    rewrite (proj1 (dark_only_blobs _ _)), (proj2 (bright_only_blobs _ _)).
    rewrite app_nil_r, Hused_d. by apply picks_perm. }
  assert (Hb : mjoin (Robust.bright_blobs <$>
                 Robust.candidates st
                 ++ (Robust.dark_only_candidate frame
                       <$> Robust.unused (Robust.used_dark st) dark)
                 ++ (Robust.bright_only_candidate frame
                       <$> Robust.unused (Robust.used_bright st) bright))
               ≡ₚ bright).
  { rewrite !fmap_app, !join_app, Hcb.
    rewrite (proj2 (dark_only_blobs _ _)), (proj1 (bright_only_blobs _ _)).
    rewrite Hused_b. simpl. by apply picks_perm. }
  split_and!; [done..|].
  rewrite <- (Permutation_length Hd), <- (Permutation_length Hb).
  generalize (Robust.candidates st
              ++ (Robust.dark_only_candidate frame
                    <$> Robust.unused (Robust.used_dark st) dark)
              ++ (Robust.bright_only_candidate frame
                    <$> Robust.unused (Robust.used_bright st) bright)).
  intros l. induction l as [|c l IH]; [done|]. csimpl.
  rewrite !length_app, IH. unfold Robust.component_count. lia.
Qed.

(** X12, witness: a dark blob and a bright blob 500 pixels apart. *)
Lemma merge_partitions_blobs_witness :
  mjoin (Robust.dark_blobs <$>
           [Robust.dark_only_candidate 0 (Inputs.dark_blob_at 0 0);
            Robust.bright_only_candidate 0 (Inputs.bright_blob_at 300 400)])
  ≡ₚ [Inputs.dark_blob_at 0 0]
  ∧ mjoin (Robust.bright_blobs <$>
             [Robust.dark_only_candidate 0 (Inputs.dark_blob_at 0 0);
              Robust.bright_only_candidate 0 (Inputs.bright_blob_at 300 400)])
    ≡ₚ [Inputs.bright_blob_at 300 400]
  ∧ sum_list (Robust.component_count <$>
                [Robust.dark_only_candidate 0 (Inputs.dark_blob_at 0 0);
                 Robust.bright_only_candidate 0
                   (Inputs.bright_blob_at 300 400)])
    = length [Inputs.dark_blob_at 0 0]
      + length [Inputs.bright_blob_at 300 400].
Proof.
  apply (merge_partitions_blobs
           [Inputs.dark_blob_at 0 0] [Inputs.bright_blob_at 300 400] 0
           Robust.default_merge_params).
  exact far_blobs_merge.
Defined.

Lemma euclid_nonneg (p q : point) : (0 <= euclid p q)%R.
Proof. apply sqrt_pos. Qed.

Lemma euclid_sqr (p q : point) :
  (euclid p q * euclid p q = (p.1 - q.1) ^ 2 + (p.2 - q.2) ^ 2)%R.
Proof.
  unfold euclid. apply sqrt_sqrt.
  apply Rplus_le_le_0_compat; apply pow2_ge_0.
Qed.

Lemma euclid_sym (p q : point) : euclid p q = euclid q p.
Proof. unfold euclid. f_equal. lra. Qed.

(** The area-weighted mean of two points divides the segment between them
    in the ratio of the weights. *)
Lemma weighted_centroid_distance (p q : point) (a b : R) :
  (0 < a)%R → (0 < b)%R →
  euclid ((p.1 * a + q.1 * b) / (a + b), (p.2 * a + q.2 * b) / (a + b))%R p
  = (b / (a + b) * euclid p q)%R.
Proof.
  intros Ha Hb. pose proof (euclid_nonneg p q) as Hpos.
  pose proof (euclid_sqr p q) as Hsqr.
  assert (Hratio : (0 < b / (a + b))%R) by (apply Rdiv_lt_0_compat; lra).
  apply euclid_eq; [nra|]. simpl.
  replace ((p.1 * a + q.1 * b) / (a + b) - p.1)%R
    with (b / (a + b) * (q.1 - p.1))%R by (field; lra).
  replace ((p.2 * a + q.2 * b) / (a + b) - p.2)%R
    with (b / (a + b) * (q.2 - p.2))%R by (field; lra).
  replace (b / (a + b) * euclid p q * (b / (a + b) * euclid p q))%R
    with (b / (a + b) * (b / (a + b)) * (euclid p q * euclid p q))%R by ring.
  rewrite Hsqr. ring.
Qed.

(** X13.  A ['coupled'] candidate of the merger is made of one dark and one
    bright blob that are at most the merge radius apart, and, the blob areas
    being positive, its centroid lies on the segment between the two blob
    centroids, at the fraction given by the areas. *)
Theorem coupled_centroid_on_segment (dark bright : list Robust.Blob)
    (frame : nat) (params : Robust.MergeParams)
    (out : list Robust.OrganismCandidate) (c : Robust.OrganismCandidate) :
  Forall (λ b, 0 < Robust.blob_area b)%R (dark ++ bright) →
  Robust.merge_blobs_into_candidates dark bright frame params = Some out →
  c ∈ out →
  Robust.candidate_type c = Robust.coupled →
  ∃ d b,
    d ∈ dark ∧ b ∈ bright
    ∧ Robust.dark_blobs c = [d] ∧ Robust.bright_blobs c = [b]
    ∧ (euclid (Robust.blob_centroid d) (Robust.blob_centroid b)
       <= Robust.merge_radius params)%R
    ∧ (euclid (Robust.centroid c) (Robust.blob_centroid d)
       = Robust.blob_area b / Robust.total_area c
         * euclid (Robust.blob_centroid d) (Robust.blob_centroid b))%R
    ∧ (euclid (Robust.centroid c) (Robust.blob_centroid b)
       = Robust.blob_area d / Robust.total_area c
         * euclid (Robust.blob_centroid d) (Robust.blob_centroid b))%R.
Proof.
  unfold Robust.merge_blobs_into_candidates.
  intros Hareas Hrun Hc Htype.
  apply bind_Some in Hrun as (st & Hst & Hout). simplify_eq.
  destruct (merge_state_of_pairs dark bright frame params st Hst)
    as (accepted & Hacc & _).
  assert (Hin : c ∈ Robust.candidates st).
  { apply elem_of_app in Hc as [Hin|Hin]; [done|].
    apply elem_of_app in Hin as [Hin|Hin];
      apply list_elem_of_fmap in Hin as (x & -> & _); done. }
  apply list_elem_of_lookup_1 in Hin as [k Hk].
  destruct (Forall2_lookup_r _ _ _ _ _ Hacc Hk)
    as (p & _ & d & b & Hd & Hb & Hdist & Hle & Hmake).
  apply list_elem_of_lookup_2 in Hd, Hb.
  rewrite Forall_app, !Forall_forall in Hareas.
  destruct Hareas as [Had Hab].
  specialize (Had d Hd). specialize (Hab b Hb). simpl in Had, Hab.
  exists d, b.
  unfold Robust.coupled_candidate in Hmake.
  rewrite decide_False in Hmake by lra. simplify_eq. simpl.
  split_and!; [done..|lra| |].
  - apply weighted_centroid_distance; lra.
  - rewrite (euclid_sym (Robust.blob_centroid d)).
    replace (Robust.blob_area d / (Robust.blob_area d + Robust.blob_area b))%R
      with (Robust.blob_area d / (Robust.blob_area b + Robust.blob_area d))%R
      by (f_equal; lra).
    rewrite <- (weighted_centroid_distance (Robust.blob_centroid b)
                  (Robust.blob_centroid d)) by lra.
    f_equal. f_equal; f_equal; lra.
Qed.

Lemma near_blobs_merge :
  Robust.merge_blobs_into_candidates
    [Inputs.dark_blob_at 0 0] [Inputs.bright_blob_at 3 4] 7
    Robust.default_merge_params
  = Some [Inputs.coupled_pair].
Proof.
  unfold Robust.merge_blobs_into_candidates, Robust.blob_pairs. simpl.
  rewrite (euclid_eq _ _ 5) by (simpl; lra).
  rewrite filter_cons, decide_True by (simpl; lra). simpl.
  rewrite decide_True by set_solver. simpl.
  unfold Robust.coupled_candidate. rewrite decide_False by (simpl; lra).
  simpl. unfold Robust.unused, enumerate. simpl.
  rewrite !filter_cons, !decide_False by set_solver. done.
Qed.

(** X13, witness: a dark blob at (0,0) and a bright blob at (3,4). *)
Lemma coupled_centroid_on_segment_witness :
  ∃ d b,
    d ∈ [Inputs.dark_blob_at 0 0] ∧ b ∈ [Inputs.bright_blob_at 3 4]
    ∧ Robust.dark_blobs Inputs.coupled_pair = [d]
    ∧ Robust.bright_blobs Inputs.coupled_pair = [b]
    ∧ (euclid (Robust.blob_centroid d) (Robust.blob_centroid b)
       <= Robust.merge_radius Robust.default_merge_params)%R
    ∧ (euclid (Robust.centroid Inputs.coupled_pair) (Robust.blob_centroid d)
       = Robust.blob_area b / Robust.total_area Inputs.coupled_pair
         * euclid (Robust.blob_centroid d) (Robust.blob_centroid b))%R
    ∧ (euclid (Robust.centroid Inputs.coupled_pair) (Robust.blob_centroid b)
       = Robust.blob_area d / Robust.total_area Inputs.coupled_pair
         * euclid (Robust.blob_centroid d) (Robust.blob_centroid b))%R.
Proof.
  apply (coupled_centroid_on_segment
           [Inputs.dark_blob_at 0 0] [Inputs.bright_blob_at 3 4] 7
           Robust.default_merge_params [Inputs.coupled_pair]
           Inputs.coupled_pair).
  - repeat constructor; simpl; lra.
  - exact near_blobs_merge.
  - by left.
  - reflexivity.
Defined.

(** ** Motion features: sums, extrema and the triangle inequality *)

Lemma foldl_Rplus (a : R) (l : list R) :
  foldl Rplus a l = (a + Rsum l)%R.
Proof.
  unfold Rsum. revert a. induction l as [|x l IH]; intros a; simpl.
  - lra.
  - rewrite (IH (a + x)%R), (IH (0 + x)%R). lra.
Qed.

Lemma Rsum_cons (x : R) (l : list R) : Rsum (x :: l) = (x + Rsum l)%R.
Proof. unfold Rsum at 1. simpl. rewrite foldl_Rplus. lra. Qed.

Lemma Rsum_nil : Rsum [] = 0%R.
Proof. done. Qed.

Lemma Rsum_app (l k : list R) : Rsum (l ++ k) = (Rsum l + Rsum k)%R.
Proof.
  induction l as [|x l IH]; simpl.
  - rewrite Rsum_nil. lra.
  - rewrite !Rsum_cons, IH. lra.
Qed.

Lemma Rsum_bounds (lo hi : R) (l : list R) :
  Forall (λ x, lo <= x <= hi)%R l →
  (lo * INR (length l) <= Rsum l <= hi * INR (length l))%R.
Proof.
  induction 1 as [|x l Hx _ IH].
  - rewrite Rsum_nil. simpl. lra.
  - rewrite Rsum_cons. cbn [length]. rewrite S_INR. lra.
Qed.

Lemma Rsum_nonneg (l : list R) : Forall (λ x, 0 <= x)%R l → (0 <= Rsum l)%R.
Proof.
  induction 1 as [|x l Hx _ IH].
  - rewrite Rsum_nil. lra.
  - rewrite Rsum_cons. lra.
Qed.

Lemma max_of_spec (x : R) (l : list R) :
  Motion.max_of x l ∈ x :: l
  ∧ Forall (λ y, y <= Motion.max_of x l)%R (x :: l).
Proof.
  unfold Motion.max_of. revert x. induction l as [|y l IH]; intros x; simpl.
  { split; [by left|]. constructor; [lra|constructor]. }
  destruct (IH (Rmax x y)) as [Hin Hall].
  apply Forall_cons in Hall as [Hhead Hall].
  pose proof (Rmax_l x y). pose proof (Rmax_r x y).
  split.
  - apply elem_of_cons in Hin as [Heq|Hin]; [|by do 2 right].
    rewrite Heq. unfold Rmax. destruct (Rle_dec x y); [right|]; by left.
  - constructor; [lra|]. constructor; [lra|done].
Qed.

Lemma min_of_spec (x : R) (l : list R) :
  Motion.min_of x l ∈ x :: l
  ∧ Forall (λ y, Motion.min_of x l <= y)%R (x :: l).
Proof.
  unfold Motion.min_of. revert x. induction l as [|y l IH]; intros x; simpl.
  { split; [by left|]. constructor; [lra|constructor]. }
  destruct (IH (Rmin x y)) as [Hin Hall].
  apply Forall_cons in Hall as [Hhead Hall].
  pose proof (Rmin_l x y). pose proof (Rmin_r x y).
  split.
  - apply elem_of_cons in Hin as [Heq|Hin]; [|by do 2 right].
    rewrite Heq. unfold Rmin. destruct (Rle_dec x y); [|right]; by left.
  - constructor; [lra|]. constructor; [lra|done].
Qed.

Lemma euclid_triangle (p q r : point) :
  (euclid p r <= euclid p q + euclid q r)%R.
Proof.
  assert (Hdist : ∀ a b : point, euclid a b = dist_euc a.1 a.2 b.1 b.2).
  { intros a b. unfold euclid, dist_euc, Rsqr. f_equal. ring. }
  rewrite !Hdist. apply triangle.
Qed.

(** The end-to-end distance of a path is at most its length. *)
Lemma path_length_ge (p0 : point) (ps : list point) :
  (Motion.calculate_distance p0 (default p0 (last (p0 :: ps)))
   <= Rsum (Motion.speeds_of (p0 :: ps)))%R.
Proof.
  unfold Motion.speeds_of, Motion.moves, Motion.calculate_distance.
  assert (Hgen : ∀ q : point,
    (euclid (default q (last (q :: ps))) p0
     <= euclid q p0
        + Rsum ((λ m : point * point, euclid m.2 m.1) <$> zip (q :: ps) ps))%R).
  { induction ps as [|r ps IH]; intros q.
    - simpl. rewrite Rsum_nil. lra.
    - rewrite last_cons_cons. csimpl. rewrite Rsum_cons. simpl.
      specialize (IH r).
      replace (default q (last (r :: ps))) with (default r (last (r :: ps)))
        by (by destruct (last (r :: ps)) eqn:Hl; [|apply last_None in Hl]).
      pose proof (euclid_triangle r q p0).
      simpl in IH. lra. }
  specialize (Hgen p0).
  assert (euclid p0 p0 = 0%R) as Hzero by (apply euclid_eq; simpl; lra).
  simpl in *. lra.
Qed.

Lemma speeds_of_length (positions : list point) :
  length (Motion.speeds_of positions) = length positions - 1.
Proof.
  unfold Motion.speeds_of, Motion.moves.
  rewrite length_fmap, length_zip. destruct positions; cbn [tail length]; lia.
Qed.

Lemma speeds_of_nonneg (positions : list point) :
  Forall (λ s, 0 <= s)%R (Motion.speeds_of positions).
Proof.
  unfold Motion.speeds_of. rewrite Forall_fmap. apply Forall_true.
  intros m. apply euclid_nonneg.
Qed.

Lemma straightness_ratio (positions : list point) :
  let m := Motion.extract_motion_metrics positions in
  (0 <= Motion.displacement m <= Motion.total_distance m)%R
  ∧ (0 <= Motion.straightness_index m <= 1)%R
  ∧ Motion.straightness_index m
    = (if bool_decide (Motion.total_distance m > 0)%R
       then Motion.displacement m / Motion.total_distance m else 0)%R.
Proof.
  unfold Motion.extract_motion_metrics.
  case_bool_decide as Hshort.
  { simpl. rewrite bool_decide_eq_false_2 by lra. lra. }
  destruct positions as [|p0 ps]; [simpl in Hshort; lia|].
  cbn [Motion.displacement Motion.total_distance Motion.straightness_index].
  pose proof (path_length_ge p0 ps) as Hpath.
  assert (Hpos : (0 <= Motion.calculate_distance p0
                         (default p0 (last (p0 :: ps))))%R)
    by apply euclid_nonneg.
  set (disp := Motion.calculate_distance p0 (default p0 (last (p0 :: ps)))) in *.
  set (total := Rsum (Motion.speeds_of (p0 :: ps))) in *.
  split; [lra|].
  case_bool_decide as Htotal; [|lra].
  assert (Hratio : (0 <= disp / total <= 1)%R).
  { pose proof (Rinv_0_lt_compat total Htotal) as Hinv.
    pose proof (Rinv_r total ltac:(lra)) as Hone.
    unfold Rdiv. nra. }
  rewrite Rmin_right by lra. lra.
Qed.

(** X14.  For the metrics extracted from any position history, the
    start-to-end displacement never exceeds the distance travelled, so the
    straightness index is exactly their ratio (0 for a path of length 0):
    it lies in [0, 1], the clamp at 1 is never active, and entries 5
    (straightness) and 7 (displacement ratio) of the feature vector are the
    same number. *)
Theorem straightness_is_displacement_ratio (positions : list point)
    (f : Motion.BehavioralFeatures) :
  let m := Motion.extract_motion_metrics positions in
  (0 <= Motion.displacement m <= Motion.total_distance m)%R
  ∧ (0 <= Motion.straightness_index m <= 1)%R
  ∧ Motion.straightness_index m
    = (if bool_decide (Motion.total_distance m > 0)%R
       then Motion.displacement m / Motion.total_distance m else 0)%R
  ∧ Motion.create_feature_vector m f !! 5
    = Motion.create_feature_vector m f !! 7.
Proof.
  intros m. destruct (straightness_ratio positions) as (Hdisp & Hrange & Hratio).
  fold m in Hdisp, Hrange, Hratio.
  split; [done|]. split; [done|]. split; [done|].
  unfold Motion.create_feature_vector. simpl. f_equal.
  rewrite Hratio. by case_bool_decide.
Qed.

Lemma np_mean_bounds (lo hi : R) (l : list R) :
  l ≠ [] → Forall (λ x, lo <= x <= hi)%R l →
  (lo <= Motion.np_mean l <= hi)%R.
Proof.
  intros Hne Hall. apply Rsum_bounds in Hall. unfold Motion.np_mean.
  assert (Hlen : (0 < INR (length l))%R).
  { apply lt_0_INR. destruct l; [done|simpl; lia]. }
  replace (Rsum l) with (Rsum l / INR (length l) * INR (length l))%R
    in Hall by (field; lra).
  split; apply (Rmult_le_reg_r (INR (length l))); lra.
Qed.

Lemma Rsum_zero (l : list R) :
  Forall (λ x, 0 <= x)%R l → Rsum l = 0%R → Forall (λ x, x = 0%R) l.
Proof.
  induction 1 as [|x l Hx Hl IH]; [constructor|].
  rewrite Rsum_cons. intros Hsum. pose proof (Rsum_nonneg l Hl).
  constructor; [lra|]. apply IH. lra.
Qed.

(** The population standard deviation vanishes exactly on constant lists. *)
Lemma np_std_zero (x : R) (l : list R) :
  Motion.np_std (x :: l) = 0%R ↔ Motion.min_of x l = Motion.max_of x l.
Proof.
  destruct (max_of_spec x l) as [Hmax_in Hmax].
  destruct (min_of_spec x l) as [Hmin_in Hmin].
  set (mean := Motion.np_mean (x :: l)).
  set (squares := (λ y, (y - mean) ^ 2)%R <$> (x :: l)).
  assert (Hsq : Forall (λ s, 0 <= s)%R squares).
  { unfold squares. rewrite Forall_fmap. apply Forall_true.
    intros y. simpl. apply pow2_ge_0. }
  assert (Hlen : (0 < INR (length squares))%R).
  { apply lt_0_INR. unfold squares. rewrite length_fmap. simpl. lia. }
  assert (Hstd : Motion.np_std (x :: l) = sqrt (Rsum squares / INR (length squares)))
    by done.
  rewrite Hstd. split.
  - intros Hzero. apply sqrt_eq_0 in Hzero.
    2:{ pose proof (Rsum_nonneg _ Hsq). pose proof (Rinv_0_lt_compat _ Hlen).
        unfold Rdiv. nra. }
    assert (Hsum : Rsum squares = 0%R).
    { pose proof (Rinv_0_lt_compat _ Hlen) as Hinv.
      pose proof (Rinv_r (INR (length squares)) ltac:(lra)) as Hone.
      unfold Rdiv in Hzero. pose proof (Rsum_nonneg _ Hsq). nra. }
    pose proof (Rsum_zero _ Hsq Hsum) as Hall.
    unfold squares in Hall. rewrite Forall_fmap, Forall_forall in Hall.
    assert (Heq : ∀ y, y ∈ x :: l → y = mean).
    { intros y Hy. specialize (Hall y Hy). simpl in Hall. nra. }
    by rewrite (Heq _ Hmin_in), (Heq _ Hmax_in).
  - intros Heq.
    assert (Hconst : Forall (λ y, Motion.max_of x l <= y <= Motion.max_of x l)%R
                       (x :: l)).
    { rewrite Forall_forall in *. intros y Hy.
      specialize (Hmax y Hy). specialize (Hmin y Hy).
      rewrite Heq in Hmin. simpl in *. lra. }
    pose proof (np_mean_bounds _ _ (x :: l) ltac:(done) Hconst) as Hmean.
    fold mean in Hmean.
    assert (Hall : Forall (λ s, s = 0%R) squares).
    { unfold squares. rewrite Forall_fmap, Forall_forall.
      rewrite Forall_forall in Hconst.
      intros y Hy. specialize (Hconst y Hy). simpl in *.
      replace y with mean by lra. ring. }
    assert (Hsum : Rsum squares = 0%R).
    { clear -Hall. induction Hall as [|s k -> _ IH]; [done|].
      rewrite Rsum_cons, IH. lra. }
    rewrite Hsum. unfold Rdiv. rewrite Rmult_0_l. apply sqrt_0.
Qed.

(** X15.  The speed statistics of the extracted metrics are consistent:
    the minimum, mean and maximum step speeds are in this order and
    non-negative, the distance travelled is the mean speed times the number
    of steps, and the standard deviation is non-negative and vanishes
    exactly when all steps have the same speed. *)
Theorem speed_statistics_consistent (positions : list point) :
  let m := Motion.extract_motion_metrics positions in
  (0 <= Motion.min_speed m <= Motion.mean_speed m)%R
  ∧ (Motion.mean_speed m <= Motion.max_speed m)%R
  ∧ Motion.total_distance m
    = (Motion.mean_speed m * INR (length positions - 1))%R
  ∧ (0 <= Motion.speed_std m)%R
  ∧ (Motion.speed_std m = 0%R ↔ Motion.min_speed m = Motion.max_speed m).
Proof.
  unfold Motion.extract_motion_metrics.
  case_bool_decide as Hshort.
  { simpl. split_and!; [lra..|done]. }
  cbn [Motion.min_speed Motion.mean_speed Motion.max_speed
       Motion.total_distance Motion.speed_std].
  pose proof (speeds_of_length positions) as Hlen.
  pose proof (speeds_of_nonneg positions) as Hpos.
  rewrite <- Hlen.
  destruct (Motion.speeds_of positions) as [|s l] eqn:Hspeeds;
    [simpl in Hlen; lia|].
  destruct (max_of_spec s l) as [Hmax_in Hmax].
  destruct (min_of_spec s l) as [Hmin_in Hmin].
  assert (Hbounds : Forall (λ y, Motion.min_of s l <= y <= Motion.max_of s l)%R
                      (s :: l)).
  { rewrite Forall_forall in *. intros y Hy.
    specialize (Hmax y Hy). specialize (Hmin y Hy). simpl in *. lra. }
  pose proof (np_mean_bounds _ _ (s :: l) ltac:(done) Hbounds) as Hmean.
  rewrite Forall_forall in Hpos. pose proof (Hpos _ Hmin_in) as Hmin_pos.
  split_and!; [lra..| | |].
  - unfold Motion.np_mean.
    assert (INR (length (s :: l)) ≠ 0%R).
    { apply not_0_INR. simpl. lia. }
    by field.
  - apply sqrt_pos.
  - apply np_std_zero.
Qed.

(** ** Motion features: rest periods and bursts *)

Lemma rest_periods_from_spec (resting : list bool) (current_rest : nat) :
  sum_list (Motion.rest_periods_from resting current_rest)
  = current_rest + length (filter (λ b, b = true) resting)
  ∧ Forall (λ n, 0 < n) (Motion.rest_periods_from resting current_rest)
  ∧ 2 * length (Motion.rest_periods_from resting current_rest)
    ≤ length resting + (if decide (0 < current_rest) then 2 else 1).
Proof.
  revert current_rest.
  induction resting as [|[] rest IH]; intros current_rest;
    cbn [Motion.rest_periods_from].
  - rewrite filter_nil. case_decide; simpl; split_and!; try lia;
      repeat constructor; lia.
  - destruct (IH (S current_rest)) as (Hsum & Hpos & Hlen).
    rewrite filter_cons_True by done. cbn [length].
    rewrite decide_True in Hlen by lia.
    split_and!; [lia|done|]. case_decide; lia.
  - rewrite filter_cons_False by done. cbn [length]. case_decide.
    + destruct (IH 0) as (Hsum & Hpos & Hlen).
      rewrite decide_False in Hlen by lia. simpl in *.
      split_and!; [lia|by constructor|lia].
    + destruct (IH current_rest) as (Hsum & Hpos & Hlen).
      rewrite decide_False in Hlen by done.
      split_and!; [lia|done|lia].
Qed.

Lemma bursts_from_spec (threshold : R) (speeds current_burst : list R) :
  Forall (λ s, s > threshold)%R current_burst →
  let bursts := Motion.bursts_from threshold speeds current_burst in
  Forall (λ b, b ≠ [] ∧ Forall (λ s, s > threshold)%R b) bursts
  ∧ sum_list (length <$> bursts)
    = length current_burst + length (filter (λ s, s > threshold)%R speeds)
  ∧ 2 * length bursts
    ≤ length speeds + (match current_burst with [] => 1 | _ :: _ => 2 end).
Proof.
  revert current_burst.
  induction speeds as [|s rest IH]; intros current_burst Hcur;
    cbn [Motion.bursts_from].
  - rewrite filter_nil. destruct current_burst as [|c cs]; simpl.
    + split_and!; [constructor|done|lia].
    + split_and!; [|lia|lia]. constructor; [by split|constructor].
  - case_bool_decide as Hfast.
    + rewrite filter_cons_True by done.
      destruct (IH (current_burst ++ [s])) as (Hall & Hsum & Hlen).
      { apply Forall_app. split; [done|by constructor]. }
      rewrite length_app in Hsum. cbn [length] in *.
      split_and!; [done|lia|].
      destruct current_burst; cbn [app length] in *; lia.
    + rewrite filter_cons_False by done.
      destruct current_burst as [|c cs].
      * destruct (IH [] Hcur) as (Hall & Hsum & Hlen). cbn [length] in *.
        split_and!; [done|lia|lia].
      * destruct (IH [] ltac:(constructor)) as (Hall & Hsum & Hlen).
        csimpl. cbn [length] in *. split_and!; [|lia|lia].
        constructor; [|done]. by split.
Qed.

(** X16.  Rest periods and bursts of the extracted metrics: the resting
    frames are the steps slower than 2 pixels per frame, each rest period
    has at least one of them, and, periods and bursts being separated by at
    least one other step, a history of [n] positions has at most [n / 2]
    rest periods and at most [n / 2] bursts. *)
Theorem rest_and_burst_counts (positions : list point) :
  let m := Motion.extract_motion_metrics positions in
  Motion.total_rest_frames m
  = Z.of_nat (length (filter (λ s, s < 2)%R (Motion.speeds_of positions)))
  ∧ (0 ≤ Motion.rest_count m ≤ Motion.total_rest_frames m)%Z
  ∧ (Motion.total_rest_frames m ≤ Z.of_nat (length positions - 1))%Z
  ∧ (2 * Motion.rest_count m ≤ Z.of_nat (length positions))%Z
  ∧ (0 ≤ 2 * Motion.burst_count m ≤ Z.of_nat (length positions))%Z.
Proof.
  unfold Motion.extract_motion_metrics.
  pose proof (speeds_of_length positions) as Hlen.
  case_bool_decide as Hshort.
  { simpl. destruct (Motion.speeds_of positions); [|simpl in Hlen; lia].
    simpl. lia. }
  cbn [Motion.total_rest_frames Motion.rest_count Motion.burst_count].
  match goal with
  | |- context [Motion.rest_periods_from ?r 0] =>
      destruct (rest_periods_from_spec r 0) as (Hsum & Hpos & Hruns);
      set (periods := Motion.rest_periods_from r 0) in *
  end.
  match goal with
  | |- context [Motion.bursts_from ?thr ?sp []] =>
      destruct (bursts_from_spec thr sp [] ltac:(constructor))
        as (_ & _ & Hbursts);
      set (bursts := Motion.bursts_from thr sp []) in *
  end.
  rewrite length_fmap in Hruns. simpl in Hruns, Hbursts, Hsum.
  assert (Hcount :
    length (filter (λ b, b = true)
              ((λ s, bool_decide (s < 2)%R) <$> Motion.speeds_of positions))
    = length (filter (λ s, s < 2)%R (Motion.speeds_of positions))).
  { clear. induction (Motion.speeds_of positions) as [|s l IH]; [done|].
    csimpl. rewrite !filter_cons.
    destruct (decide (s < 2)%R) as [Hs|Hs].
    - rewrite bool_decide_eq_true_2, decide_True by done. simpl. by rewrite IH.
    - rewrite bool_decide_eq_false_2, decide_False by done. done. }
  rewrite Hcount in Hsum.
  assert (Hfilter : length (filter (λ s, s < 2)%R (Motion.speeds_of positions))
                    ≤ length (Motion.speeds_of positions))
    by apply length_filter.
  assert (Hperiods : length periods ≤ sum_list periods).
  { clear -Hpos. induction Hpos as [|n l Hn _ IH]; simpl; lia. }
  split_and!; lia.
Qed.

Lemma burst_count_bound (positions : list point) :
  (2 * Motion.burst_count (Motion.extract_motion_metrics positions)
   ≤ Z.of_nat (length positions))%Z.
Proof.
  unfold Motion.extract_motion_metrics.
  case_bool_decide as Hshort; [simpl; lia|].
  cbn [Motion.burst_count].
  match goal with
  | |- context [Motion.bursts_from ?thr ?sp []] =>
      destruct (bursts_from_spec thr sp [] ltac:(constructor))
        as (_ & _ & Hbursts)
  end.
  rewrite speeds_of_length in Hbursts. simpl in Hbursts. lia.
Qed.

(** X17.  A history classified as darting has at least six positions:
    the three bursts that the rule asks for are separated by slower steps. *)
Theorem darting_needs_six_positions (positions : list point) :
  (Motion.classify_trajectory (Motion.extract_motion_metrics positions)).1
  = Motion.DARTING →
  6 ≤ length positions.
Proof.
  intros Hdarting.
  assert (Hrule : Motion.darting_rule (Motion.extract_motion_metrics positions)).
  { unfold Motion.classify_trajectory in Hdarting.
    repeat case_decide; simpl in Hdarting; try discriminate. done. }
  destruct Hrule as [Hbursts _].
  pose proof (burst_count_bound positions). lia.
Qed.

Lemma darting_walk_speeds :
  Motion.speeds_of Inputs.darting_walk = [10; 1; 10; 1; 10]%R.
Proof.
  unfold Motion.speeds_of, Motion.moves, Motion.calculate_distance,
    Inputs.darting_walk. simpl.
  rewrite (euclid_eq (10, 0)%R (0, 0)%R 10) by (simpl; lra).
  rewrite (euclid_eq (11, 0)%R (10, 0)%R 1) by (simpl; lra).
  rewrite (euclid_eq (21, 0)%R (11, 0)%R 10) by (simpl; lra).
  rewrite (euclid_eq (22, 0)%R (21, 0)%R 1) by (simpl; lra).
  rewrite (euclid_eq (32, 0)%R (22, 0)%R 10) by (simpl; lra).
  done.
Qed.

Lemma darting_walk_classified :
  (Motion.classify_trajectory
     (Motion.extract_motion_metrics Inputs.darting_walk)).1
  = Motion.DARTING.
Proof.
  assert (Hmean : Motion.np_mean [10; 1; 10; 1; 10]%R = 6.4%R).
  { unfold Motion.np_mean, Rsum. simpl. lra. }
  unfold Motion.classify_trajectory.
  rewrite decide_False.
  2:{ unfold Motion.stationary_rule, Motion.extract_motion_metrics.
      rewrite bool_decide_eq_false_2 by (simpl; lia).
      cbn [Motion.mean_speed]. rewrite darting_walk_speeds, Hmean. lra. }
  rewrite decide_True; [done|].
  unfold Motion.darting_rule, Motion.extract_motion_metrics.
  rewrite bool_decide_eq_false_2 by (simpl; lia).
  cbn [Motion.burst_count Motion.rest_count].
  rewrite darting_walk_speeds, Hmean.
  unfold Motion.burst_threshold_of.
  rewrite bool_decide_eq_true_2 by lra.
  cbn [Motion.bursts_from]. csimpl.
  repeat first [ rewrite bool_decide_eq_true_2 by lra
               | rewrite bool_decide_eq_false_2 by lra ].
  simpl. lia.
Qed.

(** X17, witness: steps of 10, 1, 10, 1 and 10 pixels. *)
Lemma darting_needs_six_positions_witness : 6 ≤ length Inputs.darting_walk.
Proof.
  apply (darting_needs_six_positions Inputs.darting_walk).
  exact darting_walk_classified.
Defined.

(** ** Motion features: the two entry points of the extractor *)

Lemma default_metrics_stationary :
  Motion.classify_trajectory Motion.default_metrics
  = (Motion.STATIONARY, 0.9%R).
Proof.
  unfold Motion.classify_trajectory. rewrite decide_True; [done|].
  unfold Motion.stationary_rule. simpl. lra.
Qed.

Lemma feature_vector_length (m : Motion.MotionMetrics)
    (f : Motion.BehavioralFeatures) :
  length (Motion.create_feature_vector m f) = 20.
Proof. done. Qed.

(** X18.  The two entry points of the extractor agree on a history of two
    or more positions (same metrics, behavioural features and feature
    vector) and disagree on a single position: read from a results file it
    is reported as a stationary shellfish at rest, with a feature vector of
    20 entries, whereas [process_from_positions] reports unknown trajectory
    and organism, not at rest, with an empty feature vector. *)
Theorem entry_points_on_short_histories (id : Z) (source : string)
    (entries : list Motion.PositionEntry) :
  let positions := (λ e, (Motion.entry_x e, Motion.entry_y e)) <$> entries in
  let direct := Motion.process_from_positions id positions source in
  match Motion.process_track_data id (Some source) entries with
  | None => entries = []
  | Some from_file =>
      Motion.centroid_history from_file = positions
      ∧ Motion.motion_metrics from_file
        = Motion.extract_motion_metrics positions
      ∧ length (Motion.feature_vector from_file) = 20
      ∧ if bool_decide (length entries < 2) then
          Motion.motion_metrics from_file = Motion.default_metrics
          ∧ Motion.motion_metrics direct = Motion.default_metrics
          ∧ Motion.trajectory_type (Motion.behavioral_features from_file)
            = "stationary"%string
          ∧ Motion.inferred_organism (Motion.behavioral_features from_file)
            = "shellfish"%string
          ∧ Motion.is_resting (Motion.behavioral_features from_file) = true
          ∧ Motion.trajectory_type (Motion.behavioral_features direct)
            = "unknown"%string
          ∧ Motion.inferred_organism (Motion.behavioral_features direct)
            = "unknown"%string
          ∧ Motion.is_resting (Motion.behavioral_features direct) = false
          ∧ Motion.feature_vector direct = []
        else
          Motion.motion_metrics direct = Motion.motion_metrics from_file
          ∧ Motion.behavioral_features direct
            = Motion.behavioral_features from_file
          ∧ Motion.feature_vector direct = Motion.feature_vector from_file
  end.
Proof.
  intros positions direct. unfold Motion.process_track_data.
  destruct entries as [|e [|e2 entries]]; [done| |].
  - subst positions direct. unfold Motion.process_from_positions.
    cbn [imap fmap list_fmap length].
    rewrite !bool_decide_eq_true_2 by lia.
    assert (Hm : Motion.extract_motion_metrics
                   [(Motion.entry_x e, Motion.entry_y e)]
                 = Motion.default_metrics).
    { unfold Motion.extract_motion_metrics.
      by rewrite bool_decide_eq_true_2 by (simpl; lia). }
    cbn [Motion.centroid_history Motion.motion_metrics Motion.feature_vector
         Motion.behavioral_features].
    rewrite Hm, default_metrics_stationary. done.
  - subst positions direct. unfold Motion.process_from_positions.
    cbn [imap fmap list_fmap length].
    rewrite !bool_decide_eq_false_2 by lia. done.
Qed.

(** ** Motion features: behavioural flags *)

Lemma classified_linear (m : Motion.MotionMetrics) :
  (Motion.classify_trajectory m).1 = Motion.LINEAR → Motion.linear_rule m.
Proof.
  unfold Motion.classify_trajectory.
  repeat case_decide; simpl; intros; try discriminate; done.
Qed.

(** X19.  The patrolling flag is never raised by the extractor: it asks for
    a linear trajectory of straightness below 0.5, and a trajectory is
    classified linear only with a straightness above 0.7. *)
Theorem patrolling_never_reported (id : Z) (positions : list point)
    (source : string) (m : Motion.MotionMetrics) :
  Motion.is_patrolling
    (Motion.calculate_behavioral_features m (Motion.classify_trajectory m).1)
  = false
  ∧ Motion.is_patrolling
      (Motion.behavioral_features
         (Motion.process_from_positions id positions source))
    = false.
Proof.
  assert (Hnever : ∀ m', Motion.is_patrolling
            (Motion.calculate_behavioral_features m'
               (Motion.classify_trajectory m').1) = false).
  { intros m'. simpl.
    destruct (decide ((Motion.classify_trajectory m').1 = Motion.LINEAR))
      as [Hlinear|Hother].
    - apply classified_linear in Hlinear as [Hstraight _].
      rewrite (bool_decide_eq_false_2 (_ < 0.5)%R) by lra.
      apply andb_false_r.
    - by rewrite (bool_decide_eq_false_2 _ Hother). }
  split; [apply Hnever|].
  unfold Motion.process_from_positions.
  case_bool_decide; [done|]. apply Hnever.
Qed.

(** X20.  The behavioural flags agree with the inferred organism: a track
    is flagged as resting exactly when it is inferred to be a shellfish, a
    fleeing track is always inferred to be a fast fish, a foraging track is
    never inferred to be a shellfish or a slow fish, and a crab always has a
    meandering or darting trajectory, a mean speed between 2 and 15 and at
    least two rest periods. *)
Theorem flags_agree_with_organism (m : Motion.MotionMetrics)
    (trajectory : Motion.TrajectoryType) :
  let f := Motion.calculate_behavioral_features m trajectory in
  (Motion.is_resting f = true
   ↔ Motion.inferred_organism f = "shellfish"%string)
  ∧ (Motion.is_fleeing f = true
     → Motion.inferred_organism f = "fish_fast"%string)
  ∧ (Motion.is_foraging f = true
     → Motion.inferred_organism f ≠ "shellfish"%string
       ∧ Motion.inferred_organism f ≠ "fish_slow"%string)
  ∧ (Motion.inferred_organism f = "crab"%string
     → (trajectory = Motion.MEANDERING ∨ trajectory = Motion.DARTING)
       ∧ (2 < Motion.mean_speed m < 15)%R
       ∧ (Motion.rest_count m >= 2)%Z).
Proof.
  simpl. unfold Motion.infer_organism_type.
  destruct trajectory; simpl;
    repeat (case_bool_decide; simpl);
    split_and!; try done; try lra; try lia; try tauto;
    try (intros; split_and!; first [done|lra|lia|tauto|by left|by right]).
Qed.

(** ** Motion features: the feature vector *)

Lemma Rmin_one_range (x : R) : (0 <= x)%R → (0 <= Rmin 1 x <= 1)%R.
Proof. intros Hx. unfold Rmin. destruct (Rle_dec 1 x); lra. Qed.

Lemma Rdiv_nonneg (a b : R) : (0 <= a)%R → (0 < b)%R → (0 <= a / b)%R.
Proof.
  intros Ha Hb. pose proof (Rinv_0_lt_compat b Hb). unfold Rdiv. nra.
Qed.

Lemma np_mean_nonneg (l : list R) :
  Forall (λ x, 0 <= x)%R l → (0 <= Motion.np_mean l)%R.
Proof.
  intros Hall. unfold Motion.np_mean. destruct l as [|x l].
  - rewrite Rsum_nil. unfold Rdiv. lra.
  - apply Rdiv_nonneg; [by apply Rsum_nonneg|].
    apply lt_0_INR. simpl. lia.
Qed.

Lemma organism_map_range (name : string) :
  (0 <= Motion.organism_map name <= 1)%R.
Proof. unfold Motion.organism_map. repeat case_decide; lra. Qed.

(** Signs and bounds of the extracted metrics that the feature vector
    relies on. *)
Lemma extracted_metrics_signs (positions : list point) :
  let m := Motion.extract_motion_metrics positions in
  (0 <= Motion.mean_speed m)%R ∧ (0 <= Motion.max_speed m)%R
  ∧ (0 <= Motion.speed_std m)%R ∧ (0 <= Motion.total_distance m)%R
  ∧ (0 <= Motion.mean_acceleration m)%R
  ∧ (0 <= Motion.mean_rest_duration m)%R
  ∧ (0 ≤ Motion.burst_count m)%Z ∧ (0 ≤ Motion.rest_count m)%Z
  ∧ (0 ≤ Motion.direction_changes m)%Z
  ∧ (0 ≤ Motion.total_rest_frames m ≤ Motion.total_frames m)%Z.
Proof.
  unfold Motion.extract_motion_metrics.
  case_bool_decide as Hshort.
  { simpl. split_and!; first [lra|lia]. }
  cbn [Motion.mean_speed Motion.max_speed Motion.speed_std
       Motion.total_distance Motion.mean_acceleration
       Motion.mean_rest_duration Motion.burst_count Motion.rest_count
       Motion.direction_changes Motion.total_rest_frames Motion.total_frames].
  pose proof (speeds_of_length positions) as Hlen.
  pose proof (speeds_of_nonneg positions) as Hpos.
  match goal with
  | |- context [Motion.rest_periods_from ?r 0] =>
      destruct (rest_periods_from_spec r 0) as (Hsum & Hperiods & _);
      set (periods := Motion.rest_periods_from r 0) in *
  end.
  assert (Hfilter : ∀ l : list bool, length (filter (λ b, b = true) l) ≤ length l)
    by (intros l; apply length_filter).
  specialize (Hfilter ((λ s, bool_decide (s < 2)%R) <$> Motion.speeds_of positions)).
  rewrite length_fmap in Hfilter.
  split_and!.
  - destruct (Motion.speeds_of positions); [lra|by apply np_mean_nonneg].
  - destruct (Motion.speeds_of positions) as [|s l]; [lra|].
    destruct (max_of_spec s l) as [_ Hmax].
    apply Forall_cons in Hmax as [Hs _]. apply Forall_cons in Hpos as [? _].
    lra.
  - destruct (Motion.speeds_of positions); [lra|apply sqrt_pos].
  - by apply Rsum_nonneg.
  - case_bool_decide; [|lra]. apply np_mean_nonneg.
    unfold Motion.accelerations_of.
    apply Forall_forall. intros a Ha.
    apply elem_of_lookup_zip_with in Ha as (i & x & y & -> & _).
    apply Rabs_pos.
  - destruct periods; [lra|]. apply np_mean_nonneg.
    rewrite Forall_fmap. apply Forall_true. intros k. apply pos_INR.
  - lia.
  - lia.
  - case_bool_decide; lia.
  - lia.
  - lia.
Qed.

(** X21.  The feature vector of a track processed from its positions is
    normalised as follows: every entry is non-negative, every entry but the
    first three (mean speed, maximum speed and speed deviation, which are
    scaled but not clamped) is at most 1, and entries 9 and 15 are both the
    regularity score. *)
Theorem feature_vector_ranges (positions : list point) :
  let m := Motion.extract_motion_metrics positions in
  let f := Motion.calculate_behavioral_features m
             (Motion.classify_trajectory m).1 in
  let v := Motion.create_feature_vector m f in
  length v = 20
  ∧ Forall (λ x, 0 <= x)%R v
  ∧ Forall (λ x, x <= 1)%R (drop 3 v)
  ∧ v !! 9 = Some (Motion.regularity_score f)
  ∧ v !! 15 = Some (Motion.regularity_score f).
Proof.
  intros m f v.
  destruct (extracted_metrics_signs positions)
    as (Hmean & Hmax & Hstd & Htotal & Hacc & Hrest & Hbursts & Hrests
        & Hturns & Hframes).
  destruct (straightness_ratio positions) as (_ & Hstraight & Hratio).
  fold m in Hmean, Hmax, Hstd, Htotal, Hacc, Hrest, Hbursts, Hrests, Hturns,
    Hframes, Hstraight, Hratio.
  assert (Hden : (1 <= IZR (Z.max 1 (Motion.total_frames m)))%R)
    by (apply IZR_le; lia).
  assert (Hregular : (0 <= Motion.regularity_score f <= 1)%R).
  { unfold f, Motion.calculate_behavioral_features.
    cbn [Motion.regularity_score].
    destruct (bool_decide (Motion.mean_speed m > 0)%R) eqn:Hmoving; [|lra].
    apply bool_decide_eq_true in Hmoving.
    pose proof (Rdiv_nonneg _ _ Hstd Hmoving).
    unfold Rmax. destruct (Rle_dec _ _); lra. }
  assert (Hactivity : (0 <= Motion.activity_level f <= 1)%R).
  { unfold f, Motion.calculate_behavioral_features.
    cbn [Motion.activity_level]. apply Rmin_one_range, Rdiv_nonneg; lra. }
  assert (Hexplore : (0 <= Motion.exploration_score f <= 1)%R).
  { unfold f, Motion.calculate_behavioral_features.
    cbn [Motion.exploration_score]. apply Rmin_one_range, Rdiv_nonneg; lra. }
  assert (Hrest_ratio :
    (0 <= IZR (Motion.total_rest_frames m)
          / IZR (Z.max 1 (Motion.total_frames m)) <= 1)%R).
  { assert (IZR (Motion.total_rest_frames m)
            <= IZR (Z.max 1 (Motion.total_frames m)))%R by (apply IZR_le; lia).
    assert (0 <= IZR (Motion.total_rest_frames m))%R by (apply IZR_le; lia).
    split; [apply Rdiv_nonneg; lra|].
    apply (Rmult_le_reg_r (IZR (Z.max 1 (Motion.total_frames m)))); [lra|].
    replace (IZR (Motion.total_rest_frames m)
             / IZR (Z.max 1 (Motion.total_frames m))
             * IZR (Z.max 1 (Motion.total_frames m)))%R
      with (IZR (Motion.total_rest_frames m)) by (field; lra).
    lra. }
  assert (Hburst_ratio :
    (0 <= IZR (Motion.burst_count m)
          / IZR (Z.max 1 (Motion.total_frames m)) * 100)%R).
  { assert (0 <= IZR (Motion.burst_count m))%R by (apply IZR_le; lia).
    pose proof (Rdiv_nonneg (IZR (Motion.burst_count m))
                  (IZR (Z.max 1 (Motion.total_frames m)))).
    lra. }
  assert (Hturns' : (0 <= IZR (Motion.direction_changes m))%R)
    by (apply IZR_le; lia).
  assert (Hrests' : (0 <= IZR (Motion.rest_count m))%R)
    by (apply IZR_le; lia).
  assert (Hframes' : (0 <= IZR (Motion.total_frames m))%R)
    by (apply IZR_le; lia).
  assert (Hforaging : (0 <= (if Motion.is_foraging f then 1 else 0) <= 1)%R)
    by (destruct (Motion.is_foraging f); lra).
  pose proof (organism_map_range (Motion.inferred_organism f)) as Horganism.
  assert (Hseven :
    (0 <= (if bool_decide (Motion.total_distance m > 0)%R
           then Motion.displacement m / Motion.total_distance m else 0)
     <= 1)%R) by (rewrite <- Hratio; lra).
  pose proof (Rmin_one_range _ (Rdiv_nonneg _ 20 Hmean ltac:(lra))).
  pose proof (Rmin_one_range _ Hburst_ratio).
  pose proof (Rmin_one_range _ (Rdiv_nonneg _ 20 Hturns' ltac:(lra))).
  pose proof (Rmin_one_range _ (Rdiv_nonneg _ 10 Hacc ltac:(lra))).
  pose proof (Rmin_one_range _ (Rdiv_nonneg _ 10 Hrests' ltac:(lra))).
  pose proof (Rmin_one_range _ (Rdiv_nonneg _ 30 Hrest ltac:(lra))).
  pose proof (Rmin_one_range _ (Rdiv_nonneg _ 160 Hframes' ltac:(lra))).
  pose proof (Rmin_one_range _ (Rdiv_nonneg _ 2000 Htotal ltac:(lra))).
  pose proof (Rdiv_nonneg _ 30 Hmean ltac:(lra)).
  pose proof (Rdiv_nonneg _ 60 Hmax ltac:(lra)).
  pose proof (Rdiv_nonneg _ 15 Hstd ltac:(lra)).
  unfold v, Motion.create_feature_vector.
  split; [done|]. split; [|split; [|done]].
  - repeat (apply Forall_cons; split; [lra|]). by apply Forall_nil.
  - cbn [drop]. repeat (apply Forall_cons; split; [lra|]). by apply Forall_nil.
Qed.

(** ** Motion features: directions and turns *)

Lemma atan2_range (y x : R) : (- PI <= Motion.atan2 y x <= PI)%R.
Proof.
  pose proof PI_RGT_0 as Hpi. pose proof (atan_bound (y / x)) as Hbound.
  unfold Motion.atan2. repeat case_decide; try lra.
  - assert (Hquot : (y / x <= 0)%R).
    { pose proof (Rinv_lt_0_compat x ltac:(lra)). unfold Rdiv. nra. }
    assert (atan (y / x) <= 0)%R.
    { destruct Hquot as [Hneg|Hzero].
      - pose proof (atan_increasing _ _ Hneg) as Hlt.
        rewrite atan_0 in Hlt. lra.
      - rewrite Hzero, atan_0. lra. }
    lra.
  - assert (Hquot : (0 < y / x)%R).
    { pose proof (Rinv_lt_0_compat x ltac:(lra)). unfold Rdiv. nra. }
    pose proof (atan_increasing _ _ Hquot) as Hlt.
    rewrite atan_0 in Hlt. lra.
Qed.

Lemma angle_difference_sym (a1 a2 : R) :
  Motion.angle_difference a1 a2 = Motion.angle_difference a2 a1.
Proof. unfold Motion.angle_difference. by rewrite (Rabs_minus_sym a1 a2). Qed.

Lemma angle_difference_range (a1 a2 : R) :
  (- PI <= a1 <= PI)%R → (- PI <= a2 <= PI)%R →
  (0 <= Motion.angle_difference a1 a2 <= PI)%R.
Proof.
  intros H1 H2. unfold Motion.angle_difference.
  pose proof (Rabs_pos (a1 - a2)).
  assert (Rabs (a1 - a2) <= 2 * PI)%R
    by (unfold Rabs; destruct (Rcase_abs _); lra).
  case_bool_decide; lra.
Qed.

Lemma directions_of_spec (positions : list point) :
  Forall (λ a, - PI <= a <= PI)%R (Motion.directions_of positions)
  ∧ length (Motion.directions_of positions) ≤ length positions - 1.
Proof.
  unfold Motion.directions_of. split.
  - rewrite Forall_fmap. apply Forall_true. intros mv. apply atan2_range.
  - rewrite length_fmap, <- speeds_of_length. unfold Motion.speeds_of.
    rewrite length_fmap. apply length_filter.
Qed.

(** X22.  Turns of the extracted metrics: every change of direction is
    measured in [0, pi] (the wrap-around is folded back), so that the mean
    and the maximum direction change are in this order within [0, pi], and
    a history of [n] positions has at most [n - 2] significant turns. *)
Theorem direction_changes_bounded (positions : list point) :
  let m := Motion.extract_motion_metrics positions in
  Forall (λ c, 0 <= c <= PI)%R
    (Motion.direction_changes_of (Motion.directions_of positions))
  ∧ (0 <= Motion.mean_direction_change m)%R
  ∧ (Motion.mean_direction_change m <= Motion.max_direction_change m)%R
  ∧ (Motion.max_direction_change m <= PI)%R
  ∧ (0 ≤ Motion.direction_changes m ≤ Z.of_nat (length positions - 2))%Z.
Proof.
  destruct (directions_of_spec positions) as [Hdirs Hlen].
  assert (Hchanges : Forall (λ c, 0 <= c <= PI)%R
            (Motion.direction_changes_of (Motion.directions_of positions))).
  { unfold Motion.direction_changes_of. apply Forall_forall. intros c Hc.
    apply elem_of_lookup_zip_with in Hc as (i & a1 & a2 & -> & Ha1 & Ha2).
    rewrite Forall_forall in Hdirs.
    apply angle_difference_range; apply Hdirs.
    - by eapply list_elem_of_lookup_2.
    - apply list_elem_of_lookup_2 in Ha2.
      destruct (Motion.directions_of positions); [done|]. by right. }
  assert (Hcount : length (Motion.direction_changes_of
                             (Motion.directions_of positions))
                   = length (Motion.directions_of positions) - 1).
  { unfold Motion.direction_changes_of. rewrite length_zip_with.
    destruct (Motion.directions_of positions); cbn [tail length]; lia. }
  pose proof PI_RGT_0 as Hpi.
  split; [done|].
  unfold Motion.extract_motion_metrics.
  case_bool_decide as Hshort; [simpl; split_and!; first [lra|lia]|].
  cbn [Motion.mean_direction_change Motion.max_direction_change
       Motion.direction_changes].
  case_bool_decide as Hturns; [|split_and!; first [lra|lia]].
  destruct (Motion.direction_changes_of (Motion.directions_of positions))
    as [|c l] eqn:Heq; [simpl in Hcount; lia|].
  destruct (max_of_spec c l) as [Hmax_in Hmax].
  rewrite Forall_forall in Hchanges.
  pose proof (Hchanges _ Hmax_in) as Hmax_range.
  assert (Hbounds : Forall (λ y, 0 <= y <= Motion.max_of c l)%R (c :: l)).
  { rewrite Forall_forall in *. intros y Hy.
    specialize (Hmax y Hy). specialize (Hchanges y Hy). simpl in *. lra. }
  pose proof (np_mean_bounds _ _ (c :: l) ltac:(done) Hbounds) as Hmean.
  pose proof (length_filter (λ x, x > PI / 4)%R (c :: l)) as Hfilter.
  split_and!; [lra..|lia|lia].
Qed.

(** ** Unified tracker: intersection over union *)

(** The integer side of [calculate_iou]: an intersection that is not empty
    is at most as wide and as high as each box. *)
Lemma intersection_area_bounds (x1 w1 x2 w2 y1 h1 y2 h2 : Z) :
  let iw := (Z.min (x1 + w1) (x2 + w2) - Z.max x1 x2)%Z in
  let ih := (Z.min (y1 + h1) (y2 + h2) - Z.max y1 y2)%Z in
  (0 < iw)%Z → (0 < ih)%Z →
  (0 < iw * ih ∧ iw * ih ≤ w1 * h1 ∧ iw * ih ≤ w2 * h2)%Z
  ∧ ((w1 * h1 + w2 * h2 - iw * ih = iw * ih)%Z →
     x1 = x2 ∧ w1 = w2 ∧ y1 = y2 ∧ h1 = h2).
Proof.
  intros iw ih Hw Hh.
  assert (Hiw1 : (iw ≤ w1)%Z) by (unfold iw; lia).
  assert (Hiw2 : (iw ≤ w2)%Z) by (unfold iw; lia).
  assert (Hih1 : (ih ≤ h1)%Z) by (unfold ih; lia).
  assert (Hih2 : (ih ≤ h2)%Z) by (unfold ih; lia).
  assert (Ha1 : (iw * ih ≤ w1 * h1)%Z) by nia.
  assert (Ha2 : (iw * ih ≤ w2 * h2)%Z) by nia.
  split; [split_and!; [nia|done|done]|].
  intros Heq.
  assert (Hw1 : iw = w1) by nia. assert (Hh1 : ih = h1) by nia.
  assert (Hw2 : iw = w2) by nia. assert (Hh2 : ih = h2) by nia.
  unfold iw, ih in *. lia.
Qed.

(** X23.  [calculate_iou] is symmetric and always in [0, 1]; it is positive
    exactly when the two boxes overlap on both axes, and it is 1 exactly
    when the two boxes are the same box of positive width and height. *)
Theorem calculate_iou_spec (bbox1 bbox2 : box) :
  Unified.calculate_iou bbox1 bbox2 = Unified.calculate_iou bbox2 bbox1
  ∧ (0 <= Unified.calculate_iou bbox1 bbox2 <= 1)%R
  ∧ ((0 < Unified.calculate_iou bbox1 bbox2)%R ↔
     let '(x1, y1, w1, h1) := bbox1 in
     let '(x2, y2, w2, h2) := bbox2 in
     (Z.max x1 x2 < Z.min (x1 + w1) (x2 + w2))%Z
     ∧ (Z.max y1 y2 < Z.min (y1 + h1) (y2 + h2))%Z)
  ∧ (Unified.calculate_iou bbox1 bbox2 = 1%R ↔
     bbox1 = bbox2
     ∧ let '(_, _, w1, h1) := bbox1 in (0 < w1 ∧ 0 < h1)%Z).
Proof.
  destruct bbox1 as [[[x1 y1] w1] h1], bbox2 as [[[x2 y2] w2] h2].
  split.
  { unfold Unified.calculate_iou.
    rewrite (Z.max_comm x2 x1), (Z.max_comm y2 y1).
    rewrite (Z.min_comm (x2 + w2)), (Z.min_comm (y2 + h2)).
    rewrite (Z.add_comm (w2 * h2)). done. }
  unfold Unified.calculate_iou.
  pose proof (intersection_area_bounds x1 w1 x2 w2 y1 h1 y2 h2) as Hinter.
  simpl in Hinter.
  set (xi1 := Z.max x1 x2) in *. set (yi1 := Z.max y1 y2) in *.
  set (xi2 := Z.min (x1 + w1) (x2 + w2)) in *.
  set (yi2 := Z.min (y1 + h1) (y2 + h2)) in *.
  destruct (bool_decide (xi2 ≤ xi1)%Z) eqn:Hx.
  { apply bool_decide_eq_true in Hx. simpl.
    split_and!; try lra.
    - split; [lra|lia].
    - split; [lra|]. intros [[= -> -> -> ->] [Hw Hh]]. unfold xi1, xi2 in Hx. lia. }
  apply bool_decide_eq_false in Hx.
  destruct (bool_decide (yi2 ≤ yi1)%Z) eqn:Hy.
  { apply bool_decide_eq_true in Hy. simpl.
    split_and!; try lra.
    - split; [lra|lia].
    - split; [lra|]. intros [[= -> -> -> ->] [Hw Hh]]. unfold yi1, yi2 in Hy. lia. }
  apply bool_decide_eq_false in Hy. simpl.
  destruct Hinter as [(Hpos & Ha1 & Ha2) Hsame]; [lia..|].
  set (inter := ((xi2 - xi1) * (yi2 - yi1))%Z) in *.
  set (union := (w1 * h1 + w2 * h2 - inter)%Z) in *.
  assert (Hunion : (inter ≤ union)%Z) by (unfold union; lia).
  rewrite bool_decide_eq_true_2 by lia.
  assert (Hinter_R : (0 < IZR inter)%R) by (apply IZR_lt; lia).
  assert (Hunion_R : (IZR inter <= IZR union)%R) by (apply IZR_le; lia).
  assert (Hratio : (0 < IZR inter / IZR union <= 1)%R).
  { split.
    - apply Rdiv_lt_0_compat; lra.
    - apply (Rmult_le_reg_r (IZR union)); [lra|].
      replace (IZR inter / IZR union * IZR union)%R with (IZR inter)
        by (field; lra).
      lra. }
  split_and!; try lra.
  - split; [lia|lra].
  - split.
    + intros Hone.
      assert (Heq : IZR inter = IZR union).
      { replace (IZR inter) with (IZR inter / IZR union * IZR union)%R
          by (field; lra).
        rewrite Hone. lra. }
      apply eq_IZR in Heq.
      destruct Hsame as (-> & -> & -> & ->); [unfold union in Heq; lia|].
      split; [done|]. unfold xi1, xi2, yi1, yi2 in *. lia.
    + intros [[= <- <- <- <-] [Hw Hh]].
      assert (Heq : union = inter).
      { unfold union, inter, xi1, xi2, yi1, yi2.
        rewrite !Z.max_id, !Z.min_id. lia. }
      rewrite Heq. field. lra.
Qed.

(** ** Unified tracker: track summaries *)

Lemma filter_length_pos {A} (P : A → Prop) `{!∀ x, Decision (P x)}
    (l : list A) :
  0 < length (filter P l) ↔ ∃ x, x ∈ l ∧ P x.
Proof.
  split.
  - destruct (filter P l) as [|x k] eqn:Hf; simpl; [lia|]. intros _.
    assert (Hx : x ∈ filter P l) by (rewrite Hf; by left).
    apply list_elem_of_filter in Hx as [? ?]. by exists x.
  - intros (x & Hx & HP).
    assert (Hin : x ∈ filter P l) by by apply list_elem_of_filter.
    destruct (filter P l); [by apply elem_of_nil in Hin|simpl; lia].
Qed.

(** X24.  The quality of a unified track depends on the share of fused
    detections only: HIGH when more than half of its detections are fused,
    LOW when none is, MEDIUM otherwise; the test on a share above 0.2 never
    decides. *)
Theorem track_quality_by_fused_share (t : Unified.UnifiedTrack) :
  let fused :=
    length (filter (λ s, s = Unified.BOTH_FUSED) (Unified.sources t)) in
  let n := length (Unified.sources t) in
  (Unified.get_track_quality t = "HIGH"%string ↔ n < 2 * fused)
  ∧ (Unified.get_track_quality t = "MEDIUM"%string
     ↔ 0 < fused ∧ 2 * fused ≤ n)
  ∧ (Unified.get_track_quality t = "LOW"%string ↔ fused = 0).
Proof.
  intros fused n. unfold Unified.get_track_quality. fold fused.
  assert (Hle : fused ≤ n) by apply length_filter.
  assert (Hany : Unified.BOTH_FUSED ∈ Unified.sources t ↔ 0 < fused).
  { unfold fused. rewrite filter_length_pos. naive_solver. }
  assert (Hratio : ∀ x : R,
    (match Unified.sources t with
     | [] => 0
     | _ :: _ => INR fused / INR (length (Unified.sources t))
     end > x)%R
    ↔ (0 < n ∧ (INR fused > x * INR n)%R) ∨ (n = 0 ∧ (0 > x)%R)).
  { intros x. fold n. unfold n at 1.
    destruct (Unified.sources t) as [|s l] eqn:Hs.
    - unfold n. simpl. split.
      + intros Hx. right. by split.
      + intros [[Hn _]|[_ Hx]]; [lia|lra].
    - assert (Hn : (0 < INR n)%R) by (apply lt_0_INR; unfold n; simpl; lia).
      fold n. split.
      + intros Hgt. left. split; [unfold n; simpl; lia|].
        apply (Rmult_gt_compat_r (INR n)) in Hgt; [|lra].
        replace (INR fused / INR n * INR n)%R with (INR fused) in Hgt
          by (field; lra).
        done.
      + intros [[_ Hgt]|[Hzero _]]; [|unfold n in Hzero; simpl in Hzero; lia].
        apply (Rmult_gt_reg_r (INR n)); [lra|].
        replace (INR fused / INR n * INR n)%R with (INR fused)
          by (field; lra).
        done. }
  assert (Hhalf : ∀ a b : nat, (INR a > 0.5 * INR b)%R ↔ b < 2 * a).
  { intros a b. split.
    - intros Hgt. apply INR_lt. rewrite mult_INR. simpl. lra.
    - intros Hlt. apply lt_INR in Hlt. rewrite mult_INR in Hlt.
      simpl in Hlt. lra. }
  case_bool_decide as Hhigh.
  { apply Hratio in Hhigh as [[_ Hhigh]|[_ ?]]; [|lra].
    apply Hhalf in Hhigh. split_and!; split; try done; lia. }
  assert (Hlow_share : ¬ n < 2 * fused).
  { intros Hlt. apply Hhigh, Hratio. left. split.
    - lia.
    - by apply Hhalf. }
  destruct (decide (0 < fused)) as [Hsome|Hnone].
  - rewrite (bool_decide_eq_true_2 (_ ∈ _)) by by apply Hany.
    rewrite orb_true_r. split_and!; split; try done; lia.
  - rewrite (bool_decide_eq_false_2 (_ ∈ _)) by (rewrite Hany; lia).
    rewrite (bool_decide_eq_false_2 (_ > 0.2)%R).
    2:{ rewrite Hratio. intros [[Hn Hgt]|[_ ?]]; [|lra].
        replace fused with 0 in Hgt by lia. simpl in Hgt.
        apply lt_0_INR in Hn. nra. }
    simpl. split_and!; split; try done; lia.
Qed.

(** ** The trackers' own statistics and the extracted metrics *)

Lemma speeds_of_step_distances (positions : list point) :
  Motion.speeds_of positions = step_distances positions.
Proof.
  unfold Motion.speeds_of, Motion.moves, step_distances,
    Motion.calculate_distance.
  generalize (tail positions). induction positions as [|p ps IH];
    intros [|q qs]; csimpl; try done.
  by rewrite IH, euclid_sym.
Qed.

(** X25.  The metrics that the feature extractor computes from the
    positions of a track agree with the tracker's own figures: their
    displacement and mean speed are the unified tracker's [displacement]
    and [avg_speed], and their total distance is the robust tracker's
    [displacement] of a track with the same positions.  The unified
    displacement (first to last position) is therefore never more than the
    robust one (the length of the path) on the same positions. *)
Theorem metrics_agree_with_trackers (u : Unified.UnifiedTrack)
    (r : Robust.RobustTrack) :
  let m := Motion.extract_motion_metrics (Unified.positions u) in
  Motion.displacement m = Unified.displacement u
  ∧ Motion.mean_speed m = Unified.avg_speed u
  ∧ (Unified.displacement u <= Motion.total_distance m)%R
  ∧ (Robust.positions r = Unified.positions u →
     Robust.displacement r = Motion.total_distance m
     ∧ Robust.avg_speed r = Motion.mean_speed m
     ∧ (Unified.displacement u <= Robust.displacement r)%R).
Proof.
  intros m.
  destruct (straightness_ratio (Unified.positions u)) as ([_ Hpath] & _).
  fold m in Hpath.
  assert (Hdisp : Motion.displacement m = Unified.displacement u).
  { unfold m, Motion.extract_motion_metrics, Unified.displacement.
    destruct (Unified.positions u) as [|p0 [|p1 ps]]; try done. }
  assert (Htotal : Motion.total_distance m
                   = if bool_decide (length (Unified.positions u) < 2) then 0%R
                     else Rsum (step_distances (Unified.positions u))).
  { unfold m, Motion.extract_motion_metrics.
    case_bool_decide; [done|]. simpl. by rewrite speeds_of_step_distances. }
  assert (Hmean : Motion.mean_speed m = Unified.avg_speed u).
  { unfold m, Motion.extract_motion_metrics, Unified.avg_speed.
    case_bool_decide as Hshort; [done|]. cbn [Motion.mean_speed].
    pose proof (speeds_of_length (Unified.positions u)) as Hlen.
    destruct (Motion.speeds_of (Unified.positions u)) as [|s l] eqn:Hs;
      [simpl in Hlen; lia|].
    unfold Motion.np_mean. by rewrite Hlen, <- Hs, speeds_of_step_distances. }
  split; [done|]. split; [done|]. split; [by rewrite <- Hdisp|].
  intros Hsame.
  assert (Hrobust : Robust.displacement r = Motion.total_distance m).
  { unfold Robust.displacement. by rewrite Hsame, Htotal. }
  split; [done|]. split; [|rewrite Hrobust, <- Hdisp; done].
  unfold Robust.avg_speed. rewrite Hrobust, Hmean, Hsame, Htotal.
  unfold Unified.avg_speed. by case_bool_decide.
Qed.

(** X25, witness: a unified and a robust track going back and forth
    between (0,0) and (10,0) over five positions. *)
Lemma metrics_agree_with_trackers_witness :
  let m := Motion.extract_motion_metrics
             (Unified.positions Inputs.zigzag) in
  Robust.displacement Inputs.robust_zigzag = Motion.total_distance m
  ∧ Robust.avg_speed Inputs.robust_zigzag = Motion.mean_speed m
  ∧ (Unified.displacement Inputs.zigzag
     <= Robust.displacement Inputs.robust_zigzag)%R.
Proof.
  intros m.
  destruct (metrics_agree_with_trackers Inputs.zigzag Inputs.robust_zigzag)
    as (_ & _ & _ & Hrobust).
  apply Hrobust. reflexivity.
Defined.

(** ** Unified tracker: association and the frame loop *)

Lemma unified_claim_pairs_inv (dets : list Unified.UnifiedDetection)
    (pairs : list (nat * nat * R)) (st : Unified.MatchState) :
  let st' := Unified.claim_pairs dets pairs st in
  length (Unified.ms_tracks st') = length (Unified.ms_tracks st)
  ∧ Unified.matched_tracks st ⊆ Unified.matched_tracks st'
  ∧ (∀ t_idx, t_idx ∉ Unified.matched_tracks st' →
       Unified.ms_tracks st' !! t_idx = Unified.ms_tracks st !! t_idx)
  ∧ (∀ t_idx, t_idx ∈ Unified.matched_tracks st →
       Unified.ms_tracks st' !! t_idx = Unified.ms_tracks st !! t_idx)
  ∧ (∀ t_idx, t_idx ∈ Unified.matched_tracks st' →
       t_idx ∉ Unified.matched_tracks st →
       ∃ t d, Unified.ms_tracks st !! t_idx = Some t ∧ d ∈ dets
              ∧ Unified.ms_tracks st' !! t_idx = Some (Unified.update t d))
  ∧ (∀ d_idx, d_idx ∈ Unified.matched_detections st' →
       d_idx ∈ Unified.matched_detections st ∨ d_idx < length dets).
Proof.
  revert st. induction pairs as [|[[d_idx t_idx] dist] rest IH]; intros st;
    simpl.
  { split_and!; try done. intros; by left. }
  case_decide as Hfree; [|apply IH].
  destruct (Unified.ms_tracks st !! t_idx) as [track|] eqn:Htrack; [|apply IH].
  destruct (dets !! d_idx) as [det|] eqn:Hdet; [|apply IH].
  destruct Hfree as [_ Hfree].
  match goal with
  | |- context [Unified.claim_pairs _ _ ?s] => set (st1 := s)
  end.
  destruct (IH st1) as (Hlen & Hsub & Hout & Hin & Hnew & Hdets). simpl in *.
  assert (Hlt : t_idx < length (Unified.ms_tracks st))
    by by eapply lookup_lt_Some.
  split_and!.
  - by rewrite Hlen, length_insert.
  - set_solver.
  - intros t Ht. rewrite Hout by done.
    apply list_lookup_insert_ne. set_solver.
  - intros t Ht. rewrite Hin by set_solver.
    apply list_lookup_insert_ne. set_solver.
  - intros t Ht Hfresh. destruct (decide (t = t_idx)) as [->|Hne].
    + exists track, det. split_and!; [done|by eapply list_elem_of_lookup_2|].
      rewrite Hin by set_solver. by apply list_lookup_insert_eq.
    + destruct (Hnew t Ht) as (t0 & d & Ht0 & Hd & Hupd); [set_solver|].
      exists t0, d. split_and!; try done.
      by rewrite list_lookup_insert_ne in Ht0.
  - intros d [Hd|Hd]%Hdets; [|by right].
    apply elem_of_union in Hd as [->%elem_of_singleton|Hd]; [|by left].
    right. by eapply lookup_lt_Some.
Qed.

Lemma unified_age_unmatched_is_Some (params : Unified.UnifiedTrackingParams)
    (t : Unified.UnifiedTrack) :
  Unified.positions t ≠ [] → is_Some (Unified.age_unmatched params t).
Proof.
  intros Hne. unfold Unified.age_unmatched. cbn [Unified.is_resting
    Unified.frames_since_detection].
  case_bool_decide; [|done]. destruct (Unified.is_resting t); [done|].
  unfold Unified.enter_rest_mode. cbn [Unified.positions].
  destruct (last (Unified.positions t)) eqn:Hlast; [done|].
  by apply last_None in Hlast.
Qed.

Lemma unified_collect_tracks_spec (params : Unified.UnifiedTrackingParams)
    (matched : gset nat) (l : list (nat * Unified.UnifiedTrack)) :
  (∀ it, it ∈ l → it.1 ∉ matched → Unified.positions it.2 ≠ []) →
  ∃ out,
    Unified.collect_tracks params matched l = Some out
    ∧ ∀ t', t' ∈ out →
        ∃ it, it ∈ l
              ∧ ((it.1 ∈ matched ∧ t' = it.2)
                 ∨ ((it.1 ∉ matched)
                    ∧ Unified.age_unmatched params it.2 = Some (Some t'))).
Proof.
  induction l as [|[t_idx track] l IH]; intros Hhist; simpl.
  { exists []. split; [done|]. by intros ? ?%elem_of_nil. }
  destruct IH as (out & -> & Hout).
  { intros it Hit. apply Hhist. by right. }
  assert (Hrest : ∀ t', t' ∈ out →
            ∃ it, it ∈ (t_idx, track) :: l
                  ∧ ((it.1 ∈ matched ∧ t' = it.2)
                     ∨ ((it.1 ∉ matched)
                        ∧ Unified.age_unmatched params it.2 = Some (Some t')))).
  { intros t' (it & Hit & Hcase)%Hout. exists it. split; [by right|done]. }
  case_decide as Hmatched; simpl.
  - exists (track :: out). split; [done|].
    intros t' [->|Ht']%elem_of_cons; [|by apply Hrest].
    exists (t_idx, track). split; [by left|]. by left.
  - destruct (unified_age_unmatched_is_Some params track) as [aged Haged].
    { by apply (Hhist (t_idx, track)); [left|]. }
    rewrite Haged. simpl. destruct aged as [track'|].
    + exists (track' :: out). split; [done|].
      intros t' [->|Ht']%elem_of_cons; [|by apply Hrest].
      exists (t_idx, track). split; [by left|]. by right.
    + exists out. split; [done|]. apply Hrest.
Qed.

(** The association returns as soon as every track has a position; each
    track it returns is a track that came in, either updated with one of the
    detections or aged, and the detections it leaves over are detections
    that came in. *)
Lemma unified_match_spec (dets : list Unified.UnifiedDetection)
    (tracks : list Unified.UnifiedTrack)
    (params : Unified.UnifiedTrackingParams) :
  Forall (λ t, Unified.positions t ≠ []) tracks →
  ∃ updated unmatched,
    Unified.match_detections_to_tracks dets tracks params
    = Some (updated, unmatched)
    ∧ (∀ d, d ∈ unmatched → d ∈ dets)
    ∧ ∀ t', t' ∈ updated →
        ∃ t, t ∈ tracks
             ∧ ((∃ d, d ∈ dets ∧ t' = Unified.update t d)
                ∨ Unified.age_unmatched params t = Some (Some t')).
Proof.
  intros Hhist. rewrite Forall_forall in Hhist.
  unfold Unified.match_detections_to_tracks.
  destruct tracks as [|t0 tracks].
  { exists [], dets. split_and!; [done..|]. by intros ? ?%elem_of_nil. }
  destruct dets as [|d0 dets].
  { destruct (unified_collect_tracks_spec params ∅ (enumerate (t0 :: tracks)))
      as (out & -> & Hout).
    { intros [i t] Hit%elem_of_enumerate _. apply Hhist.
      by eapply list_elem_of_lookup_2. }
    exists out, []. split_and!; [done..|].
    intros t' ([i t] & Hit%elem_of_enumerate & [[Hin _]|[_ Hage]])%Hout;
      [set_solver|].
    exists t. split; [by eapply list_elem_of_lookup_2|by right]. }
  set (sorted := sort_by _ (d0 :: dets)).
  assert (Hsorted : ∀ d, d ∈ sorted → d ∈ d0 :: dets).
  { intros d. unfold sorted.
    apply (elem_of_sort_by (λ d, INR (Unified.source_priority
                                        (Unified.source d))) d (d0 :: dets)). }
  set (pairs := sort_by snd _).
  set (st0 := {| Unified.ms_tracks := t0 :: tracks;
                 Unified.matched_detections := ∅;
                 Unified.matched_tracks := ∅ |}).
  destruct (unified_claim_pairs_inv sorted pairs st0)
    as (Hlen & _ & Hout & _ & Hnew & _).
  set (st := Unified.claim_pairs sorted pairs st0) in *.
  simpl in Hout, Hnew.
  destruct (unified_collect_tracks_spec params (Unified.matched_tracks st)
              (enumerate (Unified.ms_tracks st))) as (out & -> & Hcollect).
  { intros [i t] Hit%elem_of_enumerate Hfree. simpl in *.
    rewrite Hout in Hit by done. apply Hhist.
    by eapply list_elem_of_lookup_2. }
  eexists out, _. split_and!; [done| |].
  - intros d (id & -> & Hin)%list_elem_of_fmap.
    apply list_elem_of_filter in Hin as [_ Hin].
    destruct id as [i d]. apply elem_of_enumerate in Hin.
    apply list_elem_of_lookup_2 in Hin. by apply Hsorted.
  - intros t' ([i t] & Hit%elem_of_enumerate & Hcase)%Hcollect. simpl in *.
    destruct Hcase as [[Hin ->]|[Hfree Hage]].
    + destruct (Hnew i Hin) as (t1 & d & Ht1 & Hd & Hupd); [set_solver|].
      exists t1. split; [by eapply list_elem_of_lookup_2|]. left.
      exists d. split; [by apply Hsorted|]. congruence.
    + rewrite Hout in Hit by done.
      exists t. split; [by eapply list_elem_of_lookup_2|by right].
Qed.

Lemma unified_spawn_tracks_spec (st : Unified.TrackerState)
    (unmatched : list Unified.UnifiedDetection) :
  Unified.active_tracks (Unified.spawn_tracks st unmatched)
  = Unified.active_tracks st
    ++ imap (λ i d, Unified.update
                      (Unified.new_track (Unified.next_track_id st + i)) d)
         unmatched
  ∧ Unified.completed_tracks (Unified.spawn_tracks st unmatched)
    = Unified.completed_tracks st
  ∧ Unified.next_track_id (Unified.spawn_tracks st unmatched)
    = Unified.next_track_id st + length unmatched.
Proof.
  unfold Unified.spawn_tracks. revert st.
  induction unmatched as [|d l IH]; intros st; simpl.
  { rewrite app_nil_r. split_and!; [done..|lia]. }
  destruct (IH {| Unified.active_tracks :=
                    Unified.active_tracks st
                    ++ [Unified.update
                          (Unified.new_track (Unified.next_track_id st)) d];
                  Unified.completed_tracks := Unified.completed_tracks st;
                  Unified.next_track_id := S (Unified.next_track_id st) |})
    as (-> & -> & ->).
  simpl. rewrite <- app_assoc. simpl. rewrite Nat.add_0_r.
  split_and!; [|done|lia].
  do 2 f_equal. apply imap_ext. intros i x _. simpl. do 2 f_equal. lia.
Qed.

Lemma fuse_detections_fused_on (rt_dets : list Unified.RTDETRDetection)
    (cands : list Robust.OrganismCandidate) (frame : nat)
    (params : Unified.FusionParams) :
  Forall (fused_on frame) (Unified.fuse_detections rt_dets cands frame params).
Proof.
  unfold Unified.fuse_detections. apply Forall_app. split.
  - unfold Unified.fuse_loop.
    induction rt_dets as [|det l IH] using rev_ind; [constructor|].
    rewrite foldl_snoc. unfold Unified.fuse_one at 1.
    destruct (Unified.best_match _ _ _ _).1 as [idx|].
    + destruct (cands !! idx); [|done]. simpl.
      apply Forall_app. split; [done|]. constructor; [|constructor].
      unfold fused_on. by simpl.
    + simpl. apply Forall_app. split; [done|]. constructor; [|constructor].
      unfold fused_on. by simpl.
  - rewrite Forall_fmap. apply Forall_true. intros m.
    unfold fused_on. by simpl.
Qed.

Section UnifiedInvariant.
Context (fusion_params : Unified.FusionParams)
        (params : Unified.UnifiedTrackingParams)
        (P : nat → Unified.UnifiedTrack → Prop).
Hypothesis P_history : ∀ frame t, P frame t → Unified.positions t ≠ [].
Hypothesis P_update : ∀ frame t d,
  P frame t → fused_on frame d → P (S frame) (Unified.update t d).
Hypothesis P_new : ∀ frame id d,
  fused_on frame d → P (S frame) (Unified.update (Unified.new_track id) d).
Hypothesis P_age : ∀ frame t t',
  P frame t → Unified.age_unmatched params t = Some (Some t') →
  P (S frame) t'.

Lemma unified_process_frame_Forall (st : Unified.TrackerState)
    (rt_dets : list Unified.RTDETRDetection)
    (cands : list Robust.OrganismCandidate) (frame : nat) :
  Forall (P frame) (Unified.active_tracks st) →
  ∃ st',
    Unified.process_frame fusion_params params st rt_dets cands frame
    = Some st'
    ∧ Forall (P (S frame)) (Unified.active_tracks st')
    ∧ Unified.completed_tracks st' = Unified.completed_tracks st
    ∧ Unified.next_track_id st ≤ Unified.next_track_id st'.
Proof.
  intros Hinv. unfold Unified.process_frame.
  pose proof (fuse_detections_fused_on rt_dets cands frame fusion_params)
    as Hdets.
  set (dets := Unified.fuse_detections rt_dets cands frame fusion_params) in *.
  rewrite Forall_forall in Hinv. rewrite Forall_forall in Hdets.
  destruct (unified_match_spec dets (Unified.active_tracks st) params)
    as (updated & unmatched & -> & Hunmatched & Hupdated).
  { apply Forall_forall. intros t Ht. by eapply P_history, Hinv. }
  eexists. split; [done|].
  match goal with
  | |- context [Unified.spawn_tracks ?s ?l] =>
      destruct (unified_spawn_tracks_spec s l) as (-> & -> & ->)
  end.
  simpl. split_and!; [|done|lia].
  apply Forall_app. split.
  - apply Forall_forall. intros t' (t & Ht & [(d & Hd & ->)|Hage])%Hupdated.
    + apply P_update; [by apply Hinv|by apply Hdets].
    + eapply P_age; [|done]. by apply Hinv.
  - apply Forall_forall. intros t' Ht'.
    apply elem_of_lookup_imap in Ht' as (i & d & -> & Hd).
    apply P_new, Hdets, Hunmatched. by eapply list_elem_of_lookup_2.
Qed.

Lemma unified_process_frames_Forall
    (video : list (list Unified.RTDETRDetection
                   * list Robust.OrganismCandidate))
    (frame : nat) (st : Unified.TrackerState) :
  Forall (P frame) (Unified.active_tracks st) →
  ∃ st',
    Unified.process_frames fusion_params params frame video st = Some st'
    ∧ Forall (P (frame + length video)) (Unified.active_tracks st')
    ∧ Unified.completed_tracks st' = Unified.completed_tracks st
    ∧ Unified.next_track_id st ≤ Unified.next_track_id st'.
Proof.
  revert frame st.
  induction video as [|dets rest IH]; intros frame st Hinv; simpl.
  { exists st. rewrite Nat.add_0_r. done. }
  destruct (unified_process_frame_Forall st dets.1 dets.2 frame Hinv)
    as (st1 & -> & Hinv1 & Hcompleted & Hnext).
  simpl. destruct (IH (S frame) st1 Hinv1) as (st' & -> & Hinv' & Hc' & Hn').
  exists st'. replace (frame + S (length rest)) with (S frame + length rest)
    by lia.
  split_and!; [done|done|congruence|lia].
Qed.

End UnifiedInvariant.

Lemma unified_update_inv (frame : nat) (t : Unified.UnifiedTrack)
    (d : Unified.UnifiedDetection) :
  unified_track_inv frame t → fused_on frame d →
  unified_track_inv (S frame) (Unified.update t d).
Proof.
  intros (Hne & Hpos & Hbox & Hsrc & Hconf & Hsorted & (f & Hlast & Hf)
          & Hrest & Hnever & Hclasses) (Hframe & Hsource & Hclass).
  unfold unified_track_inv. simpl. rewrite !length_app. simpl.
  split_and!; try lia.
  - by destruct (Unified.frames t).
  - apply StronglySorted_app_2; [|done|repeat constructor].
    intros x y Hx ->%list_elem_of_singleton. rewrite Hframe.
    pose proof (strongly_sorted_lt_last_bound _ _ Hsorted Hlast) as Hbound.
    rewrite Forall_forall in Hbound. specialize (Hbound x Hx). lia.
  - exists (Unified.frame_idx d). rewrite last_snoc. split; [done|lia].
  - intros [Hin|Hin%list_elem_of_singleton]%elem_of_app; [done|].
    by rewrite <- Hin in Hsource.
  - rewrite filter_app, length_app. simpl.
    destruct (Unified.rtdetr_class d) as [c|] eqn:Hc.
    + assert (Hsrc' : Unified.source d ≠ Unified.MOTION_ONLY).
      { intros Hmotion. specialize (Hclass Hmotion). congruence. }
      rewrite filter_cons, (decide_True _ _ Hsrc').
      case_decide; rewrite ?length_app; simpl; lia.
    + lia.
Qed.

Lemma unified_new_track_inv (frame id : nat) (d : Unified.UnifiedDetection) :
  fused_on frame d →
  unified_track_inv (S frame) (Unified.update (Unified.new_track id) d).
Proof.
  intros (Hframe & Hsource & Hclass). unfold unified_track_inv. simpl.
  split_and!; try done; try lia.
  - repeat constructor.
  - exists (Unified.frame_idx d). split; [done|lia].
  - intros Hin%list_elem_of_singleton. by rewrite <- Hin in Hsource.
  - destruct (Unified.rtdetr_class d) as [c|] eqn:Hc; [|simpl; lia].
    assert (Hsrc' : Unified.source d ≠ Unified.MOTION_ONLY).
    { intros Hmotion. specialize (Hclass Hmotion). congruence. }
    rewrite filter_cons, (decide_True _ _ Hsrc').
    case_decide; simpl; lia.
Qed.

Lemma unified_age_unmatched_inv (params : Unified.UnifiedTrackingParams)
    (frame : nat) (t t' : Unified.UnifiedTrack) :
  unified_track_inv frame t →
  Unified.age_unmatched params t = Some (Some t') →
  unified_track_inv (S frame) t'.
Proof.
  intros (Hne & Hpos & Hbox & Hsrc & Hconf & Hsorted & (f & Hlast & Hf)
          & Hrest & Hnever & Hclasses).
  unfold Unified.age_unmatched.
  cbn [Unified.is_resting Unified.frames_since_detection].
  case_bool_decide; [|done].
  destruct (Unified.is_resting t) eqn:Hresting.
  - intros [= <-]. unfold unified_track_inv. simpl.
    split_and!; try done; try lia.
    exists f. split; [done|lia].
  - unfold Unified.enter_rest_mode. cbn [Unified.positions].
    destruct (last (Unified.positions t)) as [p|]; [|done]. simpl.
    intros [= <-]. unfold unified_track_inv. simpl.
    split_and!; try done; try lia.
    exists f. split; [done|lia].
Qed.

Lemma unified_active_tracks_inv (fusion_params : Unified.FusionParams)
    (params : Unified.UnifiedTrackingParams)
    (video : list (list Unified.RTDETRDetection
                   * list Robust.OrganismCandidate)) :
  ∃ st,
    Unified.process_frames fusion_params params 0 video
      Unified.initial_tracker = Some st
    ∧ Forall (unified_track_inv (length video)) (Unified.active_tracks st)
    ∧ Unified.completed_tracks st = [].
Proof.
  destruct (unified_process_frames_Forall fusion_params params
              unified_track_inv) with (video := video) (frame := 0)
      (st := Unified.initial_tracker) as (st & Hst & Hinv & Hcompleted & _).
  - intros frame t (Hne & Hpos & _). intros Hnil.
    rewrite Hnil in Hpos. by destruct (Unified.frames t).
  - apply unified_update_inv.
  - apply unified_new_track_inv.
  - apply unified_age_unmatched_inv.
  - constructor.
  - by exists st.
Qed.

(** X26.  The unified tracker never fails on a frame: whatever the two
    detectors return, every track of the active set has at least one
    position (so that entering rest mode always finds a last position), its
    five histories have one entry per detection, its frames are strictly
    increasing, and it is resting exactly when it missed the last frame.
    Nothing is ever moved to [completed_tracks], so that [finalize] returns
    tracks of the final active set only. *)
Theorem unified_tracker_never_fails (fusion_params : Unified.FusionParams)
    (params : Unified.UnifiedTrackingParams)
    (video : list (list Unified.RTDETRDetection
                   * list Robust.OrganismCandidate)) :
  ∃ st,
    Unified.process_frames fusion_params params 0 video
      Unified.initial_tracker = Some st
    ∧ Unified.completed_tracks st = []
    ∧ Unified.finalize params (Unified.active_tracks st)
        (Unified.completed_tracks st)
      = filter (λ t, Unified.passes_validation params t = true)
          (Unified.active_tracks st)
    ∧ Forall (λ t,
        1 ≤ Unified.track_length t
        ∧ length (Unified.frames t) = Unified.track_length t
        ∧ length (Unified.bboxes t) = Unified.track_length t
        ∧ length (Unified.sources t) = Unified.track_length t
        ∧ length (Unified.confidences t) = Unified.track_length t
        ∧ StronglySorted lt (Unified.frames t)
        ∧ Forall (λ f, f < length video) (Unified.frames t)
        ∧ (Unified.is_resting t = true
           ↔ 1 ≤ Unified.frames_since_detection t))
        (Unified.active_tracks st).
Proof.
  destruct (unified_active_tracks_inv fusion_params params video)
    as (st & Hst & Hinv & Hcompleted).
  exists st. split; [done|]. split; [done|]. split.
  { unfold Unified.finalize. by rewrite Hcompleted, app_nil_r. }
  eapply Forall_impl; [exact Hinv|]. simpl.
  intros t (Hne & Hpos & Hbox & Hsrc & Hconf & Hsorted & (f & Hlast & Hf)
            & Hrest & _ & _).
  unfold Unified.track_length. rewrite Hpos.
  split_and!; try done.
  - destruct (Unified.frames t); [done|simpl; lia].
  - pose proof (strongly_sorted_lt_last_bound _ _ Hsorted Hlast) as Hbound.
    eapply Forall_impl; [exact Hbound|]. simpl. intros; lia.
Qed.

Lemma counter_keys_spec (seen classes : list string) (c : string) :
  c ∈ Unified.counter_keys seen classes ↔ c ∈ classes ∧ c ∉ seen.
Proof.
  revert seen. induction classes as [|x l IH]; intros seen; simpl.
  { split; [by intros ?%elem_of_nil|by intros [?%elem_of_nil _]]. }
  case_decide as Hseen.
  - rewrite IH, elem_of_cons. naive_solver.
  - rewrite elem_of_cons, IH, elem_of_cons, elem_of_app,
      list_elem_of_singleton.
    destruct (decide (c = x)) as [->|Hne]; naive_solver.
Qed.

(** X27.  What the unified tracker records about the origin of the
    detections of a track: the source MOTION_REINFORCED never occurs, there
    are at most as many recorded classes as detections that the appearance
    model contributed to, and a track made of motion-only detections has no
    most likely class. *)
Theorem unified_track_sources (fusion_params : Unified.FusionParams)
    (params : Unified.UnifiedTrackingParams)
    (video : list (list Unified.RTDETRDetection
                   * list Robust.OrganismCandidate)) :
  ∃ st,
    Unified.process_frames fusion_params params 0 video
      Unified.initial_tracker = Some st
    ∧ Forall (λ t,
        (Unified.MOTION_REINFORCED ∉ Unified.sources t)
        ∧ length (Unified.rtdetr_classes t)
          ≤ length (filter (λ s, s ≠ Unified.MOTION_ONLY) (Unified.sources t))
        ∧ (Forall (λ s, s = Unified.MOTION_ONLY) (Unified.sources t) →
           Unified.most_likely_class t = None))
        (Unified.active_tracks st).
Proof.
  destruct (unified_active_tracks_inv fusion_params params video)
    as (st & Hst & Hinv & _).
  exists st. split; [done|].
  eapply Forall_impl; [exact Hinv|]. simpl.
  intros t (_ & _ & _ & _ & _ & _ & _ & _ & Hnever & Hclasses).
  split_and!; [done..|].
  intros Hmotion.
  assert (Hnone : filter (λ s, s ≠ Unified.MOTION_ONLY) (Unified.sources t)
                  = []).
  { clear -Hmotion. induction Hmotion as [|s l -> _ IH]; [done|].
    by rewrite filter_cons_False by (intros Hne; by apply Hne). }
  rewrite Hnone in Hclasses. unfold Unified.most_likely_class.
  destruct (Unified.rtdetr_classes t); [done|simpl in Hclasses; lia].
Qed.

(** X28.  The most likely class of a unified track is one of its recorded
    classes that occurs most often; there is none exactly when no class was
    recorded. *)
Theorem most_likely_class_spec (t : Unified.UnifiedTrack) :
  let count c :=
    length (filter (λ c', c' = c) (Unified.rtdetr_classes t)) in
  match Unified.most_likely_class t with
  | None => Unified.rtdetr_classes t = []
  | Some c => c ∈ Unified.rtdetr_classes t ∧ ∀ c', count c' ≤ count c
  end.
Proof.
  intros count. unfold Unified.most_likely_class. fold count.
  pose proof (counter_keys_spec [] (Unified.rtdetr_classes t)) as Hkeys.
  destruct (Unified.counter_keys [] (Unified.rtdetr_classes t))
    as [|k keys] eqn:Hk.
  { destruct (Unified.rtdetr_classes t) as [|c l]; [done|].
    specialize (Hkeys c). destruct Hkeys as [_ Hkeys].
    exfalso. apply (elem_of_nil c), Hkeys.
    split; [by left|by intros ?%elem_of_nil]. }
  set (pick := λ best c, if decide (count best < count c) then c else best).
  assert (Hfold : ∀ l b,
    foldl pick b l ∈ b :: l
    ∧ Forall (λ c, count c ≤ count (foldl pick b l)) (b :: l)).
  { induction l as [|x l IH]; intros b; simpl.
    { split; [by left|]. by repeat constructor. }
    destruct (IH (pick b x)) as [Hin Hall].
    apply Forall_cons in Hall as [Hhead Hall].
    assert (Hpick : pick b x ∈ [b; x] ∧ count b ≤ count (pick b x)
                    ∧ count x ≤ count (pick b x)).
    { unfold pick. case_decide; split_and!; try lia; set_solver. }
    destruct Hpick as (Hpick & Hb & Hx). split.
    - apply elem_of_cons in Hin as [->|Hin]; [set_solver|].
      by do 2 right.
    - repeat (apply Forall_cons; split); [lia|lia|done]. }
  destruct (Hfold keys k) as [Hin Hall].
  split.
  - by apply Hkeys in Hin as [? _].
  - intros c'. destruct (decide (c' ∈ Unified.rtdetr_classes t)) as [Hc'|Hc'].
    + rewrite Forall_forall in Hall. apply Hall, Hkeys. split; [done|].
      by intros ?%elem_of_nil.
    + assert (count c' = 0); [|lia]. unfold count.
      destruct (filter (λ c'0, c'0 = c') (Unified.rtdetr_classes t))
        as [|x l] eqn:Hf; [done|].
      assert (Hx : x ∈ filter (λ c'0, c'0 = c') (Unified.rtdetr_classes t))
        by (rewrite Hf; by left).
      apply list_elem_of_filter in Hx as [-> Hx]. done.
Qed.

(** ** Robust tracker: the detection types of a track *)

(** X29.  The types recorded in a track of the robust tracker are
    dark-only, bright-only or coupled: the values ['multi'] and ['unknown']
    of [CandidateType] never occur, and the number of colour changes of a
    track is less than its number of detections. *)
Theorem track_candidate_types (set_iter : gset nat → list nat)
    (merge_params : Robust.MergeParams) (params : Robust.RobustTrackingParams)
    (video : list (list Robust.Blob * list Robust.Blob))
    (st : Robust.TrackerState) (t : Robust.RobustTrack) :
  (∀ s, set_iter s ≡ₚ elements s) →
  Robust.process_frames set_iter merge_params params 0 video initial_state
  = Some st →
  t ∈ Robust.active_tracks st →
  Forall (λ ty, ty = Robust.dark_only ∨ ty = Robust.bright_only
                ∨ ty = Robust.coupled) (Robust.candidate_types t)
  ∧ Robust.color_changes t < Robust.track_length t.
Proof.
  intros Hiter Hrun Ht.
  pose proof (active_tracks_inv _ _ _ _ _ Hiter Hrun) as Hinv.
  rewrite Forall_forall in Hinv.
  destruct (Hinv t Ht)
    as (((_ & _ & _ & Htypes_len) & Hne & _) & _ & _ & Htypes).
  split.
  - eapply Forall_impl; [exact Htypes|]. simpl.
    intros [] [? ?]; tauto.
  - unfold Robust.color_changes, Robust.track_length.
    pose proof (length_filter
                  (λ ab : Robust.CandidateType * Robust.CandidateType,
                     ab.1 ≠ ab.2)
                  (zip (Robust.candidate_types t)
                     (tail (Robust.candidate_types t)))) as Hfilter.
    rewrite length_zip in Hfilter.
    destruct (Robust.frames t) as [|f l]; [done|].
    destruct (Robust.candidate_types t) as [|ty tys]; [done|].
    cbn [tail length] in *. lia.
Qed.

(** X29, witness: the track left resting by the first three frames of the
    blinking video. *)
Lemma track_candidate_types_witness :
  Forall (λ ty, ty = Robust.dark_only ∨ ty = Robust.bright_only
                ∨ ty = Robust.coupled)
    (Robust.candidate_types Inputs.rested_twice)
  ∧ Robust.color_changes Inputs.rested_twice
    < Robust.track_length Inputs.rested_twice.
Proof.
  apply (track_candidate_types elements Robust.default_merge_params
           Robust.default_tracking_params (take 3 Inputs.blinking_video)
           Inputs.rested_state Inputs.rested_twice).
  - done.
  - reflexivity.
  - apply list_elem_of_singleton. reflexivity.
Defined.

(** ** Unified tracker: the rest zone *)

Lemma unified_age_unmatched_rest_zone
    (params : Unified.UnifiedTrackingParams) (frame : nat)
    (t t' : Unified.UnifiedTrack) :
  (Unified.initial_rest_radius params <= Unified.max_rest_radius params)%R →
  unified_track_inv frame t →
  unified_rest_zone_inv params t →
  Unified.age_unmatched params t = Some (Some t') →
  unified_rest_zone_inv params t'.
Proof.
  intros Hmax (_ & _ & _ & _ & _ & _ & _ & Hrest & _) Hzone.
  unfold Unified.age_unmatched.
  cbn [Unified.is_resting Unified.frames_since_detection].
  case_bool_decide; [|done].
  destruct (Unified.is_resting t) eqn:Hresting.
  - intros [= <-] _. simpl.
    destruct (Hzone Hresting) as [Hradius Hcenter].
    split; [|done]. rewrite Hradius.
    assert (Hk : 1 ≤ Unified.frames_since_detection t) by by apply Hrest.
    replace (Unified.frames_since_detection t - 0)
      with (S (Unified.frames_since_detection t - 1)) by lia.
    rewrite S_INR.
    generalize (INR (Unified.frames_since_detection t - 1))
      (Unified.max_rest_radius params) (Unified.initial_rest_radius params).
    intros k m i. unfold Rmin. repeat destruct (Rle_dec _ _); lra.
  - unfold Unified.enter_rest_mode. cbn [Unified.positions].
    destruct (last (Unified.positions t)) as [p|] eqn:Hlast; [|done]. simpl.
    intros [= <-] _. simpl. split; [|done].
    assert (Hk : Unified.frames_since_detection t = 0).
    { destruct (Unified.frames_since_detection t); [done|].
      destruct Hrest as [_ Hrest]. by specialize (Hrest ltac:(lia)). }
    rewrite Hk. simpl. rewrite Rmin_right by lra. lra.
Qed.

(** X30.  The rest zone of a resting track of the unified tracker, when
    the configured initial radius does not exceed the maximum: it is centred
    on the last position of the track, and after [k] missed frames its
    radius is the initial radius plus 2 pixels per further frame, capped at
    the maximum. *)
Theorem unified_resting_radius (fusion_params : Unified.FusionParams)
    (params : Unified.UnifiedTrackingParams)
    (video : list (list Unified.RTDETRDetection
                   * list Robust.OrganismCandidate))
    (st : Unified.TrackerState) (t : Unified.UnifiedTrack) :
  (Unified.initial_rest_radius params <= Unified.max_rest_radius params)%R →
  Unified.process_frames fusion_params params 0 video Unified.initial_tracker
  = Some st →
  t ∈ Unified.active_tracks st →
  Unified.is_resting t = true →
  Unified.rest_zone_radius t
  = Rmin (Unified.max_rest_radius params)
      (Unified.initial_rest_radius params
       + 2 * INR (Unified.frames_since_detection t - 1))
  ∧ Unified.rest_zone_center t = last (Unified.positions t)
  ∧ 1 ≤ Unified.frames_since_detection t.
Proof.
  intros Hmax Hrun Ht Hresting.
  destruct (unified_process_frames_Forall fusion_params params
              (λ frame t, unified_track_inv frame t
                          ∧ unified_rest_zone_inv params t))
    with (video := video) (frame := 0) (st := Unified.initial_tracker)
    as (st' & Hst & Hinv & _).
  - intros frame t0 ((Hne & Hpos & _) & _) Hnil.
    rewrite Hnil in Hpos. by destruct (Unified.frames t0).
  - intros frame t0 d [Hinv _] Hd. split; [by apply unified_update_inv|].
    by intros ?.
  - intros frame id d Hd. split; [by apply unified_new_track_inv|].
    by intros ?.
  - intros frame t0 t' [Hinv Hzone] Hage. split.
    + by eapply unified_age_unmatched_inv.
    + by eapply unified_age_unmatched_rest_zone.
  - constructor.
  - rewrite Hrun in Hst. injection Hst as <-.
    rewrite Forall_forall in Hinv.
    destruct (Hinv t Ht) as [(_ & _ & _ & _ & _ & _ & _ & Hrest & _) Hzone].
    destruct (Hzone Hresting) as [Hradius Hcenter].
    split_and!; [done..|]. by apply Hrest.
Qed.

(** X30, witness: a blob seen on frame 0 and missed on frames 1 and 2. *)
Lemma unified_resting_radius_witness :
  Unified.rest_zone_radius Inputs.unified_rested_twice
  = Rmin (Unified.max_rest_radius Unified.default_tracking_params)
      (Unified.initial_rest_radius Unified.default_tracking_params
       + 2 * INR (Unified.frames_since_detection Inputs.unified_rested_twice
                  - 1))
  ∧ Unified.rest_zone_center Inputs.unified_rested_twice
    = last (Unified.positions Inputs.unified_rested_twice)
  ∧ 1 ≤ Unified.frames_since_detection Inputs.unified_rested_twice.
Proof.
  apply (unified_resting_radius Unified.default_fusion_params
           Unified.default_tracking_params Inputs.unified_blinking_video
           {| Unified.active_tracks := [Inputs.unified_rested_twice];
              Unified.completed_tracks := [];
              Unified.next_track_id := 2 |}).
  - simpl. lra.
  - reflexivity.
  - apply list_elem_of_singleton. reflexivity.
  - reflexivity.
Defined.
